(** * reMarkable v6 [.rm] decoder and stroke renderer: model and properties

    A shallow embedding of [src/parser.py], [src/constants.py],
    [src/renderer.py], of [draw_stroke_on_page] and the stroke loop of
    [export_annotated_pdf] in [src/pdf_export.py], and of [slugify] and
    [MetadataCache.get_folder_path] in [src/folders.py].

    - A file is the list of its bytes; the stream cursor is a [Z], as Python
      integers are.
    - Python's [float] is IEEE binary64, which is what Rocq's primitive
      [float] is; [struct.unpack] of ["<f"] and ["<d"] is modelled by decoding
      the bit pattern.
    - Exceptions and the mutable stream are threaded through a small state and
      error monad whose state survives a raised exception, as the cursor of a
      Python file object does.
    - The two [while True] loops run on fuel.  Running out of fuel is an
      outcome of its own, which no [except] clause catches, and it is proved
      never to occur with the fuel the model supplies.
    - The [while] loop of [get_folder_path] runs on fuel that the caller of
      the model gives: it has inputs on which it does not end, and on all
      others as many iterations as the dictionary has items, and one more,
      are enough.
    - What [slugify] takes from the tables of Unicode ([str.lower], the
      classes [\w] and [\s]) is a parameter of its model. *)

From Stdlib Require Import Strings.String Strings.Ascii Strings.Byte.
From Stdlib Require Import DecimalString.
From Stdlib Require Import ZArith List Bool Lia Floats.
Import ListNotations.

Local Open Scope Z_scope.

(** ** Outcomes and the state monad *)

Inductive exn : Type :=
| EOFError
| ValueError.

Inductive outcome (A : Type) : Type :=
| Ok (a : A)
| Raise (e : exn)
| OutOfFuel.

Arguments Ok {A} a.
Arguments Raise {A} e.
Arguments OutOfFuel {A}.

Definition M (St A : Type) : Type := St -> outcome A * St.

Definition ret {St A} (a : A) : M St A := fun s => (Ok a, s).

Definition bind {St A B} (m : M St A) (k : A -> M St B) : M St B :=
  fun s =>
    match m s with
    | (Ok a, s') => k a s'
    | (Raise e, s') => (Raise e, s')
    | (OutOfFuel, s') => (OutOfFuel, s')
    end.

Definition raise {St A} (e : exn) : M St A := fun s => (Raise e, s).

Definition out_of_fuel {St A} : M St A := fun s => (OutOfFuel, s).

(** [try: m  except <those e with handles e>: handler].  An exception that
    the clause does not name keeps propagating. *)
Definition try_except {St A} (m : M St A) (handles : exn -> bool)
    (handler : M St A) : M St A :=
  fun s =>
    match m s with
    | (Raise e, s') => if handles e then handler s' else (Raise e, s')
    | r => r
    end.

(** [try: m  finally: cleanup], for a cleanup that cannot raise. *)
Definition try_finally {St A} (m : M St A) (cleanup : St -> St) : M St A :=
  fun s => let (o, s') := m s in (o, cleanup s').

(** Run a computation on a component of the state. *)
Definition zoom {S T A} (get : T -> S) (set : S -> T -> T) (m : M S A) : M T A :=
  fun t => let (o, s') := m (get t) in (o, set s' t).

Declare Scope monad_scope.
Delimit Scope monad_scope with monad.
Notation "x <- m ;; k" := (bind m (fun x => k))
  (at level 61, m at next level, right associativity) : monad_scope.
Notation "' p <- m ;; k" := (bind m (fun x => match x with p => k end))
  (at level 61, p pattern, m at next level, right associativity) : monad_scope.
Notation "m ;; k" := (bind m (fun _ => k))
  (at level 61, right associativity) : monad_scope.
Local Open Scope monad_scope.

(** ** Constants of [parser.py] *)

Definition byte_val (b : byte) : Z := Z.of_N (Byte.to_N b).

Definition HEADER_V6 : list byte :=
  list_byte_of_string "reMarkable .lines file, version=6          ".

Inductive TagType : Type := Byte1 | Byte4 | Byte8 | Length4 | ID.

Definition TagType_value (t : TagType) : Z :=
  match t with
  | Byte1 => 0x1 | Byte4 => 0x4 | Byte8 => 0x8 | Length4 => 0xC | ID => 0xF
  end.

(** The enum constructor [TagType(v)]: [None] stands for its [ValueError]. *)
Definition TagType_of_value (v : Z) : option TagType :=
  match v with
  | 0x1 => Some Byte1 | 0x4 => Some Byte4 | 0x8 => Some Byte8
  | 0xC => Some Length4 | 0xF => Some ID
  | _ => None
  end.

Definition TagType_eqb (a b : TagType) : bool :=
  TagType_value a =? TagType_value b.

Inductive BlockType : Type :=
| MigrationInfo | SceneTree | TreeNode | GlyphItem | GroupItem | LineItem
| TextItem | RootText | TombstoneItem | AuthorIds | PageInfo | SceneInfo.

Definition BlockType_value (b : BlockType) : Z :=
  match b with
  | MigrationInfo => 0x00 | SceneTree => 0x01 | TreeNode => 0x02
  | GlyphItem => 0x03 | GroupItem => 0x04 | LineItem => 0x05
  | TextItem => 0x06 | RootText => 0x07 | TombstoneItem => 0x08
  | AuthorIds => 0x09 | PageInfo => 0x0A | SceneInfo => 0x0D
  end.

Inductive Pen : Type :=
| PAINTBRUSH | PENCIL | BALLPOINT | MARKER | FINELINER | HIGHLIGHTER | ERASER
| MECHANICAL_PENCIL | ERASER_AREA | PAINTBRUSH_2 | MECHANICAL_PENCIL_2
| PENCIL_2 | BALLPOINT_2 | MARKER_2 | FINELINER_2 | HIGHLIGHTER_2
| CALIGRAPHY | SHADER.

Definition Pen_value (p : Pen) : Z :=
  match p with
  | PAINTBRUSH => 0 | PENCIL => 1 | BALLPOINT => 2 | MARKER => 3
  | FINELINER => 4 | HIGHLIGHTER => 5 | ERASER => 6 | MECHANICAL_PENCIL => 7
  | ERASER_AREA => 8 | PAINTBRUSH_2 => 12 | MECHANICAL_PENCIL_2 => 13
  | PENCIL_2 => 14 | BALLPOINT_2 => 15 | MARKER_2 => 16 | FINELINER_2 => 17
  | HIGHLIGHTER_2 => 18 | CALIGRAPHY => 21 | SHADER => 23
  end.

Definition Pen_of_value (v : Z) : option Pen :=
  match v with
  | 0 => Some PAINTBRUSH | 1 => Some PENCIL | 2 => Some BALLPOINT
  | 3 => Some MARKER | 4 => Some FINELINER | 5 => Some HIGHLIGHTER
  | 6 => Some ERASER | 7 => Some MECHANICAL_PENCIL | 8 => Some ERASER_AREA
  | 12 => Some PAINTBRUSH_2 | 13 => Some MECHANICAL_PENCIL_2
  | 14 => Some PENCIL_2 | 15 => Some BALLPOINT_2 | 16 => Some MARKER_2
  | 17 => Some FINELINER_2 | 18 => Some HIGHLIGHTER_2 | 21 => Some CALIGRAPHY
  | 23 => Some SHADER
  | _ => None
  end.

Inductive PenColor : Type :=
| BLACK | GRAY | WHITE | YELLOW | GREEN | PINK | BLUE | RED | GRAY_OVERLAP
| HIGHLIGHT | GREEN_2 | CYAN | MAGENTA | YELLOW_2.

Definition PenColor_value (c : PenColor) : Z :=
  match c with
  | BLACK => 0 | GRAY => 1 | WHITE => 2 | YELLOW => 3 | GREEN => 4 | PINK => 5
  | BLUE => 6 | RED => 7 | GRAY_OVERLAP => 8 | HIGHLIGHT => 9 | GREEN_2 => 10
  | CYAN => 11 | MAGENTA => 12 | YELLOW_2 => 13
  end.

Definition PenColor_of_value (v : Z) : option PenColor :=
  match v with
  | 0 => Some BLACK | 1 => Some GRAY | 2 => Some WHITE | 3 => Some YELLOW
  | 4 => Some GREEN | 5 => Some PINK | 6 => Some BLUE | 7 => Some RED
  | 8 => Some GRAY_OVERLAP | 9 => Some HIGHLIGHT | 10 => Some GREEN_2
  | 11 => Some CYAN | 12 => Some MAGENTA | 13 => Some YELLOW_2
  | _ => None
  end.

(** ** Data classes *)

Record CrdtId : Type := { part1 : Z; part2 : Z }.

Record Point : Type := {
  x : float;
  y : float;
  speed : Z;
  width : Z;
  direction : Z;
  pressure : Z
}.

(** [Pen | int] and [PenColor | int]: an enum member, or the raw integer that
    the enum constructor refused. *)
Inductive pen_or_int : Type :=
| IsPen (p : Pen)
| PenInt (n : Z).

Inductive color_or_int : Type :=
| IsColor (c : PenColor)
| ColorInt (n : Z).

Record Stroke : Type := {
  pen : pen_or_int;
  color : color_or_int;
  thickness_scale : float;
  points : list Point
}.

Record Layer : Type := {
  name : string;
  visible : bool;
  strokes : list Stroke
}.

Record Document : Type := { layers : list Layer }.

Definition all_strokes (doc : Document) : list Stroke :=
  flat_map strokes (layers doc).

(** ** Binary stream reader *)

(** The file object: its content and its cursor.  [seek] may move the cursor
    past the end; a read there returns no bytes. *)
Record BinaryReader : Type := {
  data : list byte;
  pos : Z
}.

Definition size (r : BinaryReader) : Z := Z.of_nat (length (data r)).

(** [f.read(n)]: at most [n] bytes from the cursor on, none at or past the
    end. *)
Definition file_read (r : BinaryReader) (n : nat) : list byte :=
  if size r <=? pos r then []
  else firstn n (skipn (Z.to_nat (pos r)) (data r)).

Definition advance (r : BinaryReader) (k : Z) : BinaryReader :=
  {| data := data r; pos := pos r + k |}.

Definition tell : M BinaryReader Z := fun r => (Ok (pos r), r).

Definition seek_to (p : Z) (r : BinaryReader) : BinaryReader :=
  {| data := data r; pos := p |}.

Definition seek (p : Z) : M BinaryReader unit := fun r => (Ok tt, seek_to p r).

(** The cursor moves by what was read, also when that is too little. *)
Definition read_bytes (n : nat) : M BinaryReader (list byte) :=
  fun r =>
    let result := file_read r n in
    let r' := advance r (Z.of_nat (length result)) in
    if (length result =? n)%nat then (Ok result, r') else (Raise EOFError, r').

(** Little-endian unsigned value of a byte string ([struct] formats ["<B"],
    ["<H"], ["<I"]). *)
Fixpoint le_uint (bs : list byte) : Z :=
  match bs with
  | [] => 0
  | b :: rest => byte_val b + 256 * le_uint rest
  end.

(** IEEE 754 decoding of a bit pattern with [ebits] exponent bits and [mbits]
    fraction bits into a binary64 value ([struct] formats ["<f"], ["<d"]);
    every binary32 value is a binary64 value, so no rounding occurs. *)
Definition decode_ieee (ebits mbits : Z) (w : Z) : float :=
  let sign := Z.testbit w (ebits + mbits) in
  let e := Z.land (Z.shiftr w mbits) (Z.ones ebits) in
  let m := Z.land w (Z.ones mbits) in
  let bias := Z.ones (ebits - 1) in
  if e =? Z.ones ebits then
    if m =? 0 then (if sign then neg_infinity else infinity) else nan
  else if e =? 0 then
    match m with
    | Zpos p => SF2Prim (S754_finite sign p (1 - bias - mbits))
    | _ => SF2Prim (S754_zero sign)
    end
  else SF2Prim (S754_finite sign (Z.to_pos (m + 2 ^ mbits)) (e - bias - mbits)).

Definition read_bool : M BinaryReader bool :=
  bs <- read_bytes 1 ;; ret (negb (le_uint bs =? 0)).

Definition read_uint8 : M BinaryReader Z :=
  bs <- read_bytes 1 ;; ret (le_uint bs).

Definition read_uint16 : M BinaryReader Z :=
  bs <- read_bytes 2 ;; ret (le_uint bs).

Definition read_uint32 : M BinaryReader Z :=
  bs <- read_bytes 4 ;; ret (le_uint bs).

Definition read_float32 : M BinaryReader float :=
  bs <- read_bytes 4 ;; ret (decode_ieee 8 23 (le_uint bs)).

Definition read_float64 : M BinaryReader float :=
  bs <- read_bytes 8 ;; ret (decode_ieee 11 52 (le_uint bs)).

(** The [while True] loop of [read_varuint]; one unit of fuel per iteration. *)
Fixpoint read_varuint_loop (fuel : nat) (result shift : Z) : M BinaryReader Z :=
  match fuel with
  | O => out_of_fuel
  | S fuel' =>
      byte <- read_uint8 ;;
      let result := Z.lor result (Z.shiftl (Z.land byte 0x7F) shift) in
      if Z.land byte 0x80 =? 0 then ret result
      else read_varuint_loop fuel' result (shift + 7)
  end.

(** Every iteration that does not leave the loop has consumed a byte, so one
    more unit of fuel than there are bytes left is enough
    ([read_varuint_never_out_of_fuel]). *)
Definition varuint_fuel (r : BinaryReader) : nat :=
  S (Z.to_nat (size r - pos r)).

Definition read_varuint : M BinaryReader Z :=
  fun r => read_varuint_loop (varuint_fuel r) 0 0 r.

Definition read_crdt_id : M BinaryReader CrdtId :=
  part1 <- read_uint8 ;;
  part2 <- read_varuint ;;
  ret {| part1 := part1; part2 := part2 |}.

(** ** Tagged block reader *)

Record TaggedBlockReader : Type := {
  stream : BinaryReader;
  _block_end : option Z
}.

Definition TaggedBlockReader_init (content : list byte) : TaggedBlockReader :=
  {| stream := {| data := content; pos := 0 |}; _block_end := None |}.

Definition set_stream (s : BinaryReader) (r : TaggedBlockReader) : TaggedBlockReader :=
  {| stream := s; _block_end := _block_end r |}.

(** [self.stream.<op>(...)] *)
Definition on_stream {A} (m : M BinaryReader A) : M TaggedBlockReader A :=
  zoom stream set_stream m.

Definition read_header : M TaggedBlockReader unit :=
  header <- on_stream (read_bytes (length HEADER_V6)) ;;
  if list_eq_dec Byte.byte_eq_dec header HEADER_V6 then ret tt
  else raise ValueError.

(** [float('inf')] outside a block is [None]. *)
Definition bytes_remaining (r : TaggedBlockReader) : option Z :=
  match _block_end r with
  | None => None
  | Some e => Some (e - pos (stream r))
  end.

Definition _read_tag : M TaggedBlockReader (Z * TagType) :=
  tag <- on_stream read_varuint ;;
  let index := Z.shiftr tag 4 in
  match TagType_of_value (Z.land tag 0xF) with
  | Some tag_type => ret (index, tag_type)
  | None => raise ValueError
  end.

Definition _expect_tag (expected_index : Z) (expected_type : TagType)
    : M TaggedBlockReader unit :=
  p <- on_stream tell ;;
  '(index, tag_type) <- _read_tag ;;
  if negb (index =? expected_index) || negb (TagType_eqb tag_type expected_type)
  then on_stream (seek p) ;; raise ValueError
  else ret tt.

Definition _check_tag (expected_index : Z) (expected_type : TagType)
    : M TaggedBlockReader bool :=
  fun r =>
    if match bytes_remaining r with Some v => v <=? 0 | None => false end
    then (Ok false, r)
    else
      let p := pos (stream r) in
      try_finally
        (try_except
           ('(index, tag_type) <- _read_tag ;;
            ret ((index =? expected_index) && TagType_eqb tag_type expected_type))
           (fun e => match e with EOFError | ValueError => true end)
           (ret false))
        (fun r' => set_stream (seek_to p (stream r')) r')
        r.

Definition read_byte (index : Z) : M TaggedBlockReader Z :=
  _expect_tag index Byte1 ;; on_stream read_uint8.

Definition read_int (index : Z) : M TaggedBlockReader Z :=
  _expect_tag index Byte4 ;; on_stream read_uint32.

Definition read_float (index : Z) : M TaggedBlockReader float :=
  _expect_tag index Byte4 ;; on_stream read_float32.

Definition read_double (index : Z) : M TaggedBlockReader float :=
  _expect_tag index Byte8 ;; on_stream read_float64.

Definition read_id (index : Z) : M TaggedBlockReader CrdtId :=
  _expect_tag index ID ;; on_stream read_crdt_id.

(** [(block_type, length, min_version, current_version)], or [None] when the
    four bytes of the length cannot be read. *)
Definition read_block_header : M TaggedBlockReader (option (Z * Z * Z * Z)) :=
  olength <- try_except
               (l <- on_stream read_uint32 ;; ret (Some l))
               (fun e => match e with EOFError => true | _ => false end)
               (ret None) ;;
  match olength with
  | None => ret None
  | Some length =>
      _unknown <- on_stream read_uint8 ;;
      min_version <- on_stream read_uint8 ;;
      current_version <- on_stream read_uint8 ;;
      block_type <- on_stream read_uint8 ;;
      ret (Some (block_type, length, min_version, current_version))
  end.

Definition read_subblock (index : Z) : M TaggedBlockReader Z :=
  _expect_tag index Length4 ;; on_stream read_uint32.

Definition has_subblock (index : Z) : M TaggedBlockReader bool :=
  _check_tag index Length4.

(** ** Document parser *)

Definition read_point : M BinaryReader Point :=
  x <- read_float32 ;;
  y <- read_float32 ;;
  speed <- read_uint16 ;;
  width <- read_uint16 ;;
  direction <- read_uint8 ;;
  pressure <- read_uint8 ;;
  ret {| x := x; y := y; speed := speed; width := width;
         direction := direction; pressure := pressure |}.

(** [[read_point(reader.stream) for _ in range(num_points)]] *)
Fixpoint read_points (num_points : nat) : M BinaryReader (list Point) :=
  match num_points with
  | O => ret []
  | S n => p <- read_point ;; ps <- read_points n ;; ret (p :: ps)
  end.

Definition pen_of_tool_id (tool_id : Z) : pen_or_int :=
  match Pen_of_value tool_id with
  | Some p => IsPen p
  | None => PenInt tool_id
  end.

Definition color_of_color_id (color_id : Z) : color_or_int :=
  match PenColor_of_value color_id with
  | Some c => IsColor c
  | None => ColorInt color_id
  end.

(** Annotated [Optional[Stroke]] in the source; every return is a stroke. *)
Definition read_line_data : M TaggedBlockReader (option Stroke) :=
  tool_id <- read_int 1 ;;
  color_id <- read_int 2 ;;
  thickness_scale <- read_double 3 ;;
  _starting_length <- read_float 4 ;;
  points_length <- read_subblock 5 ;;
  let point_size := 14 in
  let num_points := points_length / point_size in
  points <- on_stream (read_points (Z.to_nat num_points)) ;;
  _timestamp <- read_id 6 ;;
  ret (Some {| pen := pen_of_tool_id tool_id;
               color := color_of_color_id color_id;
               thickness_scale := thickness_scale;
               points := points |}).

(** What [parse_file] mutates while it runs: the reader, and the layer that
    [doc.layers] holds (the document and [default_layer] alias one object). *)
Record ParseState : Type := {
  reader : TaggedBlockReader;
  default_layer : Layer
}.

Definition set_reader (r : TaggedBlockReader) (st : ParseState) : ParseState :=
  {| reader := r; default_layer := default_layer st |}.

(** [reader.<op>(...)] *)
Definition on_reader {A} (m : M TaggedBlockReader A) : M ParseState A :=
  zoom reader set_reader m.

(** [default_layer.strokes.append(stroke)] *)
Definition append_stroke (s : Stroke) : M ParseState unit :=
  fun st =>
    (Ok tt,
     {| reader := reader st;
        default_layer :=
          {| name := name (default_layer st);
             visible := visible (default_layer st);
             strokes := strokes (default_layer st) ++ [s] |} |}).

(** How a block of statements inside the loop ends: by running to its end, or
    by the [continue] statement. *)
Inductive flow : Type :=
| Completed
| Continue.

(** The body of the [try] statement of [parse_file]. *)
Definition line_item_body : M ParseState flow :=
  _parent_id <- on_reader (read_id 1) ;;
  _item_id <- on_reader (read_id 2) ;;
  _left_id <- on_reader (read_id 3) ;;
  _right_id <- on_reader (read_id 4) ;;
  deleted_length <- on_reader (read_int 5) ;;
  if deleted_length >? 0 then ret Continue
  else
    has <- on_reader (has_subblock 6) ;;
    if has then
      value_length <- on_reader (read_subblock 6) ;;
      item_type <- on_reader (on_stream read_uint8) ;;
      if item_type =? 0x03 then
        stroke <- on_reader read_line_data ;;
        match stroke with
        | Some s =>
            match points s with
            | [] => ret Completed
            | _ :: _ => append_stroke s ;; ret Completed
            end
        | None => ret Completed
        end
      else ret Completed
    else ret Completed.

(** How one iteration of the [while True] loop ends. *)
Inductive step : Type :=
| Break
| Next.

(** One iteration of the loop of [parse_file].  [continue] inside the [try]
    goes to the next iteration directly: the [seek] that closes the loop body
    is not run then. *)
Definition parse_block : M ParseState step :=
  header <- on_reader read_block_header ;;
  match header with
  | None => ret Break
  | Some (block_type, length, min_version, current_version) =>
      block_start <- on_reader (on_stream tell) ;;
      let block_end := block_start + length in
      if block_type =? BlockType_value LineItem then
        fl <- try_except line_item_body (fun _ => true) (ret Completed) ;;
        match fl with
        | Continue => ret Next
        | Completed => on_reader (on_stream (seek block_end)) ;; ret Next
        end
      else on_reader (on_stream (seek block_end)) ;; ret Next
  end.

Fixpoint parse_loop (fuel : nat) : M ParseState unit :=
  match fuel with
  | O => out_of_fuel
  | S fuel' =>
      s <- parse_block ;;
      match s with
      | Break => ret tt
      | Next => parse_loop fuel'
      end
  end.

Definition parse_init (content : list byte) : ParseState :=
  {| reader := TaggedBlockReader_init content;
     default_layer := {| name := "Layer 1"; visible := true; strokes := [] |} |}.

Definition document_of (st : ParseState) : Document :=
  {| layers := [default_layer st] |}.

(** Every iteration that goes on to another one has consumed a block header,
    so one more unit of fuel than the file has bytes is enough
    ([parse_file_never_out_of_fuel]). *)
Definition parse_fuel (content : list byte) : nat := S (length content).

(** [parse_file], on the content of the file at [path]. *)
Definition parse_file (content : list byte) : outcome Document :=
  match (on_reader read_header ;; parse_loop (parse_fuel content))
          (parse_init content) with
  | (Ok _, st) => Ok (document_of st)
  | (Raise e, _) => Raise e
  | (OutOfFuel, _) => OutOfFuel
  end.

(** ** Constants of [constants.py] *)

Local Open Scope float_scope.
Local Open Scope string_scope.
Set Warnings "-inexact-float,-register-all".

(** The value of a Python [int] operand of a float operation.  Python
    converts every [int], rounding it, and raises [OverflowError] beyond the
    range of binary64; this definition is that conversion for the integers
    below [2^53] in absolute value, which convert exactly, and is not meant
    beyond them.  Every integer the renderers convert (a width sum, a point
    count, a colour channel) is below that for a stroke read from a file,
    whose points subblock is shorter than [2^32] bytes
    ([read_line_data_in_range]). *)
Definition float_of_int (n : Z) : float :=
  match n with
  | Z0 => 0
  | Zpos _ => PrimFloat.of_uint63 (Uint63.of_Z n)
  | Zneg _ => - PrimFloat.of_uint63 (Uint63.of_Z (Z.opp n))
  end.

Definition RM_DPI : Z := 227.
Definition PDF_DPI : float := 72.0.
Definition RM_TO_PDF_SCALE : float := float_of_int RM_DPI / PDF_DPI.

Definition Pen_eqb (a b : Pen) : bool := (Pen_value a =? Pen_value b)%Z.
Definition PenColor_eqb (a b : PenColor) : bool :=
  (PenColor_value a =? PenColor_value b)%Z.

(** [d.get(key, default)] on a dictionary given by its items. *)
Fixpoint dict_get {K V} (eqb : K -> K -> bool) (d : list (K * V)) (key : K)
    (default : V) : V :=
  match d with
  | [] => default
  | (k, v) :: rest => if eqb k key then v else dict_get eqb rest key default
  end.

Definition COLOR_MAP_RGB : list (PenColor * (Z * Z * Z)) :=
  [ (BLACK, (0, 0, 0)); (GRAY, (125, 125, 125)); (WHITE, (255, 255, 255));
    (YELLOW, (255, 235, 59)); (GREEN, (76, 175, 80)); (PINK, (233, 30, 99));
    (BLUE, (48, 74, 224)); (RED, (244, 67, 54));
    (GRAY_OVERLAP, (158, 158, 158)); (HIGHLIGHT, (255, 235, 59));
    (GREEN_2, (139, 195, 74)); (CYAN, (0, 188, 212));
    (MAGENTA, (156, 39, 176)); (YELLOW_2, (255, 193, 7)) ]%Z.

Definition hex_digit (n : Z) : string :=
  match n with
  | 0 => "0" | 1 => "1" | 2 => "2" | 3 => "3" | 4 => "4" | 5 => "5" | 6 => "6"
  | 7 => "7" | 8 => "8" | 9 => "9" | 10 => "a" | 11 => "b" | 12 => "c"
  | 13 => "d" | 14 => "e" | _ => "f"
  end%Z.

(** The format [{n:02x}], for [0 <= n < 256]. *)
Definition format_02x (n : Z) : string :=
  hex_digit (n / 16)%Z ++ hex_digit (n mod 16)%Z.

Definition COLOR_MAP_HEX : list (PenColor * string) :=
  map (fun '(color, (r, g, b)) =>
         (color, "#" ++ format_02x r ++ format_02x g ++ format_02x b))
      COLOR_MAP_RGB.

Definition PEN_BASE_WIDTH : list (Pen * float) :=
  [ (PAINTBRUSH, 3.0); (PENCIL, 1.5); (BALLPOINT, 1.2); (MARKER, 4.0);
    (FINELINER, 0.8); (HIGHLIGHTER, 12.0); (ERASER, 5.0);
    (MECHANICAL_PENCIL, 0.6); (ERASER_AREA, 5.0); (PAINTBRUSH_2, 3.0);
    (MECHANICAL_PENCIL_2, 0.6); (PENCIL_2, 1.5); (BALLPOINT_2, 1.2);
    (MARKER_2, 4.0); (FINELINER_2, 0.8); (HIGHLIGHTER_2, 12.0);
    (CALIGRAPHY, 2.5); (SHADER, 8.0) ].

Definition TRANSPARENT_PENS : list Pen := [HIGHLIGHTER; HIGHLIGHTER_2; SHADER].

Definition ERASER_PENS : list Pen := [ERASER; ERASER_AREA].

(** [pen in <set of pens>] *)
Definition pen_in (p : Pen) (s : list Pen) : bool := existsb (Pen_eqb p) s.

(** ** Formatting *)

Definition decimal (n : Z) : string :=
  NilZero.string_of_uint (N.to_uint (Z.to_N n)).

(** [m * 2^e], rounded to an integer, ties to even. *)
Definition round_half_even (m e : Z) : Z :=
  if (0 <=? e)%Z then (m * 2 ^ e)%Z
  else
    let d := (2 ^ (- e))%Z in
    let q := (m / d)%Z in
    let r := (m mod d)%Z in
    if ((d <? 2 * r) || ((2 * r =? d) && Z.odd q))%Z then (q + 1)%Z else q.

(** The format [{v:.2f}]: the exact value of the float, rounded to two
    decimals, ties to even; the sign is that of the float, also before
    [0.00]. *)
Definition format_2f (v : float) : string :=
  match Prim2SF v with
  | S754_nan => "nan"
  | S754_infinity s => if s then "-inf" else "inf"
  | S754_zero s => if s then "-0.00" else "0.00"
  | S754_finite s m e =>
      let h := round_half_even (Zpos m * 100) e in
      let frac := (h mod 100)%Z in
      (if s then "-" else "") ++ decimal (h / 100) ++ "."
      ++ (if (frac <? 10)%Z then "0" else "") ++ decimal frac
  end.

(** ** SVG renderer ([renderer.py]) *)

Definition REMARKABLE_WIDTH : Z := 1404.
Definition REMARKABLE_HEIGHT : Z := 1872.
Definition DEFAULT_X_OFFSET : float := 938.0.
Definition OUTPUT_WIDTH : float := float_of_int REMARKABLE_WIDTH / RM_TO_PDF_SCALE.
Definition OUTPUT_HEIGHT : float := float_of_int REMARKABLE_HEIGHT / RM_TO_PDF_SCALE.

Definition tx (x_offset : float) (x : float) : float :=
  (x + x_offset) / RM_TO_PDF_SCALE.

Definition ty (y : float) : float := y / RM_TO_PDF_SCALE.

(** The loop [for i in range(1, len(points))] of [points_to_path], entered
    with [p0 = points[i - 1]] and [rest = points[i:]]; [last] is
    [len(points) - 1]. *)
Fixpoint path_segments (x_offset : float) (last i : nat) (p0 : Point)
    (rest : list Point) (path : string) : string :=
  match rest with
  | [] => path
  | p1 :: rest' =>
      let mid_x := (tx x_offset (x p0) + tx x_offset (x p1)) / 2 in
      let mid_y := (ty (y p0) + ty (y p1)) / 2 in
      let path :=
        if (i =? 1)%nat then
          path ++ " L " ++ format_2f mid_x ++ " " ++ format_2f mid_y
        else if (i =? last)%nat then
          path ++ " Q " ++ format_2f (tx x_offset (x p0)) ++ " "
               ++ format_2f (ty (y p0)) ++ " "
               ++ format_2f (tx x_offset (x p1)) ++ " " ++ format_2f (ty (y p1))
        else
          path ++ " Q " ++ format_2f (tx x_offset (x p0)) ++ " "
               ++ format_2f (ty (y p0)) ++ " "
               ++ format_2f mid_x ++ " " ++ format_2f mid_y in
      path_segments x_offset last (S i) p1 rest' path
  end.

Definition points_to_path (points : list Point) (x_offset : float) : string :=
  match points with
  | [] => ""
  | [p] =>
      "M " ++ format_2f (tx x_offset (x p)) ++ " " ++ format_2f (ty (y p))
           ++ " l 0.1 0.1"
  | p0 :: rest =>
      let path :=
        "M " ++ format_2f (tx x_offset (x p0)) ++ " " ++ format_2f (ty (y p0)) in
      match rest with
      | [p1] =>
          path ++ " L " ++ format_2f (tx x_offset (x p1)) ++ " "
               ++ format_2f (ty (y p1))
      | _ => path_segments x_offset (length points - 1) 1 p0 rest path
      end
  end.

Definition get_stroke_color (stroke : Stroke) : string :=
  match color stroke with
  | IsColor c => dict_get PenColor_eqb COLOR_MAP_HEX c "#000000"
  | ColorInt _ => "#000000"
  end.

(** [max(a, b)] of two floats: the first one unless the second is greater. *)
Definition py_max (a b : float) : float := if PrimFloat.ltb a b then b else a.

(** [sum(p.width for p in points)], an integer. *)
Definition sum_widths (points : list Point) : Z :=
  fold_left (fun acc p => (acc + width p)%Z) points 0%Z.

(** [a / b] on two Python integers. *)
Definition int_truediv (a b : Z) : float := float_of_int a / float_of_int b.

Definition get_stroke_width (stroke : Stroke) : float :=
  match points stroke with
  | _ :: _ =>
      let avg_width :=
        int_truediv (sum_widths (points stroke))
                    (Z.of_nat (length (points stroke))) in
      py_max 0.5 (avg_width / RM_TO_PDF_SCALE / 4.0)
  | [] =>
      let base_width :=
        match pen stroke with
        | IsPen p => dict_get Pen_eqb PEN_BASE_WIDTH p 1.0
        | PenInt _ => 1.0
        end in
      base_width * thickness_scale stroke / RM_TO_PDF_SCALE
  end.

Definition get_stroke_opacity (stroke : Stroke) : float :=
  match pen stroke with
  | IsPen p => if pen_in p TRANSPARENT_PENS then 0.4 else 1.0
  | PenInt _ => 1.0
  end.

Definition is_eraser (stroke : Stroke) : bool :=
  match pen stroke with
  | IsPen p => pen_in p ERASER_PENS
  | PenInt _ => false
  end.

(** An [xml.etree.ElementTree] element: tag, attributes in the order they
    were set, children in the order they were added. *)
Inductive Element : Type :=
| Elem (tag : string) (attrib : list (string * string)) (children : list Element).

Definition tag_of (e : Element) : string := let (t, _, _) := e in t.
Definition attrib_of (e : Element) : list (string * string) := let (_, a, _) := e in a.
Definition children_of (e : Element) : list Element := let (_, _, c) := e in c.

(** [e.get(key)] *)
Fixpoint attr_get (key : string) (a : list (string * string)) : option string :=
  match a with
  | [] => None
  | (k, v) :: rest => if String.eqb k key then Some v else attr_get key rest
  end.

(** The [<path>] element that [render_svg] builds for a stroke it draws. *)
Definition path_element (x_offset : float) (stroke : Stroke) : Element :=
  let attrib :=
    [ ("d", points_to_path (points stroke) x_offset);
      ("stroke", get_stroke_color stroke);
      ("stroke-width", format_2f (get_stroke_width stroke));
      ("stroke-linecap", "round");
      ("stroke-linejoin", "round");
      ("fill", "none") ] in
  let opacity := get_stroke_opacity stroke in
  Elem "path"
       (if PrimFloat.ltb opacity 1.0
        then (attrib ++ [("opacity", format_2f opacity)])%list
        else attrib)
       [].

(** The body of [for stroke in layer.strokes], on the children of the layer's
    group; both [continue] statements leave the group as it is. *)
Definition render_stroke (x_offset : float) (g : list Element) (stroke : Stroke)
    : list Element :=
  if is_eraser stroke then g
  else
    match points stroke with
    | [] => g
    | _ :: _ => (g ++ [path_element x_offset stroke])%list
    end.

(** The body of [for i, layer in enumerate(doc.layers)]: the group of a
    layer. *)
Definition render_layer (x_offset : float) (i : nat) (layer : Layer) : Element :=
  let a := [("id", "layer-" ++ decimal (Z.of_nat i))] in
  let a := if String.eqb (name layer) "" then a
           else (a ++ [("data-name", name layer)])%list in
  let a := if visible layer then a
           else (a ++ [("visibility", "hidden")])%list in
  Elem "g" a (fold_left (render_stroke x_offset) (strokes layer) []).

Fixpoint render_layers (x_offset : float) (i : nat) (ls : list Layer)
    (svg : list Element) : list Element :=
  match ls with
  | [] => svg
  | layer :: rest =>
      render_layers x_offset (S i) rest
                    (svg ++ [render_layer x_offset i layer])%list
  end.

(** [render_svg], up to the serialisation of the tree it has built. *)
Definition render_svg (doc : Document) (width height x_offset : float) : Element :=
  let bg := Elem "rect" [("width", "100%"); ("height", "100%"); ("fill", "#ffffff")] [] in
  Elem "svg"
       [ ("xmlns", "http://www.w3.org/2000/svg");
         ("viewBox", "0 0 " ++ format_2f width ++ " " ++ format_2f height);
         ("width", format_2f width);
         ("height", format_2f height) ]
       (render_layers x_offset 0 (layers doc) [bg]).

(** ** PDF overlay ([pdf_export.py]) *)

Definition get_color (stroke : Stroke) : float * float * float :=
  let '(r, g, b) :=
    match color stroke with
    | IsColor c => dict_get PenColor_eqb COLOR_MAP_RGB c (0, 0, 0)%Z
    | ColorInt _ => (0, 0, 0)%Z
    end in
  (int_truediv r 255, int_truediv g 255, int_truediv b 255).

Definition is_highlighter (stroke : Stroke) : bool :=
  match pen stroke with
  | IsPen p => pen_in p TRANSPARENT_PENS
  | PenInt _ => false
  end.

(** A [fitz.Shape] is the sequence of drawing calls made on it. *)
Inductive ShapeCall : Type :=
| draw_line (p1 p2 : float * float)
| finish (color : float * float * float) (width : float) (lineCap lineJoin : Z)
         (stroke_opacity : float) (closePath : bool).

(** [for i in range(len(pdf_points) - 1): shape.draw_line(pdf_points[i],
    pdf_points[i + 1])] *)
Fixpoint draw_segments (shape : list ShapeCall) (pdf_points : list (float * float))
    : list ShapeCall :=
  match pdf_points with
  | p :: ((q :: _) as rest) => draw_segments (shape ++ [draw_line p q])%list rest
  | _ => shape
  end.

Definition draw_stroke_on_page (shape : list ShapeCall) (stroke : Stroke)
    (page_width : float) : list ShapeCall :=
  if is_eraser stroke || (length (points stroke) <? 2)%nat then shape
  else
    let color := get_color stroke in
    let avg_width :=
      int_truediv (sum_widths (points stroke))
                  (Z.of_nat (length (points stroke))) in
    let width := py_max 0.5 (avg_width / RM_TO_PDF_SCALE / 4.0) in
    let x_offset := (page_width / 2) * RM_TO_PDF_SCALE in
    let pdf_points :=
      map (fun p => ((x p + x_offset) / RM_TO_PDF_SCALE, y p / RM_TO_PDF_SCALE))
          (points stroke) in
    let shape := draw_segments shape pdf_points in
    let opacity := if is_highlighter stroke then 0.4 else 1.0 in
    (shape ++ [finish color width 1 1 opacity false])%list.

(** The strokes of a parsed page as [export_annotated_pdf] draws and counts
    them:
    [for layer in doc.layers: for stroke in layer.strokes:
    draw_stroke_on_page(shape, stroke, page_width); annotations_added += 1]. *)
Definition draw_strokes (page_width : float) (strokes : list Stroke)
    (acc : list ShapeCall * Z) : list ShapeCall * Z :=
  fold_left (fun '(shape, annotations_added) stroke =>
               (draw_stroke_on_page shape stroke page_width,
                (annotations_added + 1)%Z))
            strokes acc.

Definition draw_layers (doc : Document) (page_width : float)
    (shape : list ShapeCall) (annotations_added : Z) : list ShapeCall * Z :=
  fold_left (fun acc layer => draw_strokes page_width (strokes layer) acc)
            (layers doc) (shape, annotations_added).

(** ** Folders and metadata ([folders.py]) *)

Module folders.

Record DocumentInfo : Type := {
  uuid : string;
  name : string;
  parent : string;
  doc_type : string;
  last_modified : Z
}.

Definition is_folder (d : DocumentInfo) : bool := doc_type d =? "CollectionType".

Definition is_trashed (d : DocumentInfo) : bool := parent d =? "trash".

(** What Unicode says of the characters of a [str]: [str.lower], and the
    classes [\w] and [\s] of [re] for a [str] pattern. *)
Record Unicode : Type := {
  lower : string -> string;
  is_word : ascii -> bool;
  is_space : ascii -> bool
}.

(** [re.sub(cls+, '-', s)] for a class [cls] of characters: every maximal run
    of characters of the class becomes one hyphen.  [in_run] says that the
    character before belongs to the run that is being replaced. *)
Fixpoint sub_runs (cls : ascii -> bool) (in_run : bool) (s : list ascii)
    : list ascii :=
  match s with
  | [] => []
  | c :: rest =>
      if cls c
      then if in_run then sub_runs cls true rest
           else "-"%char :: sub_runs cls true rest
      else c :: sub_runs cls false rest
  end%list.

(** [s.lstrip(c)], [s.rstrip(c)] and [s.strip(c)] for one character [c]. *)
Fixpoint lstrip (c : ascii) (s : list ascii) : list ascii :=
  match s with
  | [] => []
  | a :: rest => if (a =? c)%char then lstrip c rest else s
  end%list.

Definition rstrip (c : ascii) (s : list ascii) : list ascii :=
  rev (lstrip c (rev s)).

Definition strip (c : ascii) (s : list ascii) : list ascii :=
  rstrip c (lstrip c s).

Definition slugify (U : Unicode) (name : string) : string :=
  let slug := list_ascii_of_string (lower U name) in
  (* re.sub(r'[^\w\s-]', '', slug) *)
  let slug :=
    filter (fun c => is_word U c || is_space U c || (c =? "-")%char) slug in
  (* re.sub(r'[\s_]+', '-', slug) *)
  let slug := sub_runs (fun c => is_space U c || (c =? "_")%char) false slug in
  (* re.sub(r'-+', '-', slug) *)
  let slug := sub_runs (fun c => (c =? "-")%char) false slug in
  string_of_list_ascii (strip "-" slug).

(** [self._items.get(uuid)], the dictionary given by its items. *)
Fixpoint items_get (_items : list (string * DocumentInfo)) (uuid : string)
    : option DocumentInfo :=
  match _items with
  | [] => None
  | (k, v) :: rest => if k =? uuid then Some v else items_get rest uuid
  end%list.

(** The [while] loop of [get_folder_path]; one unit of fuel per iteration.
    The loop has no bound of its own, and there are files on which it does
    not end. *)
Fixpoint get_folder_path_loop (U : Unicode) (fuel : nat)
    (_items : list (string * DocumentInfo)) (current_parent : string)
    (parts : list string) : outcome (list string) :=
  match fuel with
  | O => OutOfFuel
  | S fuel' =>
      if negb (current_parent =? "") && negb (current_parent =? "trash")
      then match items_get _items current_parent with
           | None => Ok parts
           | Some parent_doc =>
               get_folder_path_loop U fuel' _items (parent parent_doc)
                 (parts ++ [slugify U (name parent_doc)])%list
           end
      else Ok parts
  end.

Definition get_folder_path (U : Unicode) (fuel : nat)
    (_items : list (string * DocumentInfo)) (uuid : string) : outcome string :=
  match items_get _items uuid with
  | None => Ok ""
  | Some doc =>
      match get_folder_path_loop U fuel _items (parent doc) [] with
      | Ok parts => Ok (String.concat "/" (rev parts))
      | Raise e => Raise e
      | OutOfFuel => OutOfFuel
      end
  end.

End folders.

(** ** Sample files *)

Local Close Scope float_scope.
Local Close Scope string_scope.

Definition bytes_of_ints (l : list Z) : list byte :=
  map (fun z => match Byte.of_N (Z.to_N z) with Some b => b | None => x00 end) l.

(** Encoders for the sample files, in integers for the bytes. *)

Definition u16_le (n : Z) : list Z := [n mod 256; n / 256 mod 256].

Definition u32_le (n : Z) : list Z :=
  [n mod 256; n / 256 mod 256; n / 65536 mod 256; n / 16777216 mod 256].

Definition u64_le (n : Z) : list Z :=
  u32_le (n mod 4294967296) ++ u32_le (n / 4294967296).

Definition tag_byte (index : Z) (t : TagType) : Z := index * 16 + TagType_value t.

(** A tagged [CrdtId(0, 0)]. *)
Definition id_field (index : Z) : list Z := [tag_byte index ID; 0; 0].

Definition int_field (index n : Z) : list Z := tag_byte index Byte4 :: u32_le n.

Definition subblock (index : Z) (content : list Z) : list Z :=
  tag_byte index Length4 :: u32_le (Z.of_nat (length content)) ++ content.

(** The scene item envelope: four ids and [deleted_length]; 17 bytes. *)
Definition envelope (deleted_length : Z) : list Z :=
  id_field 1 ++ id_field 2 ++ id_field 3 ++ id_field 4
  ++ int_field 5 deleted_length.

(** A point, its coordinates given as binary32 bit patterns. *)
Definition point_bytes (x_bits y_bits width : Z) : list Z :=
  u32_le x_bits ++ u32_le y_bits ++ u16_le 0 ++ u16_le width ++ [0; 0].

(** The value subblock of a line: item type 3, then the line with
    [thickness_scale = 1.0] and [starting_length = 0.0]. *)
Definition line_value (tool_id color_id : Z) (pts : list Z) : list Z :=
  subblock 6
    (0x03 :: int_field 1 tool_id ++ int_field 2 color_id
          ++ tag_byte 3 Byte8 :: u64_le 0x3FF0000000000000
          ++ int_field 4 0 ++ subblock 5 pts ++ id_field 6).

(** A top-level block: the eight bytes of its header, then its payload. *)
Definition block (block_type : Z) (payload : list Z) : list byte :=
  bytes_of_ints
    (u32_le (Z.of_nat (length payload)) ++ [0; 1; 1; block_type] ++ payload).

(** A FINELINER stroke in BLACK through (0, 0), (100, 200), (200, 400), each
    point of width 16. *)
Definition stroke_block : list byte :=
  block 5 (envelope 0
           ++ line_value 4 0 (point_bytes 0 0 16
                              ++ point_bytes 0x42C80000 0x43480000 16
                              ++ point_bytes 0x43480000 0x43C80000 16)).

(** A BALLPOINT stroke in BLACK of the single point (10, 20), of width 0. *)
Definition dot_block : list byte :=
  block 5 (envelope 0 ++ line_value 2 0 (point_bytes 0x41200000 0x41A00000 0)).

(** An ERASER stroke through (0, 0) and (10, 20). *)
Definition eraser_block : list byte :=
  block 5 (envelope 0
           ++ line_value 6 0 (point_bytes 0 0 16
                              ++ point_bytes 0x41200000 0x41A00000 16)).

(** A deleted stroke: the block of [dot_block] with [deleted_length = 1].
    Its payload is 69 bytes long: the 17 bytes of the envelope, then the value
    subblock with the line. *)
Definition tombstone_block : list byte :=
  block 5 (envelope 1 ++ line_value 2 0 (point_bytes 0x41200000 0x41A00000 0)).

(** A [LineItem] block that opens with the tag of index 2 where index 1 is
    expected. *)
Definition bad_tag_block : list byte := block 5 (id_field 2).

(** The state of [parse_file] on [content] when it enters its loop. *)
Definition after_header (content : list byte) : ParseState :=
  snd (on_reader read_header (parse_init content)).

(** * Properties *)

(** ** The monad: what every step of a computation keeps, and totality *)

(** [keeps R m]: the state [m] ends in, whatever the outcome, is related by [R]
    to the state it started in. *)
Definition keeps {St A} (R : St -> St -> Prop) (m : M St A) : Prop :=
  forall s, R s (snd (m s)).

(** [total m]: [m] never runs out of fuel. *)
Definition total {St A} (m : M St A) : Prop :=
  forall s, fst (m s) <> OutOfFuel.

Section Keeps.
Context {St : Type} (R : St -> St -> Prop).
Hypothesis R_refl : forall s, R s s.
Hypothesis R_trans : forall a b c, R a b -> R b c -> R a c.

Lemma keeps_ret {A} (a : A) : keeps R (ret a).
Proof. intros s. apply R_refl. Qed.

Lemma keeps_raise {A} (e : exn) : keeps R (@raise St A e).
Proof. intros s. apply R_refl. Qed.

Lemma keeps_bind {A B} (m : M St A) (k : A -> M St B) :
  keeps R m -> (forall a, keeps R (k a)) -> keeps R (bind m k).
Proof.
  intros Hm Hk s. unfold bind. specialize (Hm s).
  destruct (m s) as [[a | e |] s1]; simpl in *; auto.
  eapply R_trans; [exact Hm | apply Hk].
Qed.

Lemma keeps_try_except {A} (m h : M St A) (handles : exn -> bool) :
  keeps R m -> keeps R h -> keeps R (try_except m handles h).
Proof.
  intros Hm Hh s. unfold try_except. specialize (Hm s).
  destruct (m s) as [[a | e |] s1]; simpl in *; auto.
  destruct (handles e); simpl; auto.
  eapply R_trans; [exact Hm | apply Hh].
Qed.
End Keeps.

Lemma keeps_zoom {S T A} (RS : S -> S -> Prop) (RT : T -> T -> Prop)
    (get : T -> S) (set : S -> T -> T) (m : M S A) :
  (forall t s', RS (get t) s' -> RT t (set s' t)) ->
  keeps RS m -> keeps RT (zoom get set m).
Proof.
  intros Hlift Hm t. unfold zoom. specialize (Hm (get t)).
  destruct (m (get t)) as [o s']. simpl in *. auto.
Qed.

Lemma total_ret {St A} (a : A) : total (@ret St A a).
Proof. intros s. discriminate. Qed.

Lemma total_raise {St A} (e : exn) : total (@raise St A e).
Proof. intros s. discriminate. Qed.

Lemma total_bind {St A B} (m : M St A) (k : A -> M St B) :
  total m -> (forall a, total (k a)) -> total (bind m k).
Proof.
  intros Hm Hk s. unfold bind. specialize (Hm s).
  destruct (m s) as [[a | e |] s1]; simpl in *; try discriminate.
  - apply Hk.
  - congruence.
Qed.

Lemma total_try_except {St A} (m h : M St A) (handles : exn -> bool) :
  total m -> total h -> total (try_except m handles h).
Proof.
  intros Hm Hh s. unfold try_except. specialize (Hm s).
  destruct (m s) as [[a | e |] s1]; simpl in *; try discriminate.
  - destruct (handles e); [apply Hh | discriminate].
  - congruence.
Qed.

Lemma total_zoom {S T A} (get : T -> S) (set : S -> T -> T) (m : M S A) :
  total m -> total (zoom get set m).
Proof.
  intros Hm t. unfold zoom. specialize (Hm (get t)).
  destruct (m (get t)) as [o s']. exact Hm.
Qed.

(** ** The stream: reads never change the file and never move back *)

Definition stream_le (r r' : BinaryReader) : Prop :=
  data r' = data r /\ pos r <= pos r'.

Lemma stream_le_refl r : stream_le r r.
Proof. split; [reflexivity | lia]. Qed.

Lemma stream_le_trans a b c : stream_le a b -> stream_le b c -> stream_le a c.
Proof. intros [D1 P1] [D2 P2]. split; [congruence | lia]. Qed.

Lemma file_read_length r n : (length (file_read r n) <= n)%nat.
Proof.
  unfold file_read. destruct (size r <=? pos r); simpl; [lia |].
  rewrite length_firstn. lia.
Qed.

Lemma read_bytes_spec n r :
  (length (file_read r n) = n /\
   read_bytes n r = (Ok (file_read r n), advance r (Z.of_nat n))) \/
  ((length (file_read r n) < n)%nat /\
   read_bytes n r = (Raise EOFError, advance r (Z.of_nat (length (file_read r n))))).
Proof.
  unfold read_bytes. pose proof (file_read_length r n) as Hle.
  destruct (Nat.eqb_spec (length (file_read r n)) n) as [E | NE].
  - left. split; [exact E |]. rewrite E. reflexivity.
  - right. split; [lia | reflexivity].
Qed.

Lemma keeps_read_bytes n : keeps stream_le (read_bytes n).
Proof.
  intros r. destruct (read_bytes_spec n r) as [[_ E] | [_ E]]; rewrite E; simpl;
    split; simpl; try reflexivity; lia.
Qed.

Lemma total_read_bytes n : total (read_bytes n).
Proof.
  intros r. destruct (read_bytes_spec n r) as [[_ E] | [_ E]]; rewrite E; discriminate.
Qed.

Create HintDb reader.
#[local] Hint Resolve stream_le_refl stream_le_trans : reader.
#[local] Hint Resolve keeps_ret keeps_raise keeps_bind keeps_try_except
  keeps_read_bytes : reader.
#[local] Hint Resolve total_ret total_raise total_bind total_try_except
  total_zoom total_read_bytes : reader.

Lemma keeps_stream_bind {A B} (m : M BinaryReader A) (k : A -> M BinaryReader B) :
  keeps stream_le m -> (forall a, keeps stream_le (k a)) ->
  keeps stream_le (bind m k).
Proof. apply keeps_bind; eauto with reader. Qed.

Lemma keeps_read_uint8 : keeps stream_le read_uint8.
Proof. apply keeps_stream_bind; intros; eauto with reader. Qed.

Lemma keeps_read_uint16 : keeps stream_le read_uint16.
Proof. apply keeps_stream_bind; intros; eauto with reader. Qed.

Lemma keeps_read_uint32 : keeps stream_le read_uint32.
Proof. apply keeps_stream_bind; intros; eauto with reader. Qed.

Lemma keeps_read_float32 : keeps stream_le read_float32.
Proof. apply keeps_stream_bind; intros; eauto with reader. Qed.

Lemma keeps_read_float64 : keeps stream_le read_float64.
Proof. apply keeps_stream_bind; intros; eauto with reader. Qed.

Lemma total_read_uint8 : total read_uint8.
Proof. apply total_bind; intros; eauto with reader. Qed.

Lemma total_read_uint16 : total read_uint16.
Proof. apply total_bind; intros; eauto with reader. Qed.

Lemma total_read_uint32 : total read_uint32.
Proof. apply total_bind; intros; eauto with reader. Qed.

Lemma total_read_float32 : total read_float32.
Proof. apply total_bind; intros; eauto with reader. Qed.

Lemma total_read_float64 : total read_float64.
Proof. apply total_bind; intros; eauto with reader. Qed.

#[local] Hint Resolve keeps_stream_bind keeps_read_uint8 keeps_read_uint16
  keeps_read_uint32 keeps_read_float32 keeps_read_float64 total_read_uint8
  total_read_uint16 total_read_uint32 total_read_float32 total_read_float64
  : reader.

(** What [read_uint8] does, by whether a byte is left at the cursor. *)
Lemma read_uint8_spec r :
  (exists b, file_read r 1 = [b] /\ pos r < size r /\
             read_uint8 r = (Ok (byte_val b), advance r 1)) \/
  (file_read r 1 = [] /\
   read_uint8 r = (Raise EOFError, advance r 0)).
Proof.
  unfold read_uint8, bind.
  destruct (read_bytes_spec 1 r) as [[L E] | [L E]]; rewrite E.
  - left. destruct (file_read r 1) as [| b [| c rest]] eqn:F; simpl in L; try lia.
    exists b. repeat split.
    + unfold file_read in F. destruct (Z.leb_spec (size r) (pos r)); [discriminate | lia].
    + unfold ret. simpl. unfold byte_val. do 2 f_equal. lia.
  - right. destruct (file_read r 1) as [| b rest] eqn:F; simpl in L; try lia.
    split; reflexivity.
Qed.

Lemma read_varuint_loop_keeps fuel : forall result shift,
  keeps stream_le (read_varuint_loop fuel result shift).
Proof.
  induction fuel as [| fuel IH]; intros result shift; simpl.
  - intros r. apply stream_le_refl.
  - apply keeps_stream_bind; [eauto with reader |]. intros byte.
    destruct (Z.land byte 128 =? 0); [eauto with reader | apply IH].
Qed.

Lemma keeps_read_varuint : keeps stream_le read_varuint.
Proof. intros r. unfold read_varuint. apply read_varuint_loop_keeps. Qed.

(** The loop never runs out of fuel when it starts with more fuel than there
    are bytes left. *)
Lemma read_varuint_loop_total fuel : forall result shift r,
  (Z.to_nat (size r - pos r) < fuel)%nat ->
  fst (read_varuint_loop fuel result shift r) <> OutOfFuel.
Proof.
  induction fuel as [| fuel IH]; intros result shift r Hfuel; [lia |].
  simpl. unfold bind.
  destruct (read_uint8_spec r) as [(b & _ & Hlt & E) | (_ & E)]; rewrite E.
  - destruct (Z.land (byte_val b) 128 =? 0); [discriminate |].
    apply IH. unfold size, advance in *. simpl. lia.
  - discriminate.
Qed.

Lemma read_varuint_never_out_of_fuel : total read_varuint.
Proof.
  intros r. unfold read_varuint, varuint_fuel.
  apply read_varuint_loop_total. lia.
Qed.

Lemma keeps_read_crdt_id : keeps stream_le read_crdt_id.
Proof.
  unfold read_crdt_id.
  apply keeps_stream_bind; [eauto with reader | intros a].
  apply keeps_stream_bind; [apply keeps_read_varuint | intros b].
  eauto with reader.
Qed.

Lemma total_read_crdt_id : total read_crdt_id.
Proof.
  unfold read_crdt_id.
  apply total_bind; [eauto with reader | intros a].
  apply total_bind; [apply read_varuint_never_out_of_fuel | intros b].
  eauto with reader.
Qed.

Lemma keeps_read_point : keeps stream_le read_point.
Proof.
  unfold read_point.
  repeat (apply keeps_stream_bind; [eauto with reader | intros ?]).
  eauto with reader.
Qed.

Lemma total_read_point : total read_point.
Proof.
  unfold read_point.
  repeat (apply total_bind; [eauto with reader | intros ?]).
  eauto with reader.
Qed.

Lemma keeps_read_points n : keeps stream_le (read_points n).
Proof.
  induction n as [| n IH]; simpl; [eauto with reader |].
  apply keeps_stream_bind; [apply keeps_read_point | intros p].
  apply keeps_stream_bind; [exact IH | intros ps]. eauto with reader.
Qed.

Lemma total_read_points n : total (read_points n).
Proof.
  induction n as [| n IH]; simpl; [eauto with reader |].
  apply total_bind; [apply total_read_point | intros p].
  apply total_bind; [exact IH | intros ps]. eauto with reader.
Qed.

#[local] Hint Resolve keeps_read_varuint read_varuint_never_out_of_fuel
  keeps_read_crdt_id total_read_crdt_id keeps_read_points total_read_points
  : reader.

(** ** The tagged block reader *)

Definition reader_le (r r' : TaggedBlockReader) : Prop :=
  stream_le (stream r) (stream r') /\ _block_end r' = _block_end r.

Lemma reader_le_refl r : reader_le r r.
Proof. split; [apply stream_le_refl | reflexivity]. Qed.

Lemma reader_le_trans a b c : reader_le a b -> reader_le b c -> reader_le a c.
Proof.
  intros [S1 B1] [S2 B2]. split; [eapply stream_le_trans; eauto | congruence].
Qed.

Lemma keeps_reader_bind {A B} (m : M TaggedBlockReader A)
    (k : A -> M TaggedBlockReader B) :
  keeps reader_le m -> (forall a, keeps reader_le (k a)) ->
  keeps reader_le (bind m k).
Proof. apply keeps_bind. exact reader_le_trans. Qed.

Lemma keeps_on_stream {A} (m : M BinaryReader A) :
  keeps stream_le m -> keeps reader_le (on_stream m).
Proof.
  apply keeps_zoom. intros t s' H. split; [exact H | reflexivity].
Qed.

Lemma total_on_stream {A} (m : M BinaryReader A) : total m -> total (on_stream m).
Proof. apply total_zoom. Qed.

#[local] Hint Resolve reader_le_refl reader_le_trans keeps_reader_bind
  keeps_on_stream total_on_stream : reader.

Lemma keeps_read_tag : keeps reader_le _read_tag.
Proof.
  unfold _read_tag. apply keeps_reader_bind; [eauto with reader | intros tag].
  destruct (TagType_of_value (Z.land tag 15)); intros r; apply reader_le_refl.
Qed.

Lemma total_read_tag : total _read_tag.
Proof.
  unfold _read_tag. apply total_bind; [eauto with reader | intros tag].
  destruct (TagType_of_value (Z.land tag 15)); eauto with reader.
Qed.

(** [_expect_tag] ends either behind the tag or, rewound, where it began. *)
Lemma keeps_expect_tag i t : keeps reader_le (_expect_tag i t).
Proof.
  intros r. unfold _expect_tag, bind. unfold on_stream at 1, zoom, tell. simpl.
  assert (E : set_stream (stream r) r = r) by (destruct r; reflexivity).
  rewrite E. pose proof (keeps_read_tag r) as [[HD HP] HB].
  destruct (_read_tag r) as [[[index tag_type] | e |] r1]; simpl in *;
    try (repeat split; assumption).
  destruct (negb (index =? i) || negb (TagType_eqb tag_type t)); simpl.
  - repeat split; simpl; [assumption | lia | assumption].
  - repeat split; assumption.
Qed.

Lemma total_expect_tag i t : total (_expect_tag i t).
Proof.
  unfold _expect_tag. apply total_bind; [apply total_on_stream; discriminate |].
  intros p. apply total_bind; [apply total_read_tag |]. intros [index tag_type].
  destruct (negb (index =? i) || negb (TagType_eqb tag_type t)).
  - apply total_bind; [apply total_on_stream; discriminate | intros; apply total_raise].
  - apply total_ret.
Qed.

#[local] Hint Resolve keeps_read_tag total_read_tag keeps_expect_tag
  total_expect_tag : reader.

(** The lookahead gives back the reader it was given, whatever it answers. *)
Lemma check_tag_restores i t r : snd (_check_tag i t r) = r.
Proof.
  unfold _check_tag.
  destruct (match bytes_remaining r with Some v => v <=? 0 | None => false end);
    [reflexivity |].
  unfold try_finally, try_except, bind.
  pose proof (keeps_read_tag r) as [[HD HP] HB].
  assert (Back : forall r1, data (stream r1) = data (stream r) ->
                   _block_end r1 = _block_end r ->
                   set_stream (seek_to (pos (stream r)) (stream r1)) r1 = r).
  { intros r1 D B. destruct r as [[d p] be], r1 as [[d1 p1] be1].
    simpl in *. subst. reflexivity. }
  destruct (_read_tag r) as [[[index tag_type] | [|] |] r1]; simpl in *; auto.
Qed.

(** The lookahead always answers, and never raises. *)
Lemma check_tag_answers i t r : exists b, fst (_check_tag i t r) = Ok b.
Proof.
  unfold _check_tag.
  destruct (match bytes_remaining r with Some v => v <=? 0 | None => false end);
    [eexists; reflexivity |].
  unfold try_finally, try_except, bind.
  pose proof (total_read_tag r) as T.
  destruct (_read_tag r) as [[[index tag_type] | [|] |] r1]; simpl in *;
    try (eexists; reflexivity).
  congruence.
Qed.

Lemma keeps_check_tag i t : keeps reader_le (_check_tag i t).
Proof. intros r. rewrite check_tag_restores. apply reader_le_refl. Qed.

Lemma total_check_tag i t : total (_check_tag i t).
Proof.
  intros r. destruct (check_tag_answers i t r) as [b E]. rewrite E. discriminate.
Qed.

#[local] Hint Resolve keeps_check_tag total_check_tag : reader.

Lemma keeps_read_int i : keeps reader_le (read_int i).
Proof. unfold read_int. apply keeps_reader_bind; intros; eauto with reader. Qed.

Lemma keeps_read_float i : keeps reader_le (read_float i).
Proof. unfold read_float. apply keeps_reader_bind; intros; eauto with reader. Qed.

Lemma keeps_read_double i : keeps reader_le (read_double i).
Proof. unfold read_double. apply keeps_reader_bind; intros; eauto with reader. Qed.

Lemma keeps_read_id i : keeps reader_le (read_id i).
Proof. unfold read_id. apply keeps_reader_bind; intros; eauto with reader. Qed.

Lemma keeps_read_subblock i : keeps reader_le (read_subblock i).
Proof. unfold read_subblock. apply keeps_reader_bind; intros; eauto with reader. Qed.

Lemma keeps_has_subblock i : keeps reader_le (has_subblock i).
Proof. apply keeps_check_tag. Qed.

Lemma total_read_int i : total (read_int i).
Proof. unfold read_int. apply total_bind; intros; eauto with reader. Qed.

Lemma total_read_float i : total (read_float i).
Proof. unfold read_float. apply total_bind; intros; eauto with reader. Qed.

Lemma total_read_double i : total (read_double i).
Proof. unfold read_double. apply total_bind; intros; eauto with reader. Qed.

Lemma total_read_id i : total (read_id i).
Proof. unfold read_id. apply total_bind; intros; eauto with reader. Qed.

Lemma total_read_subblock i : total (read_subblock i).
Proof. unfold read_subblock. apply total_bind; intros; eauto with reader. Qed.

Lemma total_has_subblock i : total (has_subblock i).
Proof. apply total_check_tag. Qed.

#[local] Hint Resolve keeps_read_int keeps_read_float keeps_read_double
  keeps_read_id keeps_read_subblock keeps_has_subblock total_read_int
  total_read_float total_read_double total_read_id total_read_subblock
  total_has_subblock : reader.

Lemma keeps_read_line_data : keeps reader_le read_line_data.
Proof.
  unfold read_line_data.
  repeat (apply keeps_reader_bind; [solve [eauto with reader] | intros ?]).
  intros r. apply reader_le_refl.
Qed.

Lemma total_read_line_data : total read_line_data.
Proof.
  unfold read_line_data.
  repeat (apply total_bind; [solve [eauto with reader] | intros ?]).
  apply total_ret.
Qed.

Lemma keeps_read_block_header : keeps reader_le read_block_header.
Proof.
  unfold read_block_header.
  apply keeps_reader_bind.
  - apply keeps_try_except; [exact reader_le_trans | | exact (keeps_ret _ reader_le_refl _)].
    apply keeps_reader_bind; [eauto with reader | intros l].
    exact (keeps_ret _ reader_le_refl _).
  - intros [l |]; [| intros r; apply reader_le_refl].
    repeat (apply keeps_reader_bind; [solve [eauto with reader] | intros ?]).
    intros r. apply reader_le_refl.
Qed.

Lemma total_read_block_header : total read_block_header.
Proof.
  unfold read_block_header.
  apply total_bind.
  - apply total_try_except; [| apply total_ret].
    apply total_bind; intros; eauto with reader.
  - intros [l |]; [| apply total_ret].
    repeat (apply total_bind; [solve [eauto with reader] | intros ?]).
    apply total_ret.
Qed.

#[local] Hint Resolve keeps_read_line_data total_read_line_data
  keeps_read_block_header total_read_block_header : reader.

(** ** Reading at the end of the file *)

Lemma file_read_full r n :
  0 <= pos r -> pos r + Z.of_nat n <= size r -> length (file_read r n) = n.
Proof.
  intros Hpos Hfit. unfold file_read, size in *.
  destruct (Z.leb_spec (Z.of_nat (length (data r))) (pos r)); simpl.
  - lia.
  - rewrite length_firstn, length_skipn. lia.
Qed.

Lemma file_read_short r n :
  (0 < n)%nat -> size r - pos r < Z.of_nat n ->
  (length (file_read r n) < n)%nat.
Proof.
  intros Hn Hshort. unfold file_read, size in *.
  destruct (Z.leb_spec (Z.of_nat (length (data r))) (pos r)); simpl.
  - lia.
  - rewrite length_firstn, length_skipn. lia.
Qed.

Lemma le_uint_nonneg bs : 0 <= le_uint bs.
Proof.
  induction bs as [| b rest IH]; cbn [le_uint]; [lia |].
  unfold byte_val. pose proof (N2Z.is_nonneg (Byte.to_N b)). lia.
Qed.

(** Inversion of a bind that ended well. *)
Lemma bind_ok {St A B} (m : M St A) (k : A -> M St B) s b s' :
  bind m k s = (Ok b, s') ->
  exists a s1, m s = (Ok a, s1) /\ k a s1 = (Ok b, s').
Proof.
  unfold bind. destruct (m s) as [[a | e |] s1]; intros H; try discriminate.
  exists a, s1. split; [reflexivity | exact H].
Qed.

Lemma on_stream_read_bytes_ok n r bs r' :
  on_stream (read_bytes n) r = (Ok bs, r') ->
  r' = set_stream (advance (stream r) (Z.of_nat n)) r /\
  bs = file_read (stream r) n /\ length bs = n.
Proof.
  unfold on_stream, zoom.
  destruct (read_bytes_spec n (stream r)) as [[L E] | [L E]]; rewrite E;
    intros H; inversion H; subst; clear H.
  repeat split; auto.
Qed.

Lemma on_stream_read_uint8_ok r v r' :
  on_stream read_uint8 r = (Ok v, r') ->
  r' = set_stream (advance (stream r) 1) r /\
  pos (stream r) < size (stream r).
Proof.
  unfold on_stream, zoom.
  destruct (read_uint8_spec (stream r)) as [(b & _ & Hlt & E) | (_ & E)];
    rewrite E; intros H; inversion H; subst; clear H.
  split; [reflexivity | exact Hlt].
Qed.

Lemma on_stream_read_uint32_ok r v r' :
  on_stream read_uint32 r = (Ok v, r') ->
  r' = set_stream (advance (stream r) 4) r /\
  pos (stream r) < size (stream r) /\ 0 <= v.
Proof.
  unfold on_stream, zoom, read_uint32, bind.
  destruct (read_bytes_spec 4 (stream r)) as [[L E] | [L E]]; rewrite E;
    simpl; intros H; inversion H; subst; clear H.
  split; [reflexivity |]. split; [| apply le_uint_nonneg].
  unfold file_read in L.
  destruct (Z.leb_spec (size (stream r)) (pos (stream r))); simpl in L; lia.
Qed.

(** With fewer than four bytes left, the length of a block header cannot be
    read. *)
Lemma on_stream_read_uint32_eof r :
  size (stream r) - pos (stream r) < 4 ->
  exists s', on_stream read_uint32 r = (Raise EOFError, set_stream s' r).
Proof.
  intros Hshort. unfold on_stream, zoom, read_uint32, bind.
  destruct (read_bytes_spec 4 (stream r)) as [[L E] | [L E]]; rewrite E.
  - pose proof (file_read_short (stream r) 4). lia.
  - eexists. reflexivity.
Qed.

(** A block header that was read took eight bytes, and announces a length
    that is not negative. *)
Lemma read_block_header_some r block_type len min_version current_version r' :
  read_block_header r
    = (Ok (Some (block_type, len, min_version, current_version)), r') ->
  r' = set_stream (advance (stream r) 8) r /\
  pos (stream r) < size (stream r) /\ 0 <= len.
Proof.
  unfold read_block_header. intros H.
  apply bind_ok in H as (olen & r1 & H1 & H).
  unfold try_except, bind in H1.
  destruct (on_stream read_uint32 r) as [[l | [|] |] r0] eqn:E32;
    simpl in H1; inversion H1; subst; clear H1.
  2: { unfold ret in H. discriminate H. }
  apply on_stream_read_uint32_ok in E32 as (-> & Hlt & Hlen).
  apply bind_ok in H as (u & r2 & E1 & H).
  apply bind_ok in H as (mv & r3 & E2 & H).
  apply bind_ok in H as (cv & r4 & E3 & H).
  apply bind_ok in H as (bt & r5 & E4 & H).
  apply on_stream_read_uint8_ok in E1 as (-> & _).
  apply on_stream_read_uint8_ok in E2 as (-> & _).
  apply on_stream_read_uint8_ok in E3 as (-> & _).
  apply on_stream_read_uint8_ok in E4 as (-> & _).
  inversion H; subst; clear H.
  repeat split; try assumption.
  destruct r as [[d p] be]. unfold set_stream, advance. simpl.
  do 2 f_equal. lia.
Qed.

Lemma read_block_header_eof r :
  size (stream r) - pos (stream r) < 4 ->
  exists s', read_block_header r = (Ok None, set_stream s' r).
Proof.
  intros Hshort. unfold read_block_header, bind, try_except.
  destruct (on_stream_read_uint32_eof r Hshort) as [s' E].
  unfold bind in E |- *. rewrite E. simpl. exists s'. reflexivity.
Qed.

(** ** The document parser *)

Definition parse_le (st st' : ParseState) : Prop :=
  reader_le (reader st) (reader st').

Definition same_layer (st st' : ParseState) : Prop :=
  default_layer st' = default_layer st.

Lemma parse_le_refl st : parse_le st st.
Proof. apply reader_le_refl. Qed.

Lemma parse_le_trans a b c : parse_le a b -> parse_le b c -> parse_le a c.
Proof. apply reader_le_trans. Qed.

Lemma same_layer_trans a b c : same_layer a b -> same_layer b c -> same_layer a c.
Proof. unfold same_layer. congruence. Qed.

Lemma keeps_on_reader {A} (m : M TaggedBlockReader A) :
  keeps reader_le m -> keeps parse_le (on_reader m).
Proof. apply keeps_zoom. intros t s' H. exact H. Qed.

Lemma on_reader_same_layer {A} (m : M TaggedBlockReader A) :
  keeps same_layer (on_reader m).
Proof.
  intros st. unfold on_reader, zoom. destruct (m (reader st)). reflexivity.
Qed.

Lemma total_on_reader {A} (m : M TaggedBlockReader A) : total m -> total (on_reader m).
Proof. apply total_zoom. Qed.

Lemma keeps_parse_bind {A B} (m : M ParseState A) (k : A -> M ParseState B) :
  keeps parse_le m -> (forall a, keeps parse_le (k a)) -> keeps parse_le (bind m k).
Proof. apply keeps_bind. exact parse_le_trans. Qed.

Lemma keeps_append_stroke s : keeps parse_le (append_stroke s).
Proof. intros st. apply reader_le_refl. Qed.

#[local] Hint Resolve parse_le_refl keeps_on_reader total_on_reader
  keeps_parse_bind keeps_append_stroke : reader.

(** [keeps_unless_ok R m]: when [m] does not end well, the state it ends in is
    related by [R] to the one it started in. *)
Definition keeps_unless_ok {St A} (R : St -> St -> Prop) (m : M St A) : Prop :=
  forall s, (forall a, fst (m s) <> Ok a) -> R s (snd (m s)).

Lemma unless_ok_ret {St A} (R : St -> St -> Prop) (a : A) :
  keeps_unless_ok R (@ret St A a).
Proof. intros s H. exfalso. apply (H a). reflexivity. Qed.

Lemma unless_ok_bind {St A B} (R : St -> St -> Prop)
    (m : M St A) (k : A -> M St B) :
  (forall a b c, R a b -> R b c -> R a c) ->
  keeps R m -> (forall a, keeps_unless_ok R (k a)) ->
  keeps_unless_ok R (bind m k).
Proof.
  intros Tr Hm Hk s. unfold bind. specialize (Hm s).
  destruct (m s) as [[a | e |] s1]; simpl in *; intros H; auto.
  eapply Tr; [exact Hm | apply Hk; exact H].
Qed.

(** The stroke is appended by the last statement of the [try] body: when the
    body raises, the layer is the one it started with. *)
Lemma line_item_body_unless_ok : keeps_unless_ok same_layer line_item_body.
Proof.
  unfold line_item_body.
  do 5 (apply unless_ok_bind;
        [exact same_layer_trans | apply on_reader_same_layer | intros ?]).
  destruct (a3 >? 0); [apply unless_ok_ret |].
  apply unless_ok_bind;
    [exact same_layer_trans | apply on_reader_same_layer | intros has].
  destruct has; [| apply unless_ok_ret].
  do 2 (apply unless_ok_bind;
        [exact same_layer_trans | apply on_reader_same_layer | intros ?]).
  destruct (a5 =? 3); [| apply unless_ok_ret].
  apply unless_ok_bind;
    [exact same_layer_trans | apply on_reader_same_layer | intros stroke].
  destruct stroke as [s |]; [| apply unless_ok_ret].
  destruct (points s); [apply unless_ok_ret |].
  intros st H. exfalso. apply (H Completed). reflexivity.
Qed.

Lemma keeps_line_item_body : keeps parse_le line_item_body.
Proof.
  unfold line_item_body.
  do 5 (apply keeps_parse_bind; [solve [eauto with reader] | intros ?]).
  destruct (a3 >? 0); [intros st; apply parse_le_refl |].
  apply keeps_parse_bind; [solve [eauto with reader] | intros has].
  destruct has; [| intros st; apply parse_le_refl].
  do 2 (apply keeps_parse_bind; [solve [eauto with reader] | intros ?]).
  destruct (a5 =? 3); [| intros st; apply parse_le_refl].
  apply keeps_parse_bind; [solve [eauto with reader] | intros stroke].
  destruct stroke as [s |]; [| intros st; apply parse_le_refl].
  destruct (points s); [intros st; apply parse_le_refl |].
  apply keeps_parse_bind; [apply keeps_append_stroke |].
  intros _ st. apply parse_le_refl.
Qed.

Lemma total_line_item_body : total line_item_body.
Proof.
  unfold line_item_body.
  do 5 (apply total_bind; [solve [eauto with reader] | intros ?]).
  destruct (a3 >? 0); [apply total_ret |].
  apply total_bind; [solve [eauto with reader] | intros has].
  destruct has; [| apply total_ret].
  do 2 (apply total_bind; [solve [eauto with reader] | intros ?]).
  destruct (a5 =? 3); [| apply total_ret].
  apply total_bind; [solve [eauto with reader] | intros stroke].
  destruct stroke as [s |]; [| apply total_ret].
  destruct (points s); [apply total_ret |].
  apply total_bind; [discriminate | intros; apply total_ret].
Qed.

(** [reader.stream.seek(p)] on the state of the parser. *)
Definition seek_state (p : Z) (st : ParseState) : ParseState :=
  set_reader (set_stream (seek_to p (stream (reader st))) (reader st)) st.

Definition cursor (st : ParseState) : Z := pos (stream (reader st)).

Lemma on_reader_tell st : on_reader (on_stream tell) st = (Ok (cursor st), st).
Proof. destruct st as [[[d p] be] layer]. reflexivity. Qed.

(** One iteration of the loop, case by case. *)
Lemma parse_block_cases st :
  match on_reader read_block_header st with
  | (Ok None, st1) => parse_block st = (Ok Break, st1)
  | (Ok (Some (block_type, len, _, _)), st1) =>
      let block_end := cursor st1 + len in
      if block_type =? BlockType_value LineItem then
        match line_item_body st1 with
        | (Ok Continue, st2) => parse_block st = (Ok Next, st2)
        | (Ok Completed, st2) => parse_block st = (Ok Next, seek_state block_end st2)
        | (Raise _, st2) => parse_block st = (Ok Next, seek_state block_end st2)
        | (OutOfFuel, st2) => parse_block st = (OutOfFuel, st2)
        end
      else parse_block st = (Ok Next, seek_state block_end st1)
  | (Raise e, st1) => parse_block st = (Raise e, st1)
  | (OutOfFuel, st1) => parse_block st = (OutOfFuel, st1)
  end.
Proof.
  unfold parse_block, bind.
  destruct (on_reader read_block_header st)
    as [[[[[[block_type len] min_version] current_version] |] | e |] st1];
    try reflexivity.
  rewrite on_reader_tell.
  destruct (block_type =? BlockType_value LineItem); [| reflexivity].
  unfold try_except.
  destruct (line_item_body st1) as [[[|] | e |] st2]; reflexivity.
Qed.

Definition file_of (st : ParseState) : list byte := data (stream (reader st)).

Definition file_size (st : ParseState) : Z := size (stream (reader st)).

Lemma header_read st block_type len min_version current_version st1 :
  on_reader read_block_header st
    = (Ok (Some (block_type, len, min_version, current_version)), st1) ->
  cursor st1 = cursor st + 8 /\ file_of st1 = file_of st /\
  default_layer st1 = default_layer st /\ cursor st < file_size st /\ 0 <= len.
Proof.
  unfold on_reader, zoom. intros H.
  destruct (read_block_header (reader st)) as [o r1] eqn:E.
  inversion H; subst; clear H.
  apply read_block_header_some in E as (-> & Hlt & Hlen).
  unfold cursor, file_of, file_size. simpl. repeat split; auto.
Qed.

Lemma total_parse_block : total parse_block.
Proof.
  intros st. pose proof (parse_block_cases st) as C.
  pose proof (total_on_reader _ total_read_block_header st) as T.
  destruct (on_reader read_block_header st)
    as [[[[[[block_type len] min_version] current_version] |] | e |] st1];
    simpl in T; try (rewrite C; discriminate); try congruence.
  cbv zeta in C.
  destruct (block_type =? BlockType_value LineItem);
    [| rewrite C; discriminate].
  pose proof (total_line_item_body st1) as TB.
  destruct (line_item_body st1) as [[[|] | e |] st2]; simpl in TB;
    try (rewrite C; discriminate); congruence.
Qed.

(** An iteration that goes on to the next one has moved the cursor forward by
    a block header at least, inside the file. *)
Lemma parse_block_next st st' :
  parse_block st = (Ok Next, st') ->
  file_of st' = file_of st /\ cursor st + 8 <= cursor st' /\
  cursor st < file_size st.
Proof.
  intros H. pose proof (parse_block_cases st) as C.
  destruct (on_reader read_block_header st)
    as [[[[[[block_type len] min_version] current_version] |] | e |] st1] eqn:EH;
    try (rewrite C in H; discriminate).
  apply header_read in EH as (Hc & Hf & _ & Hlt & Hlen).
  cbv zeta in C.
  destruct (block_type =? BlockType_value LineItem).
  - pose proof (keeps_line_item_body st1) as [[KD KP] _].
    destruct (line_item_body st1) as [[[|] | e |] st2]; simpl in KD, KP;
      rewrite C in H; inversion H; subst; clear H;
      unfold file_of, cursor, seek_state in *; simpl; repeat split;
      try congruence; lia.
  - rewrite C in H; inversion H; subst; clear H.
    unfold file_of, cursor, seek_state in *; simpl; repeat split;
      try congruence; lia.
Qed.

(** The loop never runs out of fuel when it starts with more fuel than there
    are bytes left. *)
Lemma parse_loop_total fuel : forall st,
  (Z.to_nat (file_size st - cursor st) < fuel)%nat ->
  fst (parse_loop fuel st) <> OutOfFuel.
Proof.
  induction fuel as [| fuel IH]; intros st Hfuel; [lia |].
  simpl. unfold bind.
  pose proof (total_parse_block st) as T.
  destruct (parse_block st) as [[[|] | e |] st'] eqn:E; simpl in T;
    try discriminate; try congruence.
  apply parse_block_next in E as (Hf & Hc & Hlt).
  apply IH. unfold file_size, file_of, size in *. rewrite Hf. lia.
Qed.

Lemma keeps_read_header : keeps reader_le read_header.
Proof.
  unfold read_header. apply keeps_reader_bind; [eauto with reader | intros h].
  destruct (list_eq_dec byte_eq_dec h HEADER_V6); intros r; apply reader_le_refl.
Qed.

Lemma total_read_header : total read_header.
Proof.
  unfold read_header. apply total_bind; [eauto with reader | intros h].
  destruct (list_eq_dec byte_eq_dec h HEADER_V6); eauto with reader.
Qed.

(** [parse_file] returns a document or raises: the fuel it runs on is never
    used up. *)
Lemma parse_file_never_out_of_fuel content : parse_file content <> OutOfFuel.
Proof.
  unfold parse_file, bind.
  pose proof (total_on_reader _ total_read_header (parse_init content)) as T.
  pose proof (keeps_on_reader _ keeps_read_header (parse_init content))
    as [[KD KP] _].
  destruct (on_reader read_header (parse_init content)) as [[[] | e |] st1];
    cbn [fst snd] in *; cbv beta iota; try discriminate; try congruence.
  pose proof (parse_loop_total (parse_fuel content) st1) as L.
  destruct (parse_loop (parse_fuel content) st1) as [[[] | e |] st2];
    cbn [fst snd] in *; try discriminate.
  exfalso. apply L; [| reflexivity].
  simpl in KD, KP. unfold parse_fuel, file_size, cursor, size. rewrite KD. lia.
Qed.

(** ** Claims about the binary stream reader *)

(** The top bit of a byte of a varuint: more bytes follow. *)
Definition continues (b : byte) : bool := negb (Z.land (byte_val b) 0x80 =? 0).

(** The value of a varuint: the low seven bits of each byte, the first byte
    lowest, or-ed together. *)
Fixpoint varuint_value (bs : list byte) (shift : Z) : Z :=
  match bs with
  | [] => 0
  | b :: rest =>
      Z.lor (Z.shiftl (Z.land (byte_val b) 0x7F) shift)
            (varuint_value rest (shift + 7))
  end.

(** The bytes from the cursor to the end of the file. *)
Definition unread (r : BinaryReader) : list byte :=
  skipn (Z.to_nat (pos r)) (data r).

Lemma read_uint8_next r b rest :
  0 <= pos r -> unread r = b :: rest ->
  read_uint8 r = (Ok (byte_val b), advance r 1) /\ unread (advance r 1) = rest.
Proof.
  unfold unread. intros Hpos Hun.
  assert (Hlen : (Z.to_nat (pos r) < length (data r))%nat).
  { apply (f_equal (@length byte)) in Hun. rewrite length_skipn in Hun.
    simpl in Hun. lia. }
  split.
  - destruct (read_uint8_spec r) as [(c & F & _ & E) | (F & _)].
    + unfold file_read in F. rewrite Hun in F.
      destruct (size r <=? pos r); [discriminate |].
      simpl in F. inversion F; subst. exact E.
    + unfold file_read, size in F.
      destruct (Z.leb_spec (Z.of_nat (length (data r))) (pos r)); [lia |].
      rewrite Hun in F. discriminate.
  - simpl. replace (Z.to_nat (pos r + 1)) with (1 + Z.to_nat (pos r))%nat by lia.
    rewrite <- skipn_skipn, Hun. reflexivity.
Qed.

Lemma read_uint8_at_end r :
  unread r = [] -> read_uint8 r = (Raise EOFError, advance r 0).
Proof.
  unfold unread. intros Hun.
  destruct (read_uint8_spec r) as [(c & F & _ & _) | (_ & E)]; [| exact E].
  unfold file_read in F. rewrite Hun in F.
  destruct (size r <=? pos r); discriminate.
Qed.

(** The loop on a terminated sequence: every byte is taken, however many. *)
Lemma read_varuint_loop_terminated cs : forall t rest fuel result shift r,
  0 <= pos r -> unread r = cs ++ t :: rest ->
  Forall (fun b => continues b = true) cs -> continues t = false ->
  (length cs < fuel)%nat ->
  read_varuint_loop fuel result shift r
    = (Ok (Z.lor result (varuint_value (cs ++ [t]) shift)),
       advance r (Z.of_nat (length cs) + 1)).
Proof.
  induction cs as [| c cs IH]; intros t rest fuel result shift r Hpos Hun Hcs Ht Hfuel;
    (destruct fuel as [| fuel]; [simpl in Hfuel; lia |]);
    cbn [read_varuint_loop]; unfold bind.
  - destruct (read_uint8_next r t rest Hpos Hun) as [E _]. rewrite E.
    unfold continues in Ht. apply negb_false_iff in Ht. rewrite Ht.
    cbn [varuint_value app length]. rewrite Z.lor_0_r. reflexivity.
  - destruct (read_uint8_next r c (cs ++ t :: rest) Hpos Hun) as [E Hun']. rewrite E.
    inversion Hcs as [| ? ? Hc Hcs']; subst.
    unfold continues in Hc. apply negb_true_iff in Hc. rewrite Hc.
    rewrite (IH t rest fuel _ _ (advance r 1)); auto.
    + cbn [varuint_value app length]. rewrite Z.lor_assoc.
      f_equal. unfold advance. simpl. f_equal. lia.
    + simpl. lia.
    + simpl in Hfuel. lia.
Qed.

(** The loop on a sequence that the end of the file cuts off. *)
Lemma read_varuint_loop_unterminated cs : forall fuel result shift r,
  0 <= pos r -> unread r = cs ->
  Forall (fun b => continues b = true) cs ->
  (length cs < fuel)%nat ->
  exists r', read_varuint_loop fuel result shift r = (Raise EOFError, r') /\
             data r' = data r /\ pos r' = pos r + Z.of_nat (length cs).
Proof.
  induction cs as [| c cs IH]; intros fuel result shift r Hpos Hun Hcs Hfuel;
    (destruct fuel as [| fuel]; [simpl in Hfuel; lia |]);
    cbn [read_varuint_loop]; unfold bind.
  - rewrite (read_uint8_at_end r Hun). eexists. split; [reflexivity |].
    simpl. split; [reflexivity | lia].
  - destruct (read_uint8_next r c cs Hpos Hun) as [E Hun']. rewrite E.
    inversion Hcs as [| ? ? Hc Hcs']; subst.
    unfold continues in Hc. apply negb_true_iff in Hc. rewrite Hc.
    destruct (IH fuel (Z.lor result (Z.shiftl (Z.land (byte_val c) 127) shift))
                 (shift + 7) (advance r 1)) as (r' & E' & D' & P'); auto.
    + simpl. lia.
    + simpl in Hfuel. lia.
    + exists r'. split; [exact E' |]. simpl in *. split; [exact D' | lia].
Qed.

Lemma unread_length r : 0 <= pos r ->
  Z.of_nat (length (unread r)) = Z.max 0 (size r - pos r).
Proof.
  intros Hpos. unfold unread, size. rewrite length_skipn. lia.
Qed.

(** C9, as the code has it.  [read_varuint] has no cap on the length of a
    sequence.  From a cursor followed by any number of bytes with the
    continuation bit set and then one with the bit clear, it reads them all and
    returns their value; it fails, with [EOFError], when the file ends before a
    byte with the bit clear, having read to the end of the file. *)
Theorem read_varuint_has_no_length_cap r cs :
  0 <= pos r -> Forall (fun b => continues b = true) cs ->
  (forall t rest, unread r = cs ++ t :: rest -> continues t = false ->
     read_varuint r
       = (Ok (varuint_value (cs ++ [t]) 0),
          advance r (Z.of_nat (length cs) + 1))) /\
  (unread r = cs ->
     exists r', read_varuint r = (Raise EOFError, r') /\
                data r' = data r /\ pos r' = pos r + Z.of_nat (length cs)).
Proof.
  intros Hpos Hcs. split.
  - intros t rest Hun Ht. unfold read_varuint.
    rewrite (read_varuint_loop_terminated cs t rest); auto.
    unfold varuint_fuel. pose proof (unread_length r Hpos) as L.
    rewrite Hun, length_app in L. simpl in L. lia.
  - intros Hun. unfold read_varuint.
    apply read_varuint_loop_unterminated; auto.
    unfold varuint_fuel. pose proof (unread_length r Hpos) as L.
    rewrite Hun in L. lia.
Qed.

(** Ten bytes with the continuation bit set, then a byte with the bit clear. *)
Definition eleven_byte_varuint : BinaryReader :=
  {| data := repeat x80 10 ++ [x01]; pos := 0 |}.

Lemma read_varuint_has_no_length_cap_witness :
  read_varuint eleven_byte_varuint
    = (Ok (varuint_value (repeat x80 10 ++ [x01]) 0),
       advance eleven_byte_varuint (Z.of_nat (length (repeat x80 10)) + 1)).
Proof.
  apply (proj1 (read_varuint_has_no_length_cap eleven_byte_varuint
                  (repeat x80 10) ltac:(simpl; lia)
                  ltac:(repeat constructor)) x01 []);
    reflexivity.
Defined.

(** C9, as the claim states it, fails: eleven bytes are consumed before the
    terminator, and the read succeeds, with the value [2^70]. *)
Lemma read_varuint_accepts_eleven_bytes :
  read_varuint eleven_byte_varuint
    = (Ok (2 ^ 70), {| data := data eleven_byte_varuint; pos := 11 |}).
Proof. vm_compute. reflexivity. Qed.

(** ** Claims about the tagged block reader *)

(** The reader of [parse_file] once [k] bytes of [content] are behind it. *)
Definition reader_at (content : list byte) (k : Z) : TaggedBlockReader :=
  {| stream := {| data := content; pos := k |}; _block_end := None |}.

Lemma read_header_run content :
  read_header (TaggedBlockReader_init content)
  = if (length content <? 43)%nat
    then (Raise EOFError, reader_at content (Z.of_nat (length content)))
    else if list_eq_dec byte_eq_dec (firstn 43 content) HEADER_V6
         then (Ok tt, reader_at content 43)
         else (Raise ValueError, reader_at content 43).
Proof.
  unfold read_header, bind, on_stream, zoom, TaggedBlockReader_init.
  cbn [stream]. change (length HEADER_V6) with 43%nat.
  set (r := {| data := content; pos := 0 |}).
  assert (F : file_read r 43 = firstn 43 content).
  { unfold file_read, size, r. simpl.
    destruct (Z.leb_spec (Z.of_nat (length content)) 0); [| reflexivity].
    destruct content; [reflexivity | simpl in *; lia]. }
  destruct (read_bytes_spec 43 r) as [[L E] | [L E]]; rewrite E; rewrite F in *;
    rewrite length_firstn in L.
  - destruct (Nat.ltb_spec (length content) 43); [lia |].
    destruct (list_eq_dec byte_eq_dec (firstn 43 content) HEADER_V6); reflexivity.
  - destruct (Nat.ltb_spec (length content) 43); [| lia].
    rewrite length_firstn.
    unfold reader_at, set_stream, advance, r. cbn [data pos _block_end].
    do 3 f_equal. lia.
Qed.

Lemma read_header_accepts rest :
  read_header (TaggedBlockReader_init (HEADER_V6 ++ rest))
    = (Ok tt, reader_at (HEADER_V6 ++ rest) 43).
Proof.
  rewrite read_header_run.
  assert (L : (length (HEADER_V6 ++ rest) <? 43)%nat = false).
  { apply Nat.ltb_ge. rewrite length_app.
    change (length HEADER_V6) with 43%nat. lia. }
  rewrite L.
  assert (F : firstn 43 (HEADER_V6 ++ rest) = HEADER_V6) by reflexivity.
  rewrite F.
  destruct (list_eq_dec byte_eq_dec HEADER_V6 HEADER_V6);
    [reflexivity | congruence].
Qed.

(** C2, as the code has it.  [HEADER_V6] is 43 bytes long: the 33 characters
    of ["reMarkable .lines file, version=6"] and ten spaces.  On a file that
    begins with it [read_header] succeeds with the cursor at 43; on a file of
    43 bytes or more that begins otherwise it raises [ValueError], with the
    cursor at 43 as well. *)
Theorem read_header_takes_43_bytes :
  length HEADER_V6 = 43%nat /\
  HEADER_V6
    = list_byte_of_string "reMarkable .lines file, version=6" ++ repeat x20 10 /\
  (forall rest,
     read_header (TaggedBlockReader_init (HEADER_V6 ++ rest))
       = (Ok tt, reader_at (HEADER_V6 ++ rest) 43)) /\
  (forall content,
     (43 <= length content)%nat -> firstn 43 content <> HEADER_V6 ->
     read_header (TaggedBlockReader_init content)
       = (Raise ValueError, reader_at content 43)).
Proof.
  split; [reflexivity |]. split; [reflexivity |]. split.
  - apply read_header_accepts.
  - intros content Hlen Hne. rewrite read_header_run.
    destruct (Nat.ltb_spec (length content) 43); [lia |].
    destruct (list_eq_dec byte_eq_dec (firstn 43 content) HEADER_V6);
      [congruence | reflexivity].
Qed.

(** A file of 44 zero bytes is refused. *)
Lemma read_header_takes_43_bytes_witness :
  read_header (TaggedBlockReader_init (repeat x00 44))
    = (Raise ValueError, reader_at (repeat x00 44) 43).
Proof.
  apply (proj2 (proj2 (proj2 read_header_takes_43_bytes)) (repeat x00 44)).
  - simpl. lia.
  - discriminate.
Defined.

(** C2, as the claim states it, fails.  On the string padded with spaces to
    44 bytes [read_header] consumes 43 bytes, not 44: the first block header
    is read from offset 43.  And on the 43 bytes of [HEADER_V6] followed by a
    zero byte, a 44-byte prefix other than that string, it raises nothing. *)
Lemma read_header_stops_at_43 :
  read_header (TaggedBlockReader_init (HEADER_V6 ++ [x20]))
    = (Ok tt, reader_at (HEADER_V6 ++ [x20]) 43) /\
  read_header (TaggedBlockReader_init (HEADER_V6 ++ [x00]))
    = (Ok tt, reader_at (HEADER_V6 ++ [x00]) 43).
Proof. split; vm_compute; reflexivity. Qed.

(** C8.  [_check_tag], and so [has_subblock], gives the reader back as it
    was, cursor included; it always answers, never raises; and the answer is
    [False] when [_block_end] is set and the cursor is at or past it, and when
    [_read_tag] raises. *)
Theorem check_tag_is_a_lookahead r i t :
  snd (_check_tag i t r) = r /\
  pos (stream (snd (has_subblock i r))) = pos (stream r) /\
  (exists b, fst (_check_tag i t r) = Ok b) /\
  (forall e, _block_end r = Some e -> e <= pos (stream r) ->
     fst (_check_tag i t r) = Ok false) /\
  (forall e r', _read_tag r = (Raise e, r') ->
     fst (_check_tag i t r) = Ok false).
Proof.
  split; [apply check_tag_restores |].
  split; [unfold has_subblock; rewrite check_tag_restores; reflexivity |].
  split; [apply check_tag_answers |]. split.
  - intros e Hend Hpast. unfold _check_tag, bytes_remaining. rewrite Hend.
    destruct (Z.leb_spec (e - pos (stream r)) 0); [reflexivity | lia].
  - intros e r' Hraise. unfold _check_tag.
    destruct (match bytes_remaining r with Some v => v <=? 0 | None => false end);
      [reflexivity |].
    unfold try_finally, try_except, bind. rewrite Hraise.
    destruct e; reflexivity.
Qed.

(** A reader inside a block that ends at offset 2, with its cursor there, in
    front of the tag of a subblock of index 6. *)
Definition reader_at_block_end : TaggedBlockReader :=
  {| stream := {| data := bytes_of_ints [0; 0; tag_byte 6 Length4]; pos := 2 |};
     _block_end := Some 2 |}.

Lemma check_tag_is_a_lookahead_witness :
  fst (_check_tag 6 Length4 reader_at_block_end) = Ok false.
Proof.
  apply (proj1 (proj2 (proj2 (proj2
           (check_tag_is_a_lookahead reader_at_block_end 6 Length4)))) 2).
  - reflexivity.
  - simpl. lia.
Defined.

(** ** Claims about the document parser *)

Definition layer_1 : Layer :=
  {| name := "Layer 1"; visible := true; strokes := [] |}.

(** The state of [parse_file] on [content] with [k] bytes behind it and no
    stroke read yet. *)
Definition state_at (content : list byte) (k : Z) : ParseState :=
  {| reader := reader_at content k; default_layer := layer_1 |}.

Lemma after_header_valid rest :
  on_reader read_header (parse_init (HEADER_V6 ++ rest))
    = (Ok tt, state_at (HEADER_V6 ++ rest) 43).
Proof.
  unfold on_reader, zoom, parse_init. cbn [reader].
  rewrite read_header_accepts. reflexivity.
Qed.

Lemma parse_block_at_eof st :
  file_size st - cursor st < 4 ->
  exists st', parse_block st = (Ok Break, st') /\
              default_layer st' = default_layer st.
Proof.
  intros Hshort. pose proof (parse_block_cases st) as C.
  destruct (read_block_header_eof (reader st) Hshort) as [s' E].
  unfold on_reader, zoom in C. rewrite E in C.
  eexists. split; [exact C | reflexivity].
Qed.

(** C4, as the code has it.  When fewer than four bytes are left where a
    block header should start, so that the file ends inside the length field
    of the header (or right before it), the loop of [parse_file] ends
    normally and the layer is the one built so far.  So a file that is the
    header and at most three more bytes parses to the document with the one
    empty layer. *)
Theorem eof_inside_length_field_ends_the_loop :
  (forall st fuel,
     file_size st - cursor st < 4 ->
     exists st', parse_loop (S fuel) st = (Ok tt, st') /\
                 default_layer st' = default_layer st) /\
  (forall tail,
     (length tail < 4)%nat ->
     parse_file (HEADER_V6 ++ tail) = Ok {| layers := [layer_1] |}).
Proof.
  assert (A : forall st fuel,
            file_size st - cursor st < 4 ->
            exists st', parse_loop (S fuel) st = (Ok tt, st') /\
                        default_layer st' = default_layer st).
  { intros st fuel Hshort.
    destruct (parse_block_at_eof st Hshort) as (st' & E & L).
    exists st'. split; [| exact L].
    cbn [parse_loop]. unfold bind. rewrite E. reflexivity. }
  split; [exact A |].
  intros tail Htail. unfold parse_file, bind. rewrite after_header_valid.
  destruct (A (state_at (HEADER_V6 ++ tail) 43) (length (HEADER_V6 ++ tail)))
    as (st' & E & L).
  - unfold file_size, cursor, size, state_at, reader_at. cbn [reader stream data pos].
    rewrite length_app. change (length HEADER_V6) with 43%nat. lia.
  - unfold parse_fuel. rewrite E. unfold document_of. rewrite L. reflexivity.
Qed.

(** The header and three bytes of a block header. *)
Lemma eof_inside_length_field_ends_the_loop_witness :
  parse_file (HEADER_V6 ++ repeat x00 3) = Ok {| layers := [layer_1] |}.
Proof.
  apply (proj2 eof_inside_length_field_ends_the_loop (repeat x00 3)).
  simpl. lia.
Defined.

(** C4, as the claim states it, fails: a file that ends five bytes into a
    block header, behind the length field, makes [parse_file] raise. *)
Lemma eof_behind_length_field_raises :
  parse_file (HEADER_V6 ++ repeat x00 5) = Raise EOFError.
Proof. vm_compute. reflexivity. Qed.

(** C5.  When the [try] body of a [LineItem] block raises, whatever the
    exception, the iteration ends normally: the layer is the one the
    iteration started with, the cursor is at the end of the block (eight
    bytes of header and [len] bytes of payload behind the start of the
    block), and the loop goes on from there. *)
Theorem line_item_error_is_skipped st len min_version current_version st1 e st2 :
  on_reader read_block_header st
    = (Ok (Some (BlockType_value LineItem, len, min_version, current_version)),
       st1) ->
  line_item_body st1 = (Raise e, st2) ->
  let st' := seek_state (cursor st + 8 + len) st2 in
  parse_block st = (Ok Next, st') /\
  default_layer st' = default_layer st /\
  cursor st' = cursor st + 8 + len /\
  file_of st' = file_of st /\
  forall fuel, parse_loop (S fuel) st = parse_loop fuel st'.
Proof.
  intros EH EB st'.
  pose proof (parse_block_cases st) as C. rewrite EH in C. cbv zeta in C.
  rewrite Z.eqb_refl, EB in C.
  pose proof (header_read _ _ _ _ _ _ EH) as (Hc & Hf & Hl & _ & _).
  rewrite Hc in C. fold st' in C.
  pose proof (line_item_body_unless_ok st1) as U. rewrite EB in U.
  pose proof (keeps_line_item_body st1) as [[KD _] _]. rewrite EB in KD.
  split; [exact C |]. split; [| split; [reflexivity | split]].
  - unfold st', seek_state. cbn [default_layer set_reader].
    rewrite <- Hl. apply U. intros a. discriminate.
  - unfold st', seek_state, file_of in *. simpl in *. congruence.
  - intros fuel. cbn [parse_loop]. unfold bind. rewrite C. reflexivity.
Qed.

(** A block whose first tag is not the expected one, in front of a block with
    a stroke. *)
Lemma line_item_error_is_skipped_witness :
  let st := after_header (HEADER_V6 ++ bad_tag_block ++ dot_block) in
  fst (parse_block st) = Ok Next /\
  default_layer (snd (parse_block st)) = layer_1 /\
  cursor (snd (parse_block st)) = 54.
Proof.
  intros st.
  destruct (line_item_error_is_skipped st 3 1 1 (seek_state 51 st) ValueError
              (seek_state 51 st) eq_refl eq_refl) as (E & L & C & _).
  rewrite E. cbn [fst snd]. split; [reflexivity |]. split; [| exact C].
  rewrite L. reflexivity.
Defined.

(** C1 fails on a deleted item.  In this file the first block is a
    [LineItem] block at offset 43 with a length field of 69 and
    [deleted_length = 1].  The iteration that reads it leaves the cursor at 68,
    behind [deleted_length], not at [43 + 8 + 69 = 120]: the next block header
    is read from the bytes of the value subblock, as a block of type 2 and of
    length 12140, and the stroke of the block that follows, which is parsed
    when that block stands alone, is lost. *)
Theorem tombstone_block_is_not_skipped_to_its_end :
  let content := HEADER_V6 ++ tombstone_block ++ dot_block in
  let st := after_header content in
  cursor st = 43 /\
  fst (on_reader read_block_header st) = Ok (Some (5, 69, 1, 1)) /\
  fst (parse_block st) = Ok Next /\
  cursor (snd (parse_block st)) = 68 /\
  fst (on_reader read_block_header (snd (parse_block st)))
    = Ok (Some (2, 12140, 3, 20)) /\
  parse_file content = Ok {| layers := [layer_1] |} /\
  option_map (fun d => length (all_strokes d))
    (match parse_file (HEADER_V6 ++ dot_block) with
     | Ok d => Some d
     | _ => None
     end) = Some 1%nat.
Proof. vm_compute. repeat split. Qed.

(** ** Claims about the renderers *)

Local Open Scope string_scope.

(** The ballpoint stroke of [dot_block]. *)
Definition dot_stroke : Stroke :=
  {| pen := IsPen BALLPOINT;
     color := IsColor BLACK;
     thickness_scale := 1.0;
     points := [ {| x := 10; y := 20; speed := 0; width := 0;
                    direction := 0; pressure := 0 |} ] |}.

Lemma dot_block_parses :
  parse_file (HEADER_V6 ++ dot_block)
    = Ok {| layers := [ {| name := "Layer 1"; visible := true;
                           strokes := [dot_stroke] |} ] |}.
Proof. vm_compute. reflexivity. Qed.

(** The strokes that [render_svg] draws: not an eraser, and with a point. *)
Definition drawn (stroke : Stroke) : bool :=
  negb (is_eraser stroke)
  && match points stroke with [] => false | _ :: _ => true end.

Lemma render_strokes_drawn x_offset ss : forall g,
  fold_left (render_stroke x_offset) ss g
    = (g ++ map (path_element x_offset) (filter drawn ss))%list.
Proof.
  induction ss as [| s ss IH]; intros g; simpl.
  - rewrite app_nil_r. reflexivity.
  - rewrite IH. unfold render_stroke, drawn.
    destruct (is_eraser s); simpl; [reflexivity |].
    destruct (points s); simpl; [reflexivity |].
    rewrite <- app_assoc. reflexivity.
Qed.

Lemma render_layers_groups x_offset ls : forall i svg,
  render_layers x_offset i ls svg
    = (svg ++ map (fun il => render_layer x_offset (fst il) (snd il))
                  (combine (seq i (length ls)) ls))%list.
Proof.
  induction ls as [| l ls IH]; intros i svg; simpl.
  - rewrite app_nil_r. reflexivity.
  - rewrite IH, <- app_assoc. reflexivity.
Qed.

Lemma eraser_pen_is_eraser stroke :
  is_eraser stroke = true <->
  pen stroke = IsPen ERASER \/ pen stroke = IsPen ERASER_AREA.
Proof.
  unfold is_eraser. split.
  - destruct (pen stroke) as [p | n]; [| discriminate].
    destruct p; simpl; intros H; try discriminate; auto.
  - intros [-> | ->]; reflexivity.
Qed.

(** The strokes of a file with an eraser stroke and a pen stroke. *)
Definition pens_read (content : list byte) : option (list pen_or_int) :=
  match parse_file content with
  | Ok doc => Some (map pen (all_strokes doc))
  | _ => None
  end.

(** The number of [<path>] elements in the groups of an [<svg>] element. *)
Definition count_paths (svg : Element) : nat :=
  length (flat_map children_of (children_of svg)).

(** The document of the file with an eraser stroke and a ballpoint stroke:
    the one path of its rendering is the path of the ballpoint stroke. *)
Definition eraser_stroke : Stroke :=
  {| pen := IsPen ERASER;
     color := IsColor BLACK;
     thickness_scale := 1.0;
     points := [ {| x := 0; y := 0; speed := 0; width := 16;
                    direction := 0; pressure := 0 |};
                 {| x := 10; y := 20; speed := 0; width := 16;
                    direction := 0; pressure := 0 |} ] |}.

Definition eraser_and_dot : Document :=
  {| layers := [ {| name := "Layer 1"; visible := true;
                    strokes := [eraser_stroke; dot_stroke] |} ] |}.

Lemma float_1_is_not_0_4 : (1.0 = 0.4)%float -> False.
Proof.
  intros H. apply (f_equal (fun v => PrimFloat.eqb v 1.0)) in H.
  vm_compute in H. discriminate.
Qed.

Lemma path_element_opacity x_offset stroke :
  attr_get "opacity" (attrib_of (path_element x_offset stroke))
  = if PrimFloat.ltb (get_stroke_opacity stroke) 1.0
    then Some (format_2f (get_stroke_opacity stroke))
    else None.
Proof.
  unfold path_element.
  destruct (PrimFloat.ltb (get_stroke_opacity stroke) 1.0); reflexivity.
Qed.

(** C7.  [get_stroke_opacity] is 0.4 exactly for the pens [HIGHLIGHTER],
    [HIGHLIGHTER_2] and [SHADER], and 1.0 for every other stroke, a stroke
    whose pen is a raw integer included.  The [<path>] of a stroke carries
    [opacity="0.40"] in the first case and no opacity attribute, which is
    opacity 1, in the second. *)
Theorem opacity_partition stroke :
  (get_stroke_opacity stroke = 0.4%float <->
   pen stroke = IsPen HIGHLIGHTER \/ pen stroke = IsPen HIGHLIGHTER_2 \/
   pen stroke = IsPen SHADER) /\
  (get_stroke_opacity stroke = 0.4%float \/
   get_stroke_opacity stroke = 1.0%float) /\
  (forall n, pen stroke = PenInt n -> get_stroke_opacity stroke = 1.0%float) /\
  (forall x_offset,
     attr_get "opacity" (attrib_of (path_element x_offset stroke))
     = match pen stroke with
       | IsPen HIGHLIGHTER | IsPen HIGHLIGHTER_2 | IsPen SHADER => Some "0.40"
       | _ => None
       end).
Proof.
  unfold get_stroke_opacity. split; [| split; [| split]].
  - split.
    + destruct (pen stroke) as [p | n].
      * destruct p; simpl; intros H; auto;
          exfalso; apply float_1_is_not_0_4; exact H.
      * intros H. exfalso. apply float_1_is_not_0_4; exact H.
    + intros [-> | [-> | ->]]; reflexivity.
  - destruct (pen stroke) as [p | n]; [destruct p |]; simpl; auto.
  - intros n ->. reflexivity.
  - intros x_offset. rewrite path_element_opacity. unfold get_stroke_opacity.
    destruct (pen stroke) as [p | n]; [destruct p |]; vm_compute; reflexivity.
Qed.

(** A stroke read with the tool id 99, which is no pen of the enumeration. *)
Definition unknown_pen_stroke : Stroke :=
  {| pen := pen_of_tool_id 99;
     color := IsColor BLACK;
     thickness_scale := 1.0;
     points := points dot_stroke |}.

Lemma opacity_partition_witness :
  get_stroke_opacity unknown_pen_stroke = 1.0%float.
Proof.
  apply (proj1 (proj2 (proj2 (opacity_partition unknown_pen_stroke))) 99).
  reflexivity.
Defined.

(** C10.  For a stroke of fewer than two points [draw_stroke_on_page] leaves
    the shape as it is: no [draw_line], no [finish].  The SVG renderer does
    draw a stroke of one point that is not an eraser, as the path
    [M x y l 0.1 0.1]. *)
Theorem short_stroke_draws_nothing_on_pdf shape stroke page_width :
  (length (points stroke) < 2)%nat ->
  draw_stroke_on_page shape stroke page_width = shape /\
  (forall p x_offset g,
     points stroke = [p] -> is_eraser stroke = false ->
     render_stroke x_offset g stroke
       = (g ++ [path_element x_offset stroke])%list /\
     attr_get "d" (attrib_of (path_element x_offset stroke))
       = Some ("M " ++ format_2f (tx x_offset (x p)) ++ " "
                    ++ format_2f (ty (y p)) ++ " l 0.1 0.1")).
Proof.
  intros Hshort. split.
  - unfold draw_stroke_on_page.
    destruct (Nat.ltb_spec (length (points stroke)) 2); [| lia].
    rewrite orb_true_r. reflexivity.
  - intros p x_offset g Hp He. split.
    + unfold render_stroke. rewrite He, Hp. reflexivity.
    + unfold path_element.
      destruct (PrimFloat.ltb (get_stroke_opacity stroke) 1.0);
        cbn [attrib_of attr_get app String.eqb Ascii.eqb Bool.eqb];
        rewrite Hp; reflexivity.
Qed.

Lemma short_stroke_draws_nothing_on_pdf_witness :
  draw_stroke_on_page [] dot_stroke 595 = [] /\
  attr_get "d" (attrib_of (path_element DEFAULT_X_OFFSET dot_stroke))
    = Some "M 300.69 6.34 l 0.1 0.1".
Proof.
  destruct (short_stroke_draws_nothing_on_pdf [] dot_stroke 595
              ltac:(simpl; lia)) as [E R].
  split; [exact E |].
  destruct (R _ DEFAULT_X_OFFSET [] eq_refl eq_refl) as [_ D].
  rewrite D. vm_compute. reflexivity.
Defined.

(** *** The width of a stroke *)

Lemma sum_widths_from acc pts :
  Forall (fun p => width p = 0) pts ->
  fold_left (fun a p => a + width p) pts acc = acc.
Proof.
  intros H. revert acc. induction H as [| p pts Hp _ IH]; intros acc; simpl.
  - reflexivity.
  - rewrite Hp, Z.add_0_r. apply IH.
Qed.

(** A float that is a zero, of either sign, or not a number. *)
Definition zero_or_nan (v : float) : Prop :=
  Prim2SF v = S754_nan \/ exists s, Prim2SF v = S754_zero s.

Lemma zero_or_nan_div v d : zero_or_nan v -> zero_or_nan (v / d)%float.
Proof.
  unfold zero_or_nan. intros H. rewrite div_spec. unfold SF64div.
  destruct H as [-> | [s ->]]; destruct (Prim2SF d); simpl; eauto.
Qed.

Lemma py_max_half_of_zero v : zero_or_nan v -> py_max 0.5 v = 0.5%float.
Proof.
  unfold zero_or_nan, py_max. intros H. rewrite ltb_spec.
  replace (Prim2SF 0.5) with (S754_finite false 4503599627370496 (-53))
    by (vm_compute; reflexivity).
  destruct H as [-> | [s ->]]; reflexivity.
Qed.

(** C3, as the code has it.  A stroke with points has the width
    [max(0.5, mean / S / 4.0)], the mean being that of the width fields of the
    points; when these are all zero that is 0.5, not the fallback.  The
    fallback [base * thickness_scale / S] is the width of a stroke without
    points, with [base] from [PEN_BASE_WIDTH] for a pen of the enumeration
    and 1.0 for a raw integer. *)
Theorem get_stroke_width_by_points stroke :
  (points stroke <> [] ->
   get_stroke_width stroke
     = py_max 0.5
         (int_truediv (sum_widths (points stroke))
                      (Z.of_nat (length (points stroke)))
          / RM_TO_PDF_SCALE / 4.0)%float) /\
  (points stroke <> [] ->
   Forall (fun p => width p = 0) (points stroke) ->
   get_stroke_width stroke = 0.5%float) /\
  (points stroke = [] ->
   get_stroke_width stroke
     = (match pen stroke with
        | IsPen p => dict_get Pen_eqb PEN_BASE_WIDTH p 1.0
        | PenInt _ => 1.0
        end * thickness_scale stroke / RM_TO_PDF_SCALE)%float).
Proof.
  unfold get_stroke_width. split; [| split].
  - destruct (points stroke); [congruence | reflexivity].
  - intros Hne Hzero. destruct (points stroke) as [| p pts]; [congruence |].
    apply py_max_half_of_zero. do 2 apply zero_or_nan_div.
    unfold int_truediv, sum_widths. rewrite (sum_widths_from 0 _ Hzero).
    apply zero_or_nan_div. right. exists false. vm_compute. reflexivity.
  - intros ->. reflexivity.
Qed.

Lemma get_stroke_width_by_points_witness :
  get_stroke_width dot_stroke = 0.5%float.
Proof.
  apply (proj1 (proj2 (get_stroke_width_by_points dot_stroke))).
  - discriminate.
  - repeat constructor.
Defined.

(** C3, as the claim states it, fails.  The one point of [dot_stroke] has
    width 0, so all its widths are zero; its width is 0.5, which is not the
    fallback [PEN_BASE_WIDTH[BALLPOINT] * 1.0 / S] (about 0.38). *)
Lemma zero_widths_do_not_fall_back :
  Forall (fun p => width p = 0) (points dot_stroke) /\
  get_stroke_width dot_stroke = 0.5%float /\
  PrimFloat.eqb (get_stroke_width dot_stroke)
    (dict_get Pen_eqb PEN_BASE_WIDTH BALLPOINT 1.0
     * thickness_scale dot_stroke / RM_TO_PDF_SCALE)%float = false.
Proof.
  split; [repeat constructor |]. split; vm_compute; reflexivity.
Qed.

(** ** More on the loop of [parse_file] *)

(** Where the iteration over a block leaves the cursor.  It is the end of the
    block unless the block is a [LineItem] block whose [try] body ends by
    [continue]. *)
Lemma parse_block_seeks_to_block_end
    st block_type len min_version current_version st1 :
  on_reader read_block_header st
    = (Ok (Some (block_type, len, min_version, current_version)), st1) ->
  block_type <> BlockType_value LineItem \/
    (forall st2, line_item_body st1 <> (Ok Continue, st2)) ->
  exists st', parse_block st = (Ok Next, st') /\
              cursor st' = cursor st + 8 + len.
Proof.
  intros EH Hcase.
  pose proof (parse_block_cases st) as C. rewrite EH in C. cbv zeta in C.
  apply header_read in EH as (Hc & _). rewrite Hc in C.
  destruct (Z.eqb_spec block_type (BlockType_value LineItem)) as [E | NE].
  - destruct Hcase as [Hcase | Hcase]; [contradiction |].
    pose proof (total_line_item_body st1) as T.
    destruct (line_item_body st1) as [[[|] | e |] st2] eqn:EB; simpl in T.
    + exists (seek_state (cursor st + 8 + len) st2). split; [exact C | reflexivity].
    + exfalso. apply (Hcase st2). reflexivity.
    + exists (seek_state (cursor st + 8 + len) st2). split; [exact C | reflexivity].
    + congruence.
  - exists (seek_state (cursor st + 8 + len) st1). split; [exact C | reflexivity].
Qed.

(** The [continue] of a deleted item: the iteration ends in the state the
    [try] body ended in, without the [seek]. *)
Lemma tombstone_skips_the_seek st len min_version current_version st1 st2 :
  on_reader read_block_header st
    = (Ok (Some (BlockType_value LineItem, len, min_version, current_version)),
       st1) ->
  line_item_body st1 = (Ok Continue, st2) ->
  parse_block st = (Ok Next, st2).
Proof.
  intros EH EB.
  pose proof (parse_block_cases st) as C. rewrite EH in C. cbv zeta in C.
  rewrite Z.eqb_refl, EB in C. exact C.
Qed.

(** A block that cannot be parsed does not hide the block behind it. *)
Lemma bad_block_then_stroke_parses :
  parse_file (HEADER_V6 ++ bad_tag_block ++ dot_block)
    = Ok {| layers := [ {| name := "Layer 1"; visible := true;
                           strokes := [dot_stroke] |} ] |}.
Proof. vm_compute. reflexivity. Qed.

Lemma on_stream_read_uint32_full r :
  0 <= pos (stream r) -> pos (stream r) + 4 <= size (stream r) ->
  exists v, on_stream read_uint32 r
              = (Ok v, set_stream (advance (stream r) 4) r).
Proof.
  intros Hpos Hfit. unfold on_stream, zoom, read_uint32, bind.
  destruct (read_bytes_spec 4 (stream r)) as [[L E] | [L E]]; rewrite E.
  - eexists. reflexivity.
  - pose proof (file_read_full (stream r) 4 Hpos). lia.
Qed.

Lemma on_stream_read_uint8_run r :
  0 <= pos (stream r) ->
  (pos (stream r) < size (stream r) /\
   exists v, on_stream read_uint8 r
               = (Ok v, set_stream (advance (stream r) 1) r)) \/
  (size (stream r) <= pos (stream r) /\
   on_stream read_uint8 r
     = (Raise EOFError, set_stream (advance (stream r) 0) r)).
Proof.
  intros Hpos. unfold on_stream, zoom.
  destruct (read_uint8_spec (stream r)) as [(b & _ & Hlt & E) | (F & E)];
    rewrite E.
  - left. split; [exact Hlt | eexists; reflexivity].
  - right. split; [| reflexivity].
    destruct (Z.le_gt_cases (size (stream r)) (pos (stream r))) as [H | H];
      [exact H |].
    pose proof (file_read_full (stream r) 1 Hpos) as L. rewrite F in L.
    simpl in L. lia.
Qed.

Lemma bind_run_ok {St A B} (m : M St A) (k : A -> M St B) s a s1 :
  m s = (Ok a, s1) -> bind m k s = k a s1.
Proof. intros E. unfold bind. rewrite E. reflexivity. Qed.

Lemma bind_run_raise {St A B} (m : M St A) (k : A -> M St B) s e s1 :
  m s = (Raise e, s1) -> bind m k s = (Raise e, s1).
Proof. intros E. unfold bind. rewrite E. reflexivity. Qed.

(** With the length field of a block header in the file but not the four
    bytes behind it, [read_block_header] raises. *)
Lemma read_block_header_cut_short r :
  0 <= pos (stream r) ->
  4 <= size (stream r) - pos (stream r) < 8 ->
  exists r', read_block_header r = (Raise EOFError, r').
Proof.
  intros Hpos Hcut. unfold read_block_header.
  destruct (on_stream_read_uint32_full r Hpos) as [len E]; [lia |].
  set (r1 := set_stream (advance (stream r) 4) r) in *.
  assert (P1 : pos (stream r1) = pos (stream r) + 4) by reflexivity.
  assert (S1 : size (stream r1) = size (stream r)) by reflexivity.
  rewrite (bind_run_ok _ _ r (Some len) r1)
    by (unfold try_except; rewrite (bind_run_ok _ _ r len r1 E); reflexivity).
  destruct (on_stream_read_uint8_run r1) as [[H1 [v1 E1]] | [H1 E1]];
    [lia | | rewrite (bind_run_raise _ _ _ _ _ E1); eexists; reflexivity].
  rewrite (bind_run_ok _ _ _ _ _ E1).
  set (r2 := set_stream (advance (stream r1) 1) r1) in *.
  assert (P2 : pos (stream r2) = pos (stream r) + 5) by (simpl; lia).
  assert (S2 : size (stream r2) = size (stream r)) by reflexivity.
  destruct (on_stream_read_uint8_run r2) as [[H2 [v2 E2]] | [H2 E2]];
    [lia | | rewrite (bind_run_raise _ _ _ _ _ E2); eexists; reflexivity].
  rewrite (bind_run_ok _ _ _ _ _ E2).
  set (r3 := set_stream (advance (stream r2) 1) r2) in *.
  assert (P3 : pos (stream r3) = pos (stream r) + 6) by (simpl; lia).
  assert (S3 : size (stream r3) = size (stream r)) by reflexivity.
  destruct (on_stream_read_uint8_run r3) as [[H3 [v3 E3]] | [H3 E3]];
    [lia | | rewrite (bind_run_raise _ _ _ _ _ E3); eexists; reflexivity].
  rewrite (bind_run_ok _ _ _ _ _ E3).
  set (r4 := set_stream (advance (stream r3) 1) r3) in *.
  assert (P4 : pos (stream r4) = pos (stream r) + 7) by (simpl; lia).
  assert (S4 : size (stream r4) = size (stream r)) by reflexivity.
  destruct (on_stream_read_uint8_run r4) as [[H4 [v4 E4]] | [H4 E4]];
    [lia | lia | rewrite (bind_run_raise _ _ _ _ _ E4); eexists; reflexivity].
Qed.

(** X12.  So the loop raises when the file ends behind the length field of a
    block header and before the end of the header: wherever the cursor is,
    with four to seven bytes left the next iteration of the loop of
    [parse_file] raises [EOFError], which nothing catches. *)
Lemma eof_behind_length_field_always_raises st fuel :
  0 <= cursor st -> 4 <= file_size st - cursor st < 8 ->
  exists st', parse_loop (S fuel) st = (Raise EOFError, st').
Proof.
  intros Hpos Hcut.
  destruct (read_block_header_cut_short (reader st) Hpos Hcut) as [r' E].
  pose proof (parse_block_cases st) as C.
  unfold on_reader, zoom in C. rewrite E in C.
  eexists. cbn [parse_loop]. unfold bind. rewrite C. reflexivity.
Qed.

(** * Further properties of the parser *)

Local Close Scope string_scope.

(** ** Which exceptions leave [parse_file] *)

(** [raises_only P m]: every exception that [m] raises satisfies [P]. *)
Definition raises_only {St A} (P : exn -> Prop) (m : M St A) : Prop :=
  forall s e s', m s = (Raise e, s') -> P e.

Lemma raises_only_ret {St A} (P : exn -> Prop) (a : A) :
  raises_only P (@ret St A a).
Proof. intros s e s' H. discriminate. Qed.

Lemma raises_only_bind {St A B} (P : exn -> Prop)
    (m : M St A) (k : A -> M St B) :
  raises_only P m -> (forall a, raises_only P (k a)) ->
  raises_only P (bind m k).
Proof.
  intros Hm Hk s e s' H. unfold bind in H.
  destruct (m s) as [[a | e0 |] s1] eqn:E; try discriminate.
  - eapply Hk; eauto.
  - inversion H; subst. eapply Hm; eauto.
Qed.

Lemma raises_only_zoom {S T A} (P : exn -> Prop)
    (get : T -> S) (set : S -> T -> T) (m : M S A) :
  raises_only P m -> raises_only P (zoom get set m).
Proof.
  intros Hm t e t' H. unfold zoom in H.
  destruct (m (get t)) as [o s1] eqn:E. inversion H; subst. eapply Hm; eauto.
Qed.

Definition is_eof (e : exn) : Prop := e = EOFError.

Lemma read_bytes_raises_eof n : raises_only is_eof (read_bytes n).
Proof.
  intros r e r' H.
  destruct (read_bytes_spec n r) as [[_ E] | [_ E]]; rewrite E in H;
    inversion H; reflexivity.
Qed.

Lemma read_uint8_raises_eof : raises_only is_eof read_uint8.
Proof.
  apply raises_only_bind; [apply read_bytes_raises_eof |].
  intros bs. apply raises_only_ret.
Qed.

Lemma read_uint32_raises_eof : raises_only is_eof read_uint32.
Proof.
  apply raises_only_bind; [apply read_bytes_raises_eof |].
  intros bs. apply raises_only_ret.
Qed.

Lemma read_block_header_raises_eof : raises_only is_eof read_block_header.
Proof.
  unfold read_block_header. apply raises_only_bind.
  - intros r e r' H. unfold try_except, bind in H.
    pose proof (raises_only_zoom is_eof stream set_stream read_uint32
                  read_uint32_raises_eof r) as R.
    fold (on_stream read_uint32) in R.
    destruct (on_stream read_uint32 r) as [[l | e0 |] r1]; try discriminate.
    rewrite (R e0 r1 eq_refl) in H. discriminate.
  - intros [l |]; [| apply raises_only_ret].
    repeat (apply raises_only_bind;
            [apply raises_only_zoom; apply read_uint8_raises_eof | intros ?]).
    apply raises_only_ret.
Qed.

Lemma parse_block_raises_eof : raises_only is_eof parse_block.
Proof.
  intros st e st' H. pose proof (parse_block_cases st) as C.
  pose proof (raises_only_zoom is_eof reader set_reader read_block_header
                read_block_header_raises_eof st) as R.
  fold (on_reader read_block_header) in R.
  destruct (on_reader read_block_header st)
    as [[[[[[block_type len] min_version] current_version] |] | e0 |] st1];
    try (rewrite C in H; discriminate).
  - cbv zeta in C. destruct (block_type =? BlockType_value LineItem).
    + destruct (line_item_body st1) as [[[|] | e1 |] st2];
        rewrite C in H; discriminate.
    + rewrite C in H. discriminate.
  - rewrite C in H. inversion H; subst. apply (R e st'). reflexivity.
Qed.

Lemma parse_loop_raises_eof fuel : raises_only is_eof (parse_loop fuel).
Proof.
  induction fuel as [| fuel IH]; simpl.
  - intros st e st' H. discriminate.
  - apply raises_only_bind; [apply parse_block_raises_eof |].
    intros [|]; [apply raises_only_ret | exact IH].
Qed.

(** X1.  On a file that begins with the header, [parse_file] ends: it
    returns a document or raises [EOFError].  No [ValueError] leaves it, and
    its loop never runs for ever. *)
Theorem parse_file_with_header_parses_or_hits_eof rest :
  (exists doc, parse_file (HEADER_V6 ++ rest) = Ok doc) \/
  parse_file (HEADER_V6 ++ rest) = Raise EOFError.
Proof.
  pose proof (parse_file_never_out_of_fuel (HEADER_V6 ++ rest)) as T.
  unfold parse_file, bind in *. rewrite after_header_valid in *.
  pose proof (parse_loop_raises_eof (parse_fuel (HEADER_V6 ++ rest))
                (state_at (HEADER_V6 ++ rest) 43)) as R.
  destruct (parse_loop (parse_fuel (HEADER_V6 ++ rest))
              (state_at (HEADER_V6 ++ rest) 43)) as [[[] | e |] st].
  - left. eexists. reflexivity.
  - right. rewrite (R e st eq_refl). reflexivity.
  - congruence.
Qed.

(** X2.  A file that does not begin with the header is refused before any
    block is read: with [EOFError] when it is shorter than the 43 bytes of the
    header, with [ValueError] otherwise. *)
Theorem parse_file_without_header_raises content :
  firstn 43 content <> HEADER_V6 ->
  parse_file content
    = Raise (if (length content <? 43)%nat then EOFError else ValueError).
Proof.
  intros Hne. unfold parse_file, bind, on_reader, zoom, parse_init.
  cbn [reader]. rewrite read_header_run.
  destruct (length content <? 43)%nat; [reflexivity |].
  destruct (list_eq_dec byte_eq_dec (firstn 43 content) HEADER_V6);
    [congruence | reflexivity].
Qed.

Lemma parse_file_without_header_raises_witness :
  parse_file (repeat x00 44) = Raise ValueError /\
  parse_file (firstn 10 HEADER_V6) = Raise EOFError.
Proof.
  split.
  - apply (parse_file_without_header_raises (repeat x00 44)). discriminate.
  - apply (parse_file_without_header_raises (firstn 10 HEADER_V6)). discriminate.
Defined.

(** ** What an iteration does to the layer *)

(** The layer of [st'] is that of [st], or that of [st] with one stroke, which
    has a point, added at the end. *)
Definition appends_at_most_one (st st' : ParseState) : Prop :=
  name (default_layer st') = name (default_layer st) /\
  visible (default_layer st') = visible (default_layer st) /\
  (strokes (default_layer st') = strokes (default_layer st) \/
   exists s, points s <> [] /\
             strokes (default_layer st') = strokes (default_layer st) ++ [s]).

Lemma same_layer_appends a b : same_layer a b -> appends_at_most_one a b.
Proof.
  unfold same_layer, appends_at_most_one. intros E. rewrite E.
  repeat split. left. reflexivity.
Qed.

Lemma same_layer_then_appends a b c :
  same_layer a b -> appends_at_most_one b c -> appends_at_most_one a c.
Proof.
  unfold same_layer, appends_at_most_one. intros E H. rewrite E in H. exact H.
Qed.

Lemma appends_then_same_layer a b c :
  appends_at_most_one a b -> same_layer b c -> appends_at_most_one a c.
Proof. unfold same_layer, appends_at_most_one. intros H E. rewrite E. exact H. Qed.

Lemma keeps_bind_after {St A B} (R0 R : St -> St -> Prop)
    (m : M St A) (k : A -> M St B) :
  (forall a b, R0 a b -> R a b) ->
  (forall a b c, R0 a b -> R b c -> R a c) ->
  keeps R0 m -> (forall a, keeps R (k a)) -> keeps R (bind m k).
Proof.
  intros Hin Htr Hm Hk s. unfold bind. specialize (Hm s).
  destruct (m s) as [[a | e |] s1]; simpl in *; auto.
  eapply Htr; [exact Hm | apply Hk].
Qed.

Lemma keeps_same_layer_ret {A} (a : A) : keeps appends_at_most_one (ret a).
Proof. intros st. apply same_layer_appends. reflexivity. Qed.

Ltac body_step :=
  apply (keeps_bind_after same_layer appends_at_most_one);
  [exact same_layer_appends | exact same_layer_then_appends
   | apply on_reader_same_layer | intros ?].

Lemma line_item_body_appends : keeps appends_at_most_one line_item_body.
Proof.
  unfold line_item_body. do 5 body_step.
  destruct (a3 >? 0); [apply keeps_same_layer_ret |].
  body_step. destruct a4; [| apply keeps_same_layer_ret].
  do 2 body_step.
  destruct (a5 =? 3); [| apply keeps_same_layer_ret].
  body_step. destruct a6 as [s |]; [| apply keeps_same_layer_ret].
  destruct (points s) as [| p ps] eqn:Hp; [apply keeps_same_layer_ret |].
  intros st. unfold bind, append_stroke, ret, appends_at_most_one. simpl.
  repeat split. right. exists s. split; [rewrite Hp; discriminate | reflexivity].
Qed.

Lemma seek_state_same_layer p st : same_layer st (seek_state p st).
Proof. reflexivity. Qed.

Lemma parse_block_appends st :
  appends_at_most_one st (snd (parse_block st)).
Proof.
  pose proof (parse_block_cases st) as C.
  pose proof (on_reader_same_layer read_block_header st) as H0.
  destruct (on_reader read_block_header st)
    as [[[[[[block_type len] min_version] current_version] |] | e |] st1];
    simpl in H0; try (rewrite C; apply same_layer_appends; exact H0).
  cbv zeta in C. destruct (block_type =? BlockType_value LineItem).
  - pose proof (line_item_body_appends st1) as HB.
    destruct (line_item_body st1) as [[[|] | e |] st2]; simpl in HB;
      rewrite C; cbn [snd];
      apply (same_layer_then_appends _ _ _ H0); try exact HB;
      apply (appends_then_same_layer _ _ _ HB); apply seek_state_same_layer.
  - rewrite C. apply same_layer_appends. exact H0.
Qed.

(** X4.  One iteration of the loop of [parse_file] leaves the name and the
    visibility of the layer alone, keeps the strokes read so far in their
    order, and adds at most one stroke, at the end; a stroke it adds has a
    point. *)
Theorem parse_block_appends_at_most_one st :
  appends_at_most_one st (snd (parse_block st)).
Proof. apply parse_block_appends. Qed.

(** What holds of the layer of [parse_file] all along. *)
Definition layer_ok (l : Layer) : Prop :=
  name l = "Layer 1"%string /\ visible l = true /\
  Forall (fun s => points s <> []) (strokes l).

Lemma appends_keeps_layer_ok st st' :
  appends_at_most_one st st' ->
  layer_ok (default_layer st) -> layer_ok (default_layer st').
Proof.
  intros (Hn & Hv & Hs) (Pn & Pv & Ps). unfold layer_ok.
  rewrite Hn, Hv. repeat split; auto.
  destruct Hs as [-> | (s & Hp & ->)]; [exact Ps |].
  apply Forall_app. split; [exact Ps | constructor; [exact Hp | constructor]].
Qed.

Lemma parse_loop_keeps_layer_ok fuel : forall st,
  layer_ok (default_layer st) ->
  layer_ok (default_layer (snd (parse_loop fuel st))).
Proof.
  induction fuel as [| fuel IH]; intros st P; [exact P |].
  cbn [parse_loop]. unfold bind.
  pose proof (parse_block_appends st) as HB.
  destruct (parse_block st) as [[[|] | e |] st1]; simpl in HB; cbn [snd];
    try (apply (appends_keeps_layer_ok _ _ HB P)).
  apply IH. apply (appends_keeps_layer_ok _ _ HB P).
Qed.

(** X3.  A document that [parse_file] returns has exactly one layer, named
    ["Layer 1"] and visible, and every stroke in it has at least one point. *)
Theorem parsed_document_has_one_layer_of_nonempty_strokes content doc :
  parse_file content = Ok doc ->
  exists ss,
    doc = {| layers := [ {| name := "Layer 1"; visible := true;
                            strokes := ss |} ] |} /\
    Forall (fun s => points s <> []) ss.
Proof.
  unfold parse_file, bind. intros H.
  pose proof (on_reader_same_layer read_header (parse_init content)) as L0.
  destruct (on_reader read_header (parse_init content)) as [[[] | e |] st1];
    try discriminate.
  pose proof (parse_loop_keeps_layer_ok (parse_fuel content) st1) as P.
  destruct (parse_loop (parse_fuel content) st1) as [[[] | e |] st2];
    try discriminate.
  inversion H; subst; clear H. simpl in L0, P.
  destruct P as (Pn & Pv & Ps).
  { rewrite L0. repeat split. constructor. }
  exists (strokes (default_layer st2)). split; [| exact Ps].
  unfold document_of. destruct (default_layer st2) as [n v ss]. simpl in *.
  subst. reflexivity.
Qed.

Lemma parsed_document_has_one_layer_of_nonempty_strokes_witness :
  exists ss,
    {| layers := [ {| name := "Layer 1"; visible := true;
                      strokes := [dot_stroke] |} ] |}
    = {| layers := [ {| name := "Layer 1"; visible := true;
                        strokes := ss |} ] |} /\
    Forall (fun s => points s <> []) ss.
Proof.
  apply (parsed_document_has_one_layer_of_nonempty_strokes
           (HEADER_V6 ++ dot_block)).
  apply dot_block_parses.
Defined.

(** ** Deleted items *)

(** The five reads that open the [try] body: the four ids of the scene item
    and [deleted_length], which is what they return. *)
Definition read_envelope : M TaggedBlockReader Z :=
  _parent_id <- read_id 1 ;;
  _item_id <- read_id 2 ;;
  _left_id <- read_id 3 ;;
  _right_id <- read_id 4 ;;
  read_int 5.

Lemma line_item_body_of_deleted st deleted_length st' :
  on_reader read_envelope st = (Ok deleted_length, st') ->
  deleted_length > 0 ->
  line_item_body st = (Ok Continue, st').
Proof.
  unfold line_item_body, read_envelope, on_reader, zoom, bind.
  intros H Hd.
  destruct (read_id 1 (reader st)) as [[i1 | e |] r1]; try discriminate.
  cbn [reader set_reader] in *.
  destruct (read_id 2 r1) as [[i2 | e |] r2]; try discriminate.
  cbn [reader set_reader] in *.
  destruct (read_id 3 r2) as [[i3 | e |] r3]; try discriminate.
  cbn [reader set_reader] in *.
  destruct (read_id 4 r3) as [[i4 | e |] r4]; try discriminate.
  cbn [reader set_reader] in *.
  destruct (read_int 5 r4) as [[d | e |] r5]; try discriminate.
  cbn [reader set_reader] in *.
  inversion H; subst; clear H.
  destruct (Z.gtb_spec deleted_length 0); [reflexivity | lia].
Qed.

(** X5.  The iteration that meets a [LineItem] block whose
    [deleted_length] is read as a positive number appends nothing: it ends by
    [continue], normally, with the layer it started with, the file as it was
    and the cursor where the read of [deleted_length] left it, and not at the
    end of the block; the loop goes on from there.  This is about that
    iteration alone.  The bytes of the block behind [deleted_length] are read
    as block headers by the iterations that follow, and may add strokes
    ([deleted_block_payload_is_read_as_blocks]). *)
Theorem deleted_item_iteration_appends_nothing
    st len min_version current_version st1 deleted_length st2 :
  on_reader read_block_header st
    = (Ok (Some (BlockType_value LineItem, len, min_version, current_version)),
       st1) ->
  on_reader read_envelope st1 = (Ok deleted_length, st2) ->
  deleted_length > 0 ->
  parse_block st = (Ok Next, st2) /\
  default_layer st2 = default_layer st /\
  file_of st2 = file_of st /\
  forall fuel, parse_loop (S fuel) st = parse_loop fuel st2.
Proof.
  intros EH EE Hd.
  assert (EP : parse_block st = (Ok Next, st2))
    by exact (tombstone_skips_the_seek _ _ _ _ _ _ EH
                (line_item_body_of_deleted _ _ _ EE Hd)).
  pose proof (on_reader_same_layer read_envelope st1) as L1.
  pose proof (keeps_on_reader read_envelope
                ltac:(unfold read_envelope; eauto 10 with reader) st1)
    as [[D1 _] _].
  rewrite EE in L1, D1. cbn [snd] in L1, D1. unfold same_layer in L1.
  apply header_read in EH as (_ & F0 & L0 & _).
  split; [exact EP |]. split; [congruence |].
  split; [unfold file_of in *; congruence |].
  intros fuel. cbn [parse_loop]. unfold bind. rewrite EP. reflexivity.
Qed.

Lemma deleted_item_iteration_appends_nothing_witness :
  parse_block (after_header (HEADER_V6 ++ tombstone_block ++ dot_block))
    = (Ok Next,
       seek_state 68 (after_header (HEADER_V6 ++ tombstone_block ++ dot_block))).
Proof.
  pose (st := after_header (HEADER_V6 ++ tombstone_block ++ dot_block)).
  apply (proj1 (deleted_item_iteration_appends_nothing st 69 1 1
                  (seek_state 51 st) 1 (seek_state 68 st)
                  eq_refl eq_refl ltac:(lia))).
Defined.

(** A deleted [LineItem] block whose payload, behind the envelope, is the
    block of a stroke. *)
Definition deleted_block_around (inner : list byte) : list byte :=
  bytes_of_ints (u32_le (17 + Z.of_nat (length inner)) ++ [0; 1; 1; 5]
                 ++ envelope 1)
  ++ inner.

(** The stroke inside a deleted block is parsed: the iteration over the
    deleted block leaves the cursor in front of it. *)
Lemma deleted_block_payload_is_read_as_blocks :
  parse_file (HEADER_V6 ++ deleted_block_around dot_block)
    = Ok {| layers := [ {| name := "Layer 1"; visible := true;
                           strokes := [dot_stroke] |} ] |}.
Proof. vm_compute. reflexivity. Qed.

(** ** Points *)

Lemma byte_val_range b : 0 <= byte_val b < 256.
Proof.
  unfold byte_val. pose proof (Byte.to_N_bounded b).
  pose proof (N2Z.is_nonneg (Byte.to_N b)). lia.
Qed.

Lemma le_uint_range bs : 0 <= le_uint bs < 256 ^ Z.of_nat (length bs).
Proof.
  induction bs as [| b rest IH]; cbn [le_uint length].
  - simpl. lia.
  - rewrite Nat2Z.inj_succ, Z.pow_succ_r by lia.
    pose proof (byte_val_range b). lia.
Qed.

Lemma read_bytes_ok n r bs r' :
  read_bytes n r = (Ok bs, r') ->
  r' = advance r (Z.of_nat n) /\ length bs = n.
Proof.
  destruct (read_bytes_spec n r) as [[L E] | [L E]]; rewrite E;
    intros H; inversion H; subst; auto.
Qed.

Lemma read_bytes_full n r :
  0 <= pos r -> pos r + Z.of_nat n <= size r ->
  read_bytes n r = (Ok (file_read r n), advance r (Z.of_nat n)).
Proof.
  intros Hpos Hfit.
  destruct (read_bytes_spec n r) as [[L E] | [L E]]; [exact E |].
  pose proof (file_read_full r n Hpos Hfit). lia.
Qed.

(** What the six reads of [read_point] have in common. *)
Lemma read_fixed_ok {A} n (f : list byte -> A) r v r' :
  (bs <- read_bytes n ;; ret (f bs)) r = (Ok v, r') ->
  exists bs, v = f bs /\ length bs = n /\ r' = advance r (Z.of_nat n).
Proof.
  intros H. apply bind_ok in H as (bs & r1 & E & H).
  apply read_bytes_ok in E as [-> L]. inversion H; subst.
  exists bs. auto.
Qed.

Lemma read_fixed_full {A} n (f : list byte -> A) r :
  0 <= pos r -> pos r + Z.of_nat n <= size r ->
  (bs <- read_bytes n ;; ret (f bs)) r
    = (Ok (f (file_read r n)), advance r (Z.of_nat n)).
Proof.
  intros Hpos Hfit. unfold bind. rewrite (read_bytes_full n r Hpos Hfit).
  reflexivity.
Qed.

(** The integer fields of a point are in the range of their width on disk. *)
Definition point_in_range (p : Point) : Prop :=
  0 <= speed p < 65536 /\ 0 <= width p < 65536 /\
  0 <= direction p < 256 /\ 0 <= pressure p < 256.

Lemma read_point_ok r p r' :
  read_point r = (Ok p, r') ->
  data r' = data r /\ pos r' = pos r + 14 /\ point_in_range p.
Proof.
  unfold read_point. intros H.
  apply bind_ok in H as (vx & r1 & E1 & H).
  apply bind_ok in H as (vy & r2 & E2 & H).
  apply bind_ok in H as (vs & r3 & E3 & H).
  apply bind_ok in H as (vw & r4 & E4 & H).
  apply bind_ok in H as (vd & r5 & E5 & H).
  apply bind_ok in H as (vp & r6 & E6 & H).
  apply read_fixed_ok in E1 as (b1 & _ & _ & ->).
  apply read_fixed_ok in E2 as (b2 & _ & _ & ->).
  apply read_fixed_ok in E3 as (b3 & -> & L3 & ->).
  apply read_fixed_ok in E4 as (b4 & -> & L4 & ->).
  apply read_fixed_ok in E5 as (b5 & -> & L5 & ->).
  apply read_fixed_ok in E6 as (b6 & -> & L6 & ->).
  inversion H; subst; clear H. cbn [data pos advance].
  split; [reflexivity |]. split; [lia |].
  unfold point_in_range. cbn [speed width direction pressure].
  pose proof (le_uint_range b3). pose proof (le_uint_range b4).
  pose proof (le_uint_range b5). pose proof (le_uint_range b6).
  rewrite L3 in *. rewrite L4 in *. rewrite L5 in *. rewrite L6 in *.
  change (256 ^ Z.of_nat 2) with 65536 in *.
  change (256 ^ Z.of_nat 1) with 256 in *. lia.
Qed.

Lemma read_point_full r :
  0 <= pos r -> pos r + 14 <= size r ->
  exists p r', read_point r = (Ok p, r').
Proof.
  intros Hpos Hfit. unfold read_point, read_float32, read_uint16, read_uint8.
  rewrite (bind_run_ok _ _ _ _ _ (read_fixed_full 4 _ r Hpos ltac:(lia))).
  set (r1 := advance r (Z.of_nat 4)).
  rewrite (bind_run_ok _ _ _ _ _
             (read_fixed_full 4 _ r1 ltac:(simpl; lia)
                ltac:(unfold size in *; simpl; lia))).
  set (r2 := advance r1 (Z.of_nat 4)).
  rewrite (bind_run_ok _ _ _ _ _
             (read_fixed_full 2 _ r2 ltac:(simpl; lia)
                ltac:(unfold size in *; simpl; lia))).
  set (r3 := advance r2 (Z.of_nat 2)).
  rewrite (bind_run_ok _ _ _ _ _
             (read_fixed_full 2 _ r3 ltac:(simpl; lia)
                ltac:(unfold size in *; simpl; lia))).
  set (r4 := advance r3 (Z.of_nat 2)).
  rewrite (bind_run_ok _ _ _ _ _
             (read_fixed_full 1 _ r4 ltac:(simpl; lia)
                ltac:(unfold size in *; simpl; lia))).
  set (r5 := advance r4 (Z.of_nat 1)).
  rewrite (bind_run_ok _ _ _ _ _
             (read_fixed_full 1 _ r5 ltac:(simpl; lia)
                ltac:(unfold size in *; simpl; lia))).
  eexists. eexists. reflexivity.
Qed.

Lemma read_points_ok n : forall r ps r',
  read_points n r = (Ok ps, r') ->
  length ps = n /\ data r' = data r /\ pos r' = pos r + 14 * Z.of_nat n /\
  Forall point_in_range ps.
Proof.
  induction n as [| n IH]; intros r ps r' H.
  - inversion H; subst. repeat split; [lia | constructor].
  - cbn [read_points] in H.
    apply bind_ok in H as (p & r1 & E1 & H).
    apply bind_ok in H as (ps' & r2 & E2 & H).
    inversion H; subst; clear H.
    apply read_point_ok in E1 as (D1 & P1 & R1).
    apply IH in E2 as (L2 & D2 & P2 & R2).
    repeat split; [simpl; lia | congruence | lia | constructor; assumption].
Qed.

Lemma read_points_full n : forall r,
  0 <= pos r -> pos r + 14 * Z.of_nat n <= size r ->
  exists ps r', read_points n r = (Ok ps, r').
Proof.
  induction n as [| n IH]; intros r Hpos Hfit.
  - eexists. eexists. reflexivity.
  - cbn [read_points].
    destruct (read_point_full r Hpos ltac:(lia)) as (p & r1 & E1).
    rewrite (bind_run_ok _ _ _ _ _ E1).
    pose proof (read_point_ok _ _ _ E1) as (D1 & P1 & _).
    destruct (IH r1) as (ps & r2 & E2); [lia | unfold size in *; rewrite D1; lia |].
    rewrite (bind_run_ok _ _ _ _ _ E2). eexists. eexists. reflexivity.
Qed.

(** X6.  Reading [n] points takes 14 bytes a point: it succeeds whenever
    [14 * n] bytes are left, and when it succeeds it returns exactly [n]
    points, with the cursor [14 * n] bytes on and every integer field within
    the range of its width on disk. *)
Theorem read_points_takes_14_bytes_each n r :
  0 <= pos r ->
  (pos r + 14 * Z.of_nat n <= size r ->
   exists ps r', read_points n r = (Ok ps, r')) /\
  (forall ps r',
     read_points n r = (Ok ps, r') ->
     length ps = n /\ data r' = data r /\
     pos r' = pos r + 14 * Z.of_nat n /\ Forall point_in_range ps).
Proof.
  intros Hpos. split.
  - apply read_points_full. exact Hpos.
  - apply read_points_ok.
Qed.

(** Three points of 14 bytes, as in [stroke_block]. *)
Definition three_points : BinaryReader :=
  {| data := bytes_of_ints (point_bytes 0 0 16
                            ++ point_bytes 0x42C80000 0x43480000 16
                            ++ point_bytes 0x43480000 0x43C80000 16);
     pos := 0 |}.

Lemma read_points_takes_14_bytes_each_witness :
  exists ps r', read_points 3 three_points = (Ok ps, r').
Proof.
  apply (proj1 (read_points_takes_14_bytes_each 3 three_points ltac:(simpl; lia))).
  vm_compute. discriminate.
Defined.

(** ** Tags *)

Lemma read_varuint_moves_on r v r' :
  read_varuint r = (Ok v, r') -> pos r < pos r'.
Proof.
  unfold read_varuint, varuint_fuel. cbn [read_varuint_loop]. unfold bind.
  destruct (read_uint8_spec r) as [(b & _ & _ & E) | (_ & E)]; rewrite E;
    [| discriminate].
  destruct (Z.land (byte_val b) 128 =? 0).
  - intros H. inversion H; subst. simpl. lia.
  - intros H.
    pose proof (read_varuint_loop_keeps (Z.to_nat (size r - pos r))
                  (Z.lor 0 (Z.shiftl (Z.land (byte_val b) 127) 0)) (0 + 7)
                  (advance r 1)) as [_ K].
    rewrite H in K. simpl in K. lia.
Qed.

(** X7.  [_expect_tag] rewinds on a mismatch only.  When the tag at the cursor
    is read and is the expected one the cursor stays behind it; when it is read
    and is another one, [ValueError] is raised with the reader as it was
    before; when it cannot be read, by the end of the file or because its low
    four bits are no [TagType], the exception of the read is raised and the
    cursor stays where the read left it, which for a bad type is behind the
    tag. *)
Theorem expect_tag_rewinds_on_mismatch_only i t r :
  (forall index tag_type r1,
     _read_tag r = (Ok (index, tag_type), r1) ->
     _expect_tag i t r
       = if (index =? i) && TagType_eqb tag_type t
         then (Ok tt, r1) else (Raise ValueError, r)) /\
  (forall e r1,
     _read_tag r = (Raise e, r1) -> _expect_tag i t r = (Raise e, r1)) /\
  (forall v r1,
     on_stream read_varuint r = (Ok v, r1) ->
     TagType_of_value (Z.land v 0xF) = None ->
     _expect_tag i t r = (Raise ValueError, r1) /\
     pos (stream r) < pos (stream r1)).
Proof.
  assert (E0 : on_stream tell r = (Ok (pos (stream r)), r))
    by (destruct r as [[d p] be]; reflexivity).
  assert (Hexp : forall o r1, _read_tag r = (o, r1) ->
            _expect_tag i t r
              = match o with
                | Ok (index, tag_type) =>
                    if negb (index =? i) || negb (TagType_eqb tag_type t)
                    then (Raise ValueError,
                          set_stream (seek_to (pos (stream r)) (stream r1)) r1)
                    else (Ok tt, r1)
                | Raise e => (Raise e, r1)
                | OutOfFuel => (OutOfFuel, r1)
                end).
  { intros o r1 E. unfold _expect_tag. rewrite (bind_run_ok _ _ _ _ _ E0).
    unfold bind at 1. rewrite E. destruct o as [[index tag_type] | e |];
      try reflexivity.
    destruct (negb (index =? i) || negb (TagType_eqb tag_type t)); reflexivity. }
  split; [| split].
  - intros index tag_type r1 E. rewrite (Hexp _ _ E).
    pose proof (keeps_read_tag r) as [[D _] B]. rewrite E in D, B. simpl in D, B.
    rewrite <- negb_andb.
    destruct ((index =? i) && TagType_eqb tag_type t); [reflexivity |].
    simpl. f_equal. destruct r as [[d p] be], r1 as [[d1 p1] be1].
    simpl in *. subst. reflexivity.
  - intros e r1 E. rewrite (Hexp _ _ E). reflexivity.
  - intros v r1 E Hbad.
    assert (ET : _read_tag r = (Raise ValueError, r1)).
    { unfold _read_tag. rewrite (bind_run_ok _ _ _ _ _ E). rewrite Hbad.
      reflexivity. }
    split; [rewrite (Hexp _ _ ET); reflexivity |].
    unfold on_stream, zoom in E.
    destruct (read_varuint (stream r)) as [o s1] eqn:EV.
    inversion E; subst; clear E. simpl.
    apply (read_varuint_moves_on _ _ _ EV).
Qed.

(** A reader in front of the tag of index 2 and type [ID], and one in front
    of a byte whose low four bits are 0. *)
Definition reader_before_id_2 : TaggedBlockReader :=
  reader_at (bytes_of_ints (id_field 2)) 0.

Definition reader_before_bad_tag : TaggedBlockReader :=
  reader_at (bytes_of_ints [0x10; 0; 0]) 0.

Lemma expect_tag_rewinds_on_mismatch_only_witness :
  _expect_tag 1 ID reader_before_id_2 = (Raise ValueError, reader_before_id_2) /\
  _expect_tag 1 ID reader_before_bad_tag
    = (Raise ValueError, reader_at (bytes_of_ints [0x10; 0; 0]) 1).
Proof.
  split.
  - apply (proj1 (expect_tag_rewinds_on_mismatch_only 1 ID reader_before_id_2)
             2 ID (reader_at (bytes_of_ints (id_field 2)) 1)).
    reflexivity.
  - apply (proj2 (proj2 (expect_tag_rewinds_on_mismatch_only 1 ID
                           reader_before_bad_tag))
             0x10 (reader_at (bytes_of_ints [0x10; 0; 0]) 1));
      reflexivity.
Defined.

(** ** Blocks that are skipped *)

(** X8.  A block of any type but [LineItem] is skipped unread: the iteration
    leaves the layer alone and puts the cursor at the end of the block,
    whatever the bytes of the payload and whether or not the file holds them
    all. *)
Theorem other_blocks_are_skipped
    st block_type len min_version current_version st1 :
  on_reader read_block_header st
    = (Ok (Some (block_type, len, min_version, current_version)), st1) ->
  block_type <> BlockType_value LineItem ->
  let st' := seek_state (cursor st + 8 + len) st1 in
  parse_block st = (Ok Next, st') /\
  default_layer st' = default_layer st /\
  cursor st' = cursor st + 8 + len /\
  file_of st' = file_of st.
Proof.
  intros EH Hne st'.
  pose proof (parse_block_cases st) as C. rewrite EH in C. cbv zeta in C.
  apply header_read in EH as (Hc & Hf & Hl & _). rewrite Hc in C.
  destruct (Z.eqb_spec block_type (BlockType_value LineItem));
    [contradiction |].
  repeat split; [exact C | exact Hl | exact Hf].
Qed.

(** A [SceneTree] block (type 1) of three payload bytes. *)
Definition scene_tree_block : list byte := block 1 [7; 7; 7].

Lemma other_blocks_are_skipped_witness :
  let st := after_header (HEADER_V6 ++ scene_tree_block ++ dot_block) in
  fst (parse_block st) = Ok Next /\ cursor (snd (parse_block st)) = 54.
Proof.
  intros st.
  destruct (other_blocks_are_skipped st 1 3 1 1 (seek_state 51 st) eq_refl
              ltac:(discriminate)) as (E & _ & C & _).
  rewrite E. split; [reflexivity | exact C].
Defined.

(** X9.  A block that is cut off by the end of the file is no error.  When
    the iteration over a block ends at the end of the block, which it does
    for every block but a deleted [LineItem], and fewer than four bytes of the
    file lie behind that end (the length field may even reach past the end of
    the file), the loop ends normally right after, with at most the one stroke
    of the block added. *)
Theorem block_cut_off_ends_the_loop
    st block_type len min_version current_version st1 fuel :
  on_reader read_block_header st
    = (Ok (Some (block_type, len, min_version, current_version)), st1) ->
  block_type <> BlockType_value LineItem \/
    (forall st2, line_item_body st1 <> (Ok Continue, st2)) ->
  file_size st - (cursor st + 8 + len) < 4 ->
  exists st', parse_loop (S (S fuel)) st = (Ok tt, st') /\
              appends_at_most_one st st'.
Proof.
  intros EH Hcase Hcut.
  destruct (parse_block_seeks_to_block_end _ _ _ _ _ _ EH Hcase)
    as (st' & E & Hc).
  pose proof (parse_block_next _ _ E) as (Hf & _).
  pose proof (parse_block_appends st) as HA. rewrite E in HA. cbn [snd] in HA.
  destruct (parse_block_at_eof st') as (st'' & E' & L').
  { unfold file_size, file_of in *. unfold size. rewrite Hf.
    fold (size (stream (reader st))). lia. }
  exists st''. split.
  - cbn [parse_loop]. unfold bind. rewrite E, E'. reflexivity.
  - apply (appends_then_same_layer _ _ _ HA). exact L'.
Qed.

(** A [stroke_block] without its last two bytes: the points are there, the
    timestamp id is cut off.  The [try] body raises at the end of the file,
    and the stroke is not kept. *)
Lemma block_cut_off_ends_the_loop_witness :
  parse_file (HEADER_V6 ++ firstn 103 stroke_block) = Ok {| layers := [layer_1] |}.
Proof.
  set (content := HEADER_V6 ++ firstn 103 stroke_block).
  unfold parse_file, bind. unfold content at 1. rewrite after_header_valid.
  fold content.
  destruct (block_cut_off_ends_the_loop (state_at content 43) 5 97 1 1
              (seek_state 51 (state_at content 43)) (length content - 1)
              eq_refl) as (st' & E & A).
  - right. intros st2. vm_compute. discriminate.
  - vm_compute. reflexivity.
  - change (parse_fuel content) with (S (S (length content - 1))).
    rewrite E. destruct A as (An & Av & [As | (s & _ & As)]).
    + unfold document_of. destruct (default_layer st') as [n v ss].
      simpl in *. subst. reflexivity.
    + exfalso. revert E. vm_compute. intros E. inversion E; subst.
      simpl in As. discriminate.
Defined.

Lemma line_item_body_continue_inv st st' :
  line_item_body st = (Ok Continue, st') ->
  exists deleted_length,
    on_reader read_envelope st = (Ok deleted_length, st') /\ deleted_length > 0.
Proof.
  unfold line_item_body, read_envelope, on_reader, zoom, bind.
  intros H.
  destruct (read_id 1 (reader st)) as [[i1 | e |] r1]; try discriminate.
  cbn [reader set_reader] in *.
  destruct (read_id 2 r1) as [[i2 | e |] r2]; try discriminate.
  cbn [reader set_reader] in *.
  destruct (read_id 3 r2) as [[i3 | e |] r3]; try discriminate.
  cbn [reader set_reader] in *.
  destruct (read_id 4 r3) as [[i4 | e |] r4]; try discriminate.
  cbn [reader set_reader] in *.
  destruct (read_int 5 r4) as [[d | e |] r5]; try discriminate.
  cbn [reader set_reader default_layer] in *.
  destruct (Z.gtb_spec d 0) as [Hd | Hd].
  - inversion H; subst. exists d. split; [reflexivity | lia].
  - exfalso. revert H. cbn [reader set_reader default_layer].
    destruct (has_subblock 6 r5) as [[[|] | e |] r6]; try discriminate.
    cbn [reader set_reader default_layer].
    destruct (read_subblock 6 r6) as [[l | e |] r7]; try discriminate.
    cbn [reader set_reader default_layer].
    destruct (on_stream read_uint8 r7) as [[it | e |] r8]; try discriminate.
    cbn [reader set_reader default_layer].
    destruct (it =? 3); try discriminate.
    cbn [reader set_reader default_layer].
    destruct (read_line_data r8) as [[[s |] | e |] r9]; try discriminate.
    destruct (points s); discriminate.
Qed.

(** X10.  A [LineItem] block whose item is not deleted is left at its end,
    whatever its body: whether the body is read to its end, stops early or
    raises, the iteration ends normally with the cursor eight bytes of header
    and [len] bytes of payload behind the start of the block, and with at most
    one stroke added. *)
Theorem live_line_item_ends_at_block_end
    st len min_version current_version st1 :
  on_reader read_block_header st
    = (Ok (Some (BlockType_value LineItem, len, min_version, current_version)),
       st1) ->
  (forall deleted_length st2,
     on_reader read_envelope st1 = (Ok deleted_length, st2) ->
     deleted_length <= 0) ->
  exists st', parse_block st = (Ok Next, st') /\
              cursor st' = cursor st + 8 + len /\
              appends_at_most_one st st'.
Proof.
  intros EH Hlive.
  destruct (parse_block_seeks_to_block_end _ _ _ _ _ _ EH) as (st' & E & Hc).
  - right. intros st2 EB.
    apply line_item_body_continue_inv in EB as (d & EE & Hd).
    specialize (Hlive d st2 EE). lia.
  - exists st'. split; [exact E |]. split; [exact Hc |].
    pose proof (parse_block_appends st) as HA. rewrite E in HA. exact HA.
Qed.

Lemma live_line_item_ends_at_block_end_witness :
  exists st',
    parse_block (after_header (HEADER_V6 ++ stroke_block ++ dot_block))
      = (Ok Next, st') /\
    cursor st' = 43 + 8 + 97.
Proof.
  destruct (live_line_item_ends_at_block_end
              (after_header (HEADER_V6 ++ stroke_block ++ dot_block)) 97 1 1
              (seek_state 51
                 (after_header (HEADER_V6 ++ stroke_block ++ dot_block)))
              eq_refl) as (st' & E & C & _).
  - intros d st2 H. vm_compute in H. inversion H. lia.
  - exists st'. split; [exact E | exact C].
Defined.

(** The header of a block and two bytes more. *)
Lemma eof_behind_length_field_always_raises_witness :
  exists st',
    parse_loop 1 (state_at (HEADER_V6 ++ repeat x00 6) 43)
      = (Raise EOFError, st').
Proof.
  apply (eof_behind_length_field_always_raises
           (state_at (HEADER_V6 ++ repeat x00 6) 43) 0).
  - vm_compute. discriminate.
  - vm_compute. split; [discriminate | reflexivity].
Defined.

(** ** Erasers *)

Lemma on_reader_bind_inv {A B} (m : M TaggedBlockReader A)
    (k : A -> M TaggedBlockReader B) st v st' :
  on_reader (bind m k) st = (Ok v, st') ->
  exists a st1, on_reader m st = (Ok a, st1) /\ on_reader (k a) st1 = (Ok v, st').
Proof.
  unfold on_reader, zoom, bind.
  destruct (m (reader st)) as [[a | e |] r1]; try discriminate.
  intros H. exists a, (set_reader r1 st). split; [reflexivity | exact H].
Qed.

(** The [try] body on an item that is not deleted and whose line is read:
    the stroke is appended when it has a point.  Nothing on the way looks at
    the pen. *)
Lemma line_item_body_keeps_the_stroke
    st deleted_length st2 st3 value_length st4 st5 s st6 :
  on_reader read_envelope st = (Ok deleted_length, st2) ->
  deleted_length <= 0 ->
  on_reader (has_subblock 6) st2 = (Ok true, st3) ->
  on_reader (read_subblock 6) st3 = (Ok value_length, st4) ->
  on_reader (on_stream read_uint8) st4 = (Ok 0x03, st5) ->
  on_reader read_line_data st5 = (Ok (Some s), st6) ->
  points s <> [] ->
  line_item_body st = (Ok Completed, snd (append_stroke s st6)).
Proof.
  intros HE Hd HH HS HT HL Hp. unfold read_envelope in HE.
  apply on_reader_bind_inv in HE as (i1 & s1 & E1 & HE).
  apply on_reader_bind_inv in HE as (i2 & s2 & E2 & HE).
  apply on_reader_bind_inv in HE as (i3 & s3 & E3 & HE).
  apply on_reader_bind_inv in HE as (i4 & s4 & E4 & HE).
  unfold line_item_body.
  rewrite (bind_run_ok _ _ _ _ _ E1), (bind_run_ok _ _ _ _ _ E2),
    (bind_run_ok _ _ _ _ _ E3), (bind_run_ok _ _ _ _ _ E4),
    (bind_run_ok _ _ _ _ _ HE).
  destruct (Z.gtb_spec deleted_length 0); [lia |].
  rewrite (bind_run_ok _ _ _ _ _ HH), (bind_run_ok _ _ _ _ _ HS),
    (bind_run_ok _ _ _ _ _ HT).
  cbv beta iota. rewrite Z.eqb_refl, (bind_run_ok _ _ _ _ _ HL).
  destruct (points s) as [| p ps]; [congruence |]. reflexivity.
Qed.

(** The strokes of the layer only grow while the loop runs. *)
Lemma parse_loop_extends fuel : forall st,
  exists more,
    strokes (default_layer (snd (parse_loop fuel st)))
      = strokes (default_layer st) ++ more.
Proof.
  induction fuel as [| fuel IH]; intros st.
  - exists []. simpl. rewrite app_nil_r. reflexivity.
  - cbn [parse_loop]. unfold bind.
    pose proof (parse_block_appends st) as (_ & _ & HB).
    destruct (parse_block st) as [[[|] | e |] st1]; unfold ret; cbn [snd] in *.
    + destruct HB as [-> | (s & _ & ->)]; [exists [] | exists [s]];
        [rewrite app_nil_r |]; reflexivity.
    + destruct (IH st1) as [more E]. rewrite E.
      destruct HB as [-> | (s & _ & ->)];
        [exists more | exists (s :: more); rewrite <- app_assoc]; reflexivity.
    + destruct HB as [-> | (s & _ & ->)]; [exists [] | exists [s]];
        [rewrite app_nil_r |]; reflexivity.
    + destruct HB as [-> | (s & _ & ->)]; [exists [] | exists [s]];
        [rewrite app_nil_r |]; reflexivity.
Qed.

Lemma read_line_data_pen r tool_id r1 s r' :
  read_int 1 r = (Ok tool_id, r1) ->
  read_line_data r = (Ok (Some s), r') ->
  pen s = pen_of_tool_id tool_id.
Proof.
  intros E H. unfold read_line_data in H.
  rewrite (bind_run_ok _ _ _ _ _ E) in H.
  apply bind_ok in H as (color_id & r2 & _ & H).
  apply bind_ok in H as (thickness & r3 & _ & H).
  apply bind_ok in H as (starting & r4 & _ & H).
  apply bind_ok in H as (points_length & r5 & _ & H).
  cbv zeta in H.
  apply bind_ok in H as (pts & r6 & _ & H).
  apply bind_ok in H as (timestamp & r7 & _ & H).
  inversion H; subst. reflexivity.
Qed.

(** A stroke of the single point (10, 20) made with the tool [tool_id]. *)
Definition pen_block (tool_id : Z) : list byte :=
  block 5 (envelope 0
           ++ line_value tool_id 0 (point_bytes 0x41200000 0x41A00000 16)).

(** An ERASER_AREA stroke of the single point (10, 20). *)
Definition eraser_area_block : list byte := pen_block 8.

(** C6.  Every [<path>] in a group of the tree that [render_svg] builds is
    the path of a stroke of the document whose pen is neither [ERASER] nor
    [ERASER_AREA]; a stroke with one of these pens adds nothing to its group.
    The parser keeps such strokes, as it keeps every stroke: whenever the
    iteration over a [LineItem] block reads an item that is not deleted and
    its line, with at least one point, the stroke is appended to the layer,
    whatever its pen, and it stays in the layer for the rest of the loop; the
    pen of the stroke is that of the tool id that was read, [ERASER] for 6
    and [ERASER_AREA] for 8.  So the file of one stroke parses to that
    stroke for every pen of the enumeration, the two erasers included, and
    the file with an eraser stroke and a ballpoint stroke parses to both and
    renders to one path. *)
Theorem eraser_strokes_are_not_rendered doc width height x_offset :
  (forall g p,
     In g (children_of (render_svg doc width height x_offset)) ->
     In p (children_of g) ->
     exists layer stroke,
       In layer (layers doc) /\ In stroke (strokes layer) /\
       p = path_element x_offset stroke /\
       pen stroke <> IsPen ERASER /\ pen stroke <> IsPen ERASER_AREA) /\
  (forall g stroke,
     pen stroke = IsPen ERASER \/ pen stroke = IsPen ERASER_AREA ->
     render_stroke x_offset g stroke = g) /\
  (forall st len min_version current_version st1 deleted_length st2 st3
          value_length st4 st5 s st6,
     on_reader read_block_header st
       = (Ok (Some (BlockType_value LineItem, len, min_version,
                    current_version)), st1) ->
     on_reader read_envelope st1 = (Ok deleted_length, st2) ->
     deleted_length <= 0 ->
     on_reader (has_subblock 6) st2 = (Ok true, st3) ->
     on_reader (read_subblock 6) st3 = (Ok value_length, st4) ->
     on_reader (on_stream read_uint8) st4 = (Ok 0x03, st5) ->
     on_reader read_line_data st5 = (Ok (Some s), st6) ->
     points s <> [] ->
     fst (parse_block st) = Ok Next /\
     strokes (default_layer (snd (parse_block st)))
       = strokes (default_layer st) ++ [s] /\
     forall fuel, exists more,
       strokes (default_layer (snd (parse_loop (S fuel) st)))
         = strokes (default_layer st) ++ s :: more) /\
  (forall r tool_id r1 s r',
     read_int 1 r = (Ok tool_id, r1) ->
     read_line_data r = (Ok (Some s), r') ->
     pen s = pen_of_tool_id tool_id) /\
  pen_of_tool_id 6 = IsPen ERASER /\
  pen_of_tool_id 8 = IsPen ERASER_AREA /\
  (forall p, pens_read (HEADER_V6 ++ pen_block (Pen_value p)) = Some [IsPen p]) /\
  pens_read (HEADER_V6 ++ eraser_block ++ dot_block)
    = Some [IsPen ERASER; IsPen BALLPOINT] /\
  pens_read (HEADER_V6 ++ eraser_area_block) = Some [IsPen ERASER_AREA] /\
  option_map (fun d => count_paths (render_svg d width height x_offset))
    (match parse_file (HEADER_V6 ++ eraser_block ++ dot_block) with
     | Ok d => Some d
     | _ => None
     end) = Some 1%nat.
Proof.
  split; [| split; [| split; [| split]]].
  - intros g p Hg Hp. unfold render_svg in Hg. cbn [children_of] in Hg.
    rewrite render_layers_groups in Hg. apply in_app_or in Hg as [Hg | Hg].
    + destruct Hg as [<- | []]. destruct Hp.
    + apply in_map_iff in Hg as ([i layer] & <- & Hin).
      apply in_combine_r in Hin. cbn [fst snd] in Hp.
      unfold render_layer in Hp. cbn [children_of] in Hp.
      rewrite render_strokes_drawn in Hp. cbn [app] in Hp.
      apply in_map_iff in Hp as (stroke & <- & Hs).
      apply filter_In in Hs as [Hs Hd].
      exists layer, stroke. repeat split; auto.
      * intros E. unfold drawn in Hd.
        rewrite (proj2 (eraser_pen_is_eraser stroke) (or_introl E)) in Hd.
        discriminate.
      * intros E. unfold drawn in Hd.
        rewrite (proj2 (eraser_pen_is_eraser stroke) (or_intror E)) in Hd.
        discriminate.
  - intros g stroke H. unfold render_stroke.
    rewrite (proj2 (eraser_pen_is_eraser stroke) H). reflexivity.
  - intros st len min_version current_version st1 deleted_length st2 st3
      value_length st4 st5 s st6 EH EE Hd HH HS HT HL Hp.
    pose proof (line_item_body_keeps_the_stroke _ _ _ _ _ _ _ _ _
                  EE Hd HH HS HT HL Hp) as EB.
    pose proof (parse_block_cases st) as C. rewrite EH in C. cbv zeta in C.
    rewrite Z.eqb_refl, EB in C.
    assert (L : default_layer st6 = default_layer st).
    { pose proof (on_reader_same_layer read_line_data st5) as L5.
      pose proof (on_reader_same_layer (on_stream read_uint8) st4) as L4.
      pose proof (on_reader_same_layer (read_subblock 6) st3) as L3.
      pose proof (on_reader_same_layer (has_subblock 6) st2) as L2.
      pose proof (on_reader_same_layer read_envelope st1) as L1.
      rewrite HL in L5. rewrite HT in L4. rewrite HS in L3. rewrite HH in L2.
      rewrite EE in L1. unfold same_layer in *. cbn [snd] in *.
      apply header_read in EH as (_ & _ & L0 & _). congruence. }
    assert (A : strokes (default_layer (snd (parse_block st)))
                = strokes (default_layer st) ++ [s]).
    { rewrite C. cbn. rewrite L. reflexivity. }
    split; [rewrite C; reflexivity |]. split; [exact A |].
    intros fuel. cbn [parse_loop]. unfold bind. rewrite C.
    rewrite C in A. cbn [snd] in A.
    destruct (parse_loop_extends fuel
                (seek_state (cursor st1 + len) (snd (append_stroke s st6))))
      as [more E].
    exists more. rewrite E, A, <- app_assoc. reflexivity.
  - intros r tool_id r1 s r'. apply read_line_data_pen.
  - repeat apply conj; try (intros p; destruct p); vm_compute; reflexivity.
Qed.

Lemma eraser_strokes_are_not_rendered_witness :
  parse_file (HEADER_V6 ++ eraser_block ++ dot_block) = Ok eraser_and_dot /\
  (exists layer stroke,
     In layer (layers eraser_and_dot) /\ In stroke (strokes layer) /\
     path_element DEFAULT_X_OFFSET dot_stroke
       = path_element DEFAULT_X_OFFSET stroke /\
     pen stroke <> IsPen ERASER /\ pen stroke <> IsPen ERASER_AREA) /\
  strokes (default_layer
             (snd (parse_block
                     (after_header (HEADER_V6 ++ eraser_block ++ dot_block)))))
    = [eraser_stroke].
Proof.
  split; [vm_compute; reflexivity |]. split.
  - apply (proj1 (eraser_strokes_are_not_rendered eraser_and_dot OUTPUT_WIDTH
                    OUTPUT_HEIGHT DEFAULT_X_OFFSET)
             (render_layer DEFAULT_X_OFFSET 0
                {| name := "Layer 1"; visible := true;
                   strokes := [eraser_stroke; dot_stroke] |})).
    + right. left. reflexivity.
    + left. reflexivity.
  - pose (st := after_header (HEADER_V6 ++ eraser_block ++ dot_block)).
    apply (proj1 (proj2 (proj1 (proj2 (proj2
             (eraser_strokes_are_not_rendered eraser_and_dot OUTPUT_WIDTH
                OUTPUT_HEIGHT DEFAULT_X_OFFSET)))
             st 83 1 1 (seek_state 51 st) 0 (seek_state 68 st)
             (seek_state 68 st) 61 (seek_state 73 st) (seek_state 74 st)
             eraser_stroke (seek_state 134 st)
             ltac:(vm_compute; reflexivity) ltac:(vm_compute; reflexivity)
             ltac:(lia) ltac:(vm_compute; reflexivity)
             ltac:(vm_compute; reflexivity) ltac:(vm_compute; reflexivity)
             ltac:(vm_compute; reflexivity) ltac:(discriminate)))).
Defined.

(** ** Pens and colours *)

(** The sort keys of [analyze_file]: [p.value if isinstance(p, Pen) else p],
    and the same for a colour. *)
Definition pen_sort_key (p : pen_or_int) : Z :=
  match p with
  | IsPen q => Pen_value q
  | PenInt n => n
  end.

Definition color_sort_key (c : color_or_int) : Z :=
  match c with
  | IsColor q => PenColor_value q
  | ColorInt n => n
  end.

Lemma Pen_of_value_inv v p : Pen_of_value v = Some p -> Pen_value p = v.
Proof.
  unfold Pen_of_value. intros H.
  destruct v as [| q | q]; [inversion H; reflexivity | | discriminate].
  do 6 (try (destruct q as [q | q |]; try discriminate));
    inversion H; reflexivity.
Qed.

Lemma PenColor_of_value_inv v c :
  PenColor_of_value v = Some c -> PenColor_value c = v.
Proof.
  unfold PenColor_of_value. intros H.
  destruct v as [| q | q]; [inversion H; reflexivity | | discriminate].
  do 5 (try (destruct q as [q | q |]; try discriminate));
    inversion H; reflexivity.
Qed.

(** X11.  The conversion of a tool id to a pen, and of a colour id to a
    colour, loses nothing: the number of the result, which is the key
    [analyze_file] sorts by, is the id that was read, for the ids of the
    enumeration and for all others; and the id of a pen of the enumeration
    gives that pen. *)
Theorem pen_and_color_ids_are_kept :
  (forall tool_id, pen_sort_key (pen_of_tool_id tool_id) = tool_id) /\
  (forall color_id, color_sort_key (color_of_color_id color_id) = color_id) /\
  (forall p, pen_of_tool_id (Pen_value p) = IsPen p) /\
  (forall c, color_of_color_id (PenColor_value c) = IsColor c).
Proof.
  split; [| split; [| split]].
  - intros t. unfold pen_of_tool_id.
    destruct (Pen_of_value t) as [p |] eqn:E; [| reflexivity].
    apply Pen_of_value_inv. exact E.
  - intros t. unfold color_of_color_id.
    destruct (PenColor_of_value t) as [c |] eqn:E; [| reflexivity].
    apply PenColor_of_value_inv. exact E.
  - intros p. destruct p; reflexivity.
  - intros c. destruct c; reflexivity.
Qed.

(** ** The block bound of the reader *)

Lemma parse_block_keeps_block_end st :
  _block_end (reader (snd (parse_block st))) = _block_end (reader st).
Proof.
  pose proof (parse_block_cases st) as C.
  pose proof (keeps_on_reader _ keeps_read_block_header st) as [_ B0].
  destruct (on_reader read_block_header st)
    as [[[[[[block_type len] min_version] current_version] |] | e |] st1];
    simpl in B0; try (rewrite C; exact B0).
  cbv zeta in C. destruct (block_type =? BlockType_value LineItem).
  - pose proof (keeps_line_item_body st1) as [_ B1].
    destruct (line_item_body st1) as [[[|] | e |] st2]; simpl in B1;
      rewrite C; simpl; congruence.
  - rewrite C. exact B0.
Qed.

Lemma parse_loop_keeps_block_end fuel : forall st,
  _block_end (reader (snd (parse_loop fuel st))) = _block_end (reader st).
Proof.
  induction fuel as [| fuel IH]; intros st; [reflexivity |].
  cbn [parse_loop]. unfold bind.
  pose proof (parse_block_keeps_block_end st) as B.
  destruct (parse_block st) as [[[|] | e |] st1]; simpl in B; cbn [snd];
    try exact B.
  rewrite IH. exact B.
Qed.

(** X13.  Nothing sets the block bound of the reader.  Whatever the file,
    [_block_end] is [None] when the loop of [parse_file] starts and when it
    ends, and an iteration keeps it; so [bytes_remaining] is infinite all
    along, and the lookahead of [has_subblock] is never stopped by the end of
    the block it is in. *)
Theorem block_end_is_never_set content fuel :
  bytes_remaining (reader (after_header content)) = None /\
  bytes_remaining (reader (snd (parse_loop fuel (after_header content)))) = None /\
  forall st, _block_end (reader (snd (parse_block st))) = _block_end (reader st).
Proof.
  assert (B0 : _block_end (reader (after_header content)) = None).
  { unfold after_header.
    pose proof (keeps_on_reader _ keeps_read_header (parse_init content))
      as [_ B]. exact B. }
  split; [| split].
  - unfold bytes_remaining. rewrite B0. reflexivity.
  - unfold bytes_remaining. rewrite parse_loop_keeps_block_end, B0. reflexivity.
  - apply parse_block_keeps_block_end.
Qed.

(** * Further properties of the renderers *)

(** ** The tree of [render_svg] *)

Lemma nth_error_numbered {A} (l : list A) : forall a i x,
  nth_error l i = Some x ->
  nth_error (combine (seq a (length l)) l) i = Some ((a + i)%nat, x).
Proof.
  induction l as [| y l IH]; intros a i x H.
  - destruct i; discriminate.
  - destruct i as [| i]; simpl in *.
    + inversion H; subst. rewrite Nat.add_0_r. reflexivity.
    + rewrite (IH (S a) i x H). do 2 f_equal. lia.
Qed.

(** X14.  The [<svg>] element that [render_svg] builds holds the background
    rectangle and then one group for each layer of the document, in the order
    of the layers, hidden layers included.  The group of the layer of index
    [i] has the id [layer-i], the name of the layer as [data-name] unless it
    is empty, [visibility="hidden"] exactly when the layer is not visible, and
    for children the paths of the strokes that are drawn, in the order of the
    strokes. *)
Theorem svg_groups_follow_layers doc width height x_offset :
  length (children_of (render_svg doc width height x_offset))
    = S (length (layers doc)) /\
  nth_error (children_of (render_svg doc width height x_offset)) 0
    = Some (Elem "rect"
              [("width", "100%"); ("height", "100%"); ("fill", "#ffffff")]%string
              []) /\
  forall i layer,
    nth_error (layers doc) i = Some layer ->
    exists g,
      nth_error (children_of (render_svg doc width height x_offset)) (S i)
        = Some g /\
      tag_of g = "g"%string /\
      attr_get "id" (attrib_of g)
        = Some ("layer-" ++ decimal (Z.of_nat i))%string /\
      attr_get "data-name" (attrib_of g)
        = (if String.eqb (name layer) "" then None else Some (name layer)) /\
      attr_get "visibility" (attrib_of g)
        = (if visible layer then None else Some "hidden"%string) /\
      children_of g
        = map (path_element x_offset) (filter drawn (strokes layer)).
Proof.
  unfold render_svg. cbn [children_of]. rewrite render_layers_groups.
  split; [| split].
  - rewrite length_app, length_map, length_combine, length_seq. simpl. lia.
  - reflexivity.
  - intros i layer Hi. exists (render_layer x_offset i layer).
    split.
    + cbn [app nth_error].
      rewrite nth_error_map, (nth_error_numbered _ 0%nat i layer Hi).
      reflexivity.
    + unfold render_layer. cbn [tag_of attrib_of children_of].
      rewrite render_strokes_drawn. cbn [app].
      destruct (String.eqb (name layer) ""); destruct (visible layer);
        repeat split; reflexivity.
Qed.

Lemma svg_groups_follow_layers_witness :
  exists g,
    nth_error (children_of (render_svg eraser_and_dot OUTPUT_WIDTH OUTPUT_HEIGHT
                              DEFAULT_X_OFFSET)) 1 = Some g /\
    children_of g = [path_element DEFAULT_X_OFFSET dot_stroke].
Proof.
  destruct (proj2 (proj2 (svg_groups_follow_layers eraser_and_dot OUTPUT_WIDTH
                            OUTPUT_HEIGHT DEFAULT_X_OFFSET))
              0%nat _ eq_refl) as (g & E & _ & _ & _ & _ & C).
  exists g. split; [exact E | exact C].
Defined.

(** ** Widths *)

Lemma py_max_at_least a v :
  PrimFloat.leb a a = true -> PrimFloat.leb a (py_max a v) = true.
Proof.
  intros Ha. unfold py_max. destruct (PrimFloat.ltb a v) eqn:E; [| exact Ha].
  rewrite ltb_spec in E. rewrite leb_spec. unfold SFltb in E. unfold SFleb.
  destruct (SFcompare (Prim2SF a) (Prim2SF v)) as [[| |] |];
    try discriminate; reflexivity.
Qed.

(** The strokes that a file can hold: the integer fields of every point are
    in the range of their width on disk, and there are fewer than [2^32]
    points.  For them the sum of the widths and the number of points are
    below [2^53], where Python converts an [int] to a [float] exactly and
    without raising, and the division of two [int] is the division of the
    two floats, as in [int_truediv]. *)
Definition stroke_in_range (stroke : Stroke) : Prop :=
  Forall point_in_range (points stroke) /\
  Z.of_nat (length (points stroke)) < 2 ^ 32.

Lemma sum_widths_range ps : forall acc,
  Forall point_in_range ps ->
  acc <= fold_left (fun a p => a + width p) ps acc
      <= acc + 65535 * Z.of_nat (length ps).
Proof.
  induction ps as [| p ps IH]; intros acc H; cbn [fold_left length]; [lia |].
  inversion H as [| ? ? Hp Hps]; subst. destruct Hp as (_ & Hw & _).
  specialize (IH (acc + width p) Hps). rewrite Nat2Z.inj_succ. lia.
Qed.

Lemma on_stream_read_uint32_range r v r' :
  on_stream read_uint32 r = (Ok v, r') -> 0 <= v < 2 ^ 32.
Proof.
  unfold on_stream, zoom.
  destruct (read_uint32 (stream r)) as [o s1] eqn:E.
  intros H. inversion H; subst; clear H.
  unfold read_uint32 in E. apply read_fixed_ok in E as (bs & -> & L & _).
  pose proof (le_uint_range bs) as R. rewrite L in R. exact R.
Qed.

(** Every stroke that is read from a file is in range. *)
Lemma read_line_data_in_range r stroke r' :
  read_line_data r = (Ok (Some stroke), r') -> stroke_in_range stroke.
Proof.
  unfold read_line_data. intros H.
  apply bind_ok in H as (tool_id & r1 & _ & H).
  apply bind_ok in H as (color_id & r2 & _ & H).
  apply bind_ok in H as (thickness & r3 & _ & H).
  apply bind_ok in H as (starting & r4 & _ & H).
  apply bind_ok in H as (points_length & r5 & E5 & H).
  cbv zeta in H.
  apply bind_ok in H as (pts & r6 & E6 & H).
  apply bind_ok in H as (timestamp & r7 & _ & H).
  inversion H; subst; clear H.
  unfold read_subblock in E5. apply bind_ok in E5 as (u & r4' & _ & E5).
  apply on_stream_read_uint32_range in E5.
  unfold on_stream, zoom in E6.
  destruct (read_points (Z.to_nat (points_length / 14)) (stream r5))
    as [o s1] eqn:EP.
  inversion E6; subst; clear E6.
  apply read_points_ok in EP as (L & _ & _ & R).
  unfold stroke_in_range. cbn [points]. split; [exact R |].
  rewrite L. change (2 ^ 32) with 4294967296 in *.
  assert (0 <= points_length / 14 <= points_length)
    by (split; [apply Z.div_pos; lia | apply Z.div_le_upper_bound; lia]).
  rewrite Z2Nat.id by lia. lia.
Qed.

(** X15.  A stroke with points that a file can hold is never drawn thinner
    than 0.5, in the SVG as on the PDF.  Every stroke that [read_line_data]
    returns is in range: the integer fields of its points are within their
    width on disk and it has fewer than [2^32] points.  For a stroke in
    range with at least one point, the sum of the widths and the number of
    points are below [2^53], so that their quotient is computed as Python
    computes it, and the width is a number, not a NaN, and at least 0.5,
    whatever the width fields of the points within their range. *)
Theorem stroke_width_is_at_least_half :
  (forall stroke,
     points stroke <> [] -> stroke_in_range stroke ->
     0 <= sum_widths (points stroke) < 2 ^ 53 /\
     0 < Z.of_nat (length (points stroke)) < 2 ^ 53 /\
     PrimFloat.leb 0.5 (get_stroke_width stroke) = true) /\
  (forall r stroke r',
     read_line_data r = (Ok (Some stroke), r') -> stroke_in_range stroke).
Proof.
  split; [| exact read_line_data_in_range].
  intros stroke Hne [HR HL].
  pose proof (sum_widths_range (points stroke) 0 HR) as HS.
  change (2 ^ 32) with 4294967296 in HL.
  change (2 ^ 53) with 9007199254740992.
  split; [unfold sum_widths; lia |]. split.
  - destruct (points stroke); [congruence | simpl length in *; lia].
  - unfold get_stroke_width.
    destruct (points stroke) as [| p ps]; [congruence |].
    apply py_max_at_least. reflexivity.
Qed.

Lemma stroke_width_is_at_least_half_witness :
  PrimFloat.leb 0.5 (get_stroke_width dot_stroke) = true.
Proof.
  apply (proj1 stroke_width_is_at_least_half dot_stroke).
  - discriminate.
  - split; [repeat constructor; simpl; lia | simpl; lia].
Defined.

(** ** The calls on the PDF shape *)

(** The point of the page that [draw_stroke_on_page] maps a point to.  It is
    the point of the SVG renderer for the offset of the page. *)
Definition pdf_point (page_width : float) (p : Point) : float * float :=
  (tx (page_width / 2 * RM_TO_PDF_SCALE) (x p), ty (y p)).

(** The pairs of neighbours of a list. *)
Definition neighbours {A} (l : list A) : list (A * A) := combine l (tl l).

Lemma draw_segments_lines pts : forall shape,
  draw_segments shape pts
    = shape ++ map (fun pq => draw_line (fst pq) (snd pq)) (neighbours pts).
Proof.
  induction pts as [| p pts IH]; intros shape.
  - simpl. rewrite app_nil_r. reflexivity.
  - destruct pts as [| q rest].
    + simpl. rewrite app_nil_r. reflexivity.
    + change (draw_segments shape (p :: q :: rest))
        with (draw_segments (shape ++ [draw_line p q]) (q :: rest)).
      rewrite IH, <- app_assoc. reflexivity.
Qed.

Lemma combine_map_both {A B} (f : A -> B) (l1 : list A) : forall l2,
  combine (map f l1) (map f l2)
    = map (fun pq => (f (fst pq), f (snd pq))) (combine l1 l2).
Proof.
  induction l1 as [| a l1 IH]; intros l2; [reflexivity |].
  destruct l2 as [| b l2]; [reflexivity |]. simpl. rewrite IH. reflexivity.
Qed.

Lemma neighbours_map {A B} (f : A -> B) (l : list A) :
  neighbours (map f l) = map (fun pq => (f (fst pq), f (snd pq))) (neighbours l).
Proof.
  unfold neighbours. rewrite <- combine_map_both.
  destruct l; reflexivity.
Qed.

Lemma draw_stroke_on_page_drawn shape stroke page_width :
  is_eraser stroke = false -> (2 <= length (points stroke))%nat ->
  draw_stroke_on_page shape stroke page_width
    = shape
      ++ map (fun pq => draw_line (pdf_point page_width (fst pq))
                                  (pdf_point page_width (snd pq)))
             (neighbours (points stroke))
      ++ [finish (get_color stroke) (get_stroke_width stroke) 1 1
                 (get_stroke_opacity stroke) false].
Proof.
  intros He Hlen. unfold draw_stroke_on_page. rewrite He.
  destruct (Nat.ltb_spec (length (points stroke)) 2); [lia |].
  cbn [orb]. rewrite draw_segments_lines, neighbours_map, map_map.
  rewrite <- app_assoc.
  assert (O : (if is_highlighter stroke then 0.4%float else 1.0%float)
              = get_stroke_opacity stroke).
  { unfold is_highlighter, get_stroke_opacity.
    destruct (pen stroke) as [p | n]; reflexivity. }
  rewrite O.
  assert (W : py_max 0.5
                (int_truediv (sum_widths (points stroke))
                             (Z.of_nat (length (points stroke)))
                 / RM_TO_PDF_SCALE / 4.0)%float
              = get_stroke_width stroke).
  { unfold get_stroke_width.
    destruct (points stroke); [simpl in Hlen; lia | reflexivity]. }
  rewrite W. reflexivity.
Qed.

(** X16.  For a stroke that is no eraser and has two points or more,
    [draw_stroke_on_page] keeps the calls already made on the shape and adds a
    line between each point and the next, in order, then one [finish] with
    round caps and joins and an open path.  The points are those of the SVG
    renderer for the offset of the page, and the width and the opacity are
    [get_stroke_width] and [get_stroke_opacity] of the SVG renderer. *)
Theorem pdf_stroke_is_lines_then_finish shape stroke page_width :
  is_eraser stroke = false -> (2 <= length (points stroke))%nat ->
  draw_stroke_on_page shape stroke page_width
    = shape
      ++ map (fun pq => draw_line (pdf_point page_width (fst pq))
                                  (pdf_point page_width (snd pq)))
             (neighbours (points stroke))
      ++ [finish (get_color stroke) (get_stroke_width stroke) 1 1
                 (get_stroke_opacity stroke) false].
Proof. apply draw_stroke_on_page_drawn. Qed.

(** The fineliner stroke of [stroke_block]. *)
Definition fineliner_stroke : Stroke :=
  {| pen := IsPen FINELINER;
     color := IsColor BLACK;
     thickness_scale := 1.0;
     points := [ {| x := 0; y := 0; speed := 0; width := 16;
                    direction := 0; pressure := 0 |};
                 {| x := 100; y := 200; speed := 0; width := 16;
                    direction := 0; pressure := 0 |};
                 {| x := 200; y := 400; speed := 0; width := 16;
                    direction := 0; pressure := 0 |} ] |}.

Lemma pdf_stroke_is_lines_then_finish_witness :
  length (draw_stroke_on_page [] fineliner_stroke 595) = 3%nat.
Proof.
  rewrite (pdf_stroke_is_lines_then_finish [] fineliner_stroke 595 eq_refl
             ltac:(simpl; lia)).
  reflexivity.
Defined.

(** X17.  [draw_stroke_on_page] leaves the shape as it is exactly for the
    strokes that it does not draw: the erasers, and the strokes of fewer than
    two points.  Every other stroke adds calls. *)
Theorem pdf_draws_nothing_iff shape stroke page_width :
  draw_stroke_on_page shape stroke page_width = shape <->
  is_eraser stroke = true \/ (length (points stroke) < 2)%nat.
Proof.
  split.
  - intros H. destruct (is_eraser stroke) eqn:He; [left; reflexivity |].
    destruct (Nat.ltb_spec (length (points stroke)) 2) as [Hl | Hl];
      [right; exact Hl |].
    exfalso. rewrite (draw_stroke_on_page_drawn _ _ _ He Hl) in H.
    apply (f_equal (@length ShapeCall)) in H.
    rewrite !length_app in H. simpl in H. lia.
  - unfold draw_stroke_on_page. intros [He | Hl].
    + rewrite He. reflexivity.
    + destruct (Nat.ltb_spec (length (points stroke)) 2); [| lia].
      rewrite orb_true_r. reflexivity.
Qed.

(** ** Colours *)

(** X18.  The two renderers agree on the colour of a stroke.  A colour that
    is only a number is black in both.  A colour of the enumeration has an
    entry of its own in the table: the SVG colour is [#rrggbb] in hexadecimal
    and the PDF colour is [(r/255, g/255, b/255)] for the same three channels
    [r], [g], [b], each between 0 and 255. *)
Theorem renderers_agree_on_colour stroke :
  (forall n, color stroke = ColorInt n ->
     get_stroke_color stroke = "#000000"%string /\
     get_color stroke = (0, 0, 0)%float) /\
  (forall c, color stroke = IsColor c ->
     exists r g b,
       In (c, (r, g, b)) COLOR_MAP_RGB /\
       0 <= r <= 255 /\ 0 <= g <= 255 /\ 0 <= b <= 255 /\
       get_stroke_color stroke
         = ("#" ++ format_02x r ++ format_02x g ++ format_02x b)%string /\
       get_color stroke
         = (int_truediv r 255, int_truediv g 255, int_truediv b 255)).
Proof.
  unfold get_stroke_color, get_color. split.
  - intros n ->. split; reflexivity.
  - intros c ->.
    destruct c;
      match goal with
      | |- context [dict_get PenColor_eqb COLOR_MAP_RGB ?c _] =>
          let t := eval vm_compute in
            (dict_get PenColor_eqb COLOR_MAP_RGB c (0, 0, 0)) in
          match t with
          | (?r, ?g, ?b) => exists r, g, b
          end
      end;
      (split; [simpl; tauto |]); repeat (split; [lia |]);
      split; reflexivity.
Qed.

(** A stroke read with the colour id 99, which is no colour of the
    enumeration. *)
Definition unknown_colour_stroke : Stroke :=
  {| pen := IsPen BALLPOINT;
     color := color_of_color_id 99;
     thickness_scale := 1.0;
     points := points dot_stroke |}.

Lemma renderers_agree_on_colour_witness :
  get_stroke_color unknown_colour_stroke = "#000000"%string /\
  get_color unknown_colour_stroke = (0, 0, 0)%float.
Proof.
  apply (proj1 (renderers_agree_on_colour unknown_colour_stroke) 99).
  reflexivity.
Defined.

(** ** Paths *)

Local Open Scope string_scope.

Lemma sapp_assoc (a b c : string) : (a ++ b) ++ c = a ++ (b ++ c).
Proof. induction a as [| ch a IH]; simpl; [reflexivity | rewrite IH; reflexivity]. Qed.

(** The two coordinates of a point as they are written in a path. *)
Definition written (x_offset : float) (p : Point) : string :=
  format_2f (tx x_offset (x p)) ++ " " ++ format_2f (ty (y p)).

(** What one iteration of the loop of [points_to_path] adds to the path. *)
Definition segment (x_offset : float) (last_ i : nat) (p0 p1 : Point) : string :=
  let mid_x := ((tx x_offset (x p0) + tx x_offset (x p1)) / 2)%float in
  let mid_y := ((ty (y p0) + ty (y p1)) / 2)%float in
  if (i =? 1)%nat then " L " ++ format_2f mid_x ++ " " ++ format_2f mid_y
  else if (i =? last_)%nat then " Q " ++ written x_offset p0 ++ " " ++ written x_offset p1
  else " Q " ++ written x_offset p0 ++ " " ++ format_2f mid_x ++ " " ++ format_2f mid_y.

Lemma path_segments_cons x_offset last_ i p0 p1 rest path :
  path_segments x_offset last_ i p0 (p1 :: rest) path
    = path_segments x_offset last_ (S i) p1 rest
        (path ++ segment x_offset last_ i p0 p1).
Proof.
  cbn [path_segments]. unfold segment, written.
  destruct (i =? 1)%nat; [| destruct (i =? last_)%nat];
    repeat rewrite sapp_assoc; reflexivity.
Qed.

Lemma last_default {A} (l : list A) : forall a b c,
  List.last (a :: l) b = List.last (a :: l) c.
Proof.
  induction l as [| x l IH]; intros a b c; [reflexivity |].
  change (List.last (x :: l) b = List.last (x :: l) c). apply IH.
Qed.

Lemma path_segments_ends x_offset last_ rest : forall i p0 path,
  rest <> [] -> (1 <= i)%nat -> (2 <= i \/ 2 <= length rest)%nat ->
  last_ = (i + length rest - 1)%nat ->
  exists middle,
    path_segments x_offset last_ i p0 rest path
      = path ++ middle ++ " " ++ written x_offset (List.last rest p0).
Proof.
  induction rest as [| p1 rest IH]; intros i p0 path Hne H1 Hi Hlast;
    [congruence |].
  rewrite path_segments_cons.
  destruct rest as [| p2 rest].
  - cbn [path_segments List.last]. cbn [length] in Hi, Hlast. unfold segment.
    destruct (Nat.eqb_spec i 1) as [E1 | _]; [lia |].
    destruct (Nat.eqb_spec i last_) as [_ | NE]; [| lia].
    exists (" Q " ++ written x_offset p0).
    repeat rewrite sapp_assoc. reflexivity.
  - destruct (IH (S i) p1 (path ++ segment x_offset last_ i p0 p1))
      as [middle E].
    + discriminate.
    + lia.
    + left. lia.
    + cbn [length] in *. lia.
    + exists (segment x_offset last_ i p0 p1 ++ middle). rewrite E.
      change (List.last (p1 :: p2 :: rest) p0) with (List.last (p2 :: rest) p0).
      rewrite (last_default rest p2 p1 p0).
      repeat rewrite sapp_assoc. reflexivity.
Qed.

(** X19.  The path of a stroke of two points or more runs from its first
    point to its last: it starts with [M] and the coordinates of the first
    point and ends with the coordinates of the last point, whatever the
    midpoints in between.  Only the empty list of points gives the empty
    path. *)
Theorem path_runs_from_first_to_last_point p q ps x_offset :
  (exists middle,
     points_to_path (p :: q :: ps) x_offset
       = "M " ++ written x_offset p ++ middle ++ " "
              ++ written x_offset (List.last (q :: ps) q)) /\
  points_to_path [] x_offset = "" /\
  points_to_path [p] x_offset = "M " ++ written x_offset p ++ " l 0.1 0.1".
Proof.
  split; [| split].
  - destruct ps as [| r ps].
    + exists " L". unfold points_to_path, written.
      repeat rewrite sapp_assoc. reflexivity.
    + unfold points_to_path.
      destruct (path_segments_ends x_offset
                  (length (p :: q :: r :: ps) - 1) (q :: r :: ps) 1 p
                  ("M " ++ format_2f (tx x_offset (x p)) ++ " "
                        ++ format_2f (ty (y p)))) as [middle E].
      * discriminate.
      * lia.
      * right. simpl. lia.
      * simpl. lia.
      * exists middle. rewrite E.
        rewrite (last_default (r :: ps) q p q).
        unfold written. repeat rewrite sapp_assoc. reflexivity.
  - reflexivity.
  - unfold points_to_path, written. repeat rewrite sapp_assoc. reflexivity.
Qed.

Local Close Scope string_scope.

(** * Further properties of the stream reader *)

(** ** The value of a varuint *)

(** The number whose digits in base 128 are the low seven bits of the bytes,
    the least significant digit first. *)
Fixpoint base128 (bs : list byte) : Z :=
  match bs with
  | [] => 0
  | b :: rest => Z.land (byte_val b) 0x7F + 128 * base128 rest
  end.

Lemma low7_range v : 0 <= Z.land v 0x7F < 128.
Proof.
  change 0x7F with (Z.ones 7). rewrite Z.land_ones by lia.
  change (2 ^ 7) with 128. apply Z.mod_pos_bound. lia.
Qed.

Lemma base128_range bs : 0 <= base128 bs < 128 ^ Z.of_nat (length bs).
Proof.
  induction bs as [| b bs IH]; [simpl; lia |].
  cbn [base128 length]. rewrite Nat2Z.inj_succ, Z.pow_succ_r by lia.
  pose proof (low7_range (byte_val b)). lia.
Qed.

(** The seven low bits and a multiple of 128 share no bit, so or-ing them
    adds them. *)
Lemma lor_low7 v n : Z.lor (Z.land v 0x7F) (128 * n) = Z.land v 0x7F + 128 * n.
Proof.
  assert (H : Z.land (Z.land v 0x7F) (128 * n) = 0).
  { apply Z.bits_inj'. intros k Hk. rewrite Z.bits_0, Z.land_spec.
    destruct (Z.ltb_spec k 7).
    - replace (128 * n) with (Z.shiftl n 7)
        by (rewrite Z.shiftl_mul_pow2 by lia; lia).
      rewrite Z.shiftl_spec_low by lia. apply andb_false_r.
    - change 0x7F with (Z.ones 7). rewrite Z.land_ones by lia.
      rewrite Z.mod_pow2_bits_high by lia. reflexivity. }
  rewrite <- Z.lxor_lor by exact H. symmetry.
  apply Z.add_nocarry_lxor. exact H.
Qed.

Lemma varuint_value_base128 bs : forall shift, 0 <= shift ->
  varuint_value bs shift = Z.shiftl (base128 bs) shift.
Proof.
  induction bs as [| b bs IH]; intros shift Hs; cbn [varuint_value base128].
  - rewrite Z.shiftl_0_l. reflexivity.
  - rewrite IH by lia. rewrite (Z.add_comm shift 7).
    rewrite <- (Z.shiftl_shiftl (base128 bs) 7 shift) by lia.
    rewrite <- Z.shiftl_lor. f_equal.
    rewrite (Z.shiftl_mul_pow2 _ 7) by lia. change (2 ^ 7) with 128.
    rewrite (Z.mul_comm (base128 bs) 128). apply lor_low7.
Qed.

(** X20.  The value that [read_varuint] returns is the number written in
    base 128 by the low seven bits of the bytes it reads, least significant
    digit first: or-ing the shifted groups is adding them.  The value of a
    sequence of [n] bytes is at least 0 and below [128 ^ n], and the read
    leaves the cursor [n] bytes on. *)
Theorem read_varuint_is_base_128 r cs t rest :
  0 <= pos r -> unread r = cs ++ t :: rest ->
  Forall (fun b => continues b = true) cs -> continues t = false ->
  read_varuint r
    = (Ok (base128 (cs ++ [t])), advance r (Z.of_nat (length (cs ++ [t])))) /\
  0 <= base128 (cs ++ [t]) < 128 ^ Z.of_nat (length (cs ++ [t])).
Proof.
  intros Hpos Hun Hcs Ht. split; [| apply base128_range].
  unfold read_varuint.
  rewrite (read_varuint_loop_terminated cs t rest); auto.
  - rewrite varuint_value_base128, Z.shiftl_0_r by lia.
    rewrite length_app, Nat2Z.inj_add. reflexivity.
  - unfold varuint_fuel. pose proof (unread_length r Hpos) as L.
    rewrite Hun, length_app in L. simpl in L. lia.
Qed.

(** The two bytes [AC 02], which write 300. *)
Definition varuint_300 : BinaryReader :=
  {| data := bytes_of_ints [0xAC; 0x02; 0xFF]; pos := 0 |}.

Lemma read_varuint_is_base_128_witness :
  read_varuint varuint_300 = (Ok 300, advance varuint_300 2).
Proof.
  apply (proj1 (read_varuint_is_base_128 varuint_300 [xac] x02 [xff]
                  ltac:(simpl; lia) eq_refl
                  ltac:(repeat constructor) eq_refl)).
Defined.

(** * Further properties of the PDF export *)

(** ** The strokes of a page *)

Lemma draw_stroke_on_page_app shape stroke page_width :
  draw_stroke_on_page shape stroke page_width
    = shape ++ draw_stroke_on_page [] stroke page_width.
Proof.
  destruct (is_eraser stroke) eqn:He;
    [unfold draw_stroke_on_page; rewrite He, app_nil_r; reflexivity |].
  destruct (Nat.ltb_spec (length (points stroke)) 2) as [Hl | Hl].
  - unfold draw_stroke_on_page.
    destruct (Nat.ltb_spec (length (points stroke)) 2); [| lia].
    rewrite orb_true_r, app_nil_r. reflexivity.
  - rewrite !(draw_stroke_on_page_drawn _ _ _ He Hl). reflexivity.
Qed.

Lemma draw_strokes_run page_width strokes : forall shape n,
  draw_strokes page_width strokes (shape, n)
    = (shape ++ flat_map (fun s => draw_stroke_on_page [] s page_width) strokes,
       n + Z.of_nat (length strokes)).
Proof.
  unfold draw_strokes.
  induction strokes as [| s strokes IH]; intros shape n.
  - simpl. rewrite app_nil_r, Z.add_0_r. reflexivity.
  - cbn [fold_left flat_map length]. rewrite IH.
    rewrite (draw_stroke_on_page_app shape), <- app_assoc.
    f_equal. lia.
Qed.

Lemma draw_layers_run page_width ls : forall shape n,
  fold_left (fun acc layer => draw_strokes page_width (strokes layer) acc)
            ls (shape, n)
    = (shape ++ flat_map (fun s => draw_stroke_on_page [] s page_width)
                         (flat_map strokes ls),
       n + Z.of_nat (length (flat_map strokes ls))).
Proof.
  induction ls as [| l ls IH]; intros shape n.
  - simpl. rewrite app_nil_r, Z.add_0_r. reflexivity.
  - cbn [fold_left flat_map]. rewrite draw_strokes_run, IH.
    rewrite flat_map_app, length_app, <- app_assoc.
    f_equal. lia.
Qed.

(** The [finish] calls of a shape: [fitz] draws one path for each. *)
Definition finishes (shape : list ShapeCall) : nat :=
  length (filter (fun c => match c with finish _ _ _ _ _ _ => true
                           | draw_line _ _ => false end) shape).

(** The strokes that [draw_stroke_on_page] draws. *)
Definition drawn_on_pdf (stroke : Stroke) : bool :=
  negb (is_eraser stroke) && (2 <=? length (points stroke))%nat.

Lemma finishes_app a b : finishes (a ++ b) = (finishes a + finishes b)%nat.
Proof. unfold finishes. rewrite filter_app, length_app. reflexivity. Qed.

Lemma finishes_lines {A} (f g : A -> float * float) l :
  finishes (map (fun pq => draw_line (f pq) (g pq)) l) = 0%nat.
Proof. induction l as [| a l IH]; [reflexivity | exact IH]. Qed.

Lemma finishes_stroke stroke page_width :
  finishes (draw_stroke_on_page [] stroke page_width)
    = if drawn_on_pdf stroke then 1%nat else 0%nat.
Proof.
  unfold drawn_on_pdf.
  destruct (is_eraser stroke) eqn:He;
    [unfold draw_stroke_on_page; rewrite He; reflexivity |].
  destruct (Nat.leb_spec 2 (length (points stroke))) as [Hl | Hl]; cbn [negb andb].
  - rewrite (draw_stroke_on_page_drawn _ _ _ He Hl).
    cbn [app]. rewrite finishes_app, finishes_lines. reflexivity.
  - unfold draw_stroke_on_page.
    destruct (Nat.ltb_spec (length (points stroke)) 2); [| lia].
    rewrite orb_true_r. reflexivity.
Qed.

Lemma finishes_strokes page_width strokes :
  finishes (flat_map (fun s => draw_stroke_on_page [] s page_width) strokes)
    = length (filter drawn_on_pdf strokes).
Proof.
  induction strokes as [| s strokes IH]; [reflexivity |].
  cbn [flat_map filter]. rewrite finishes_app, finishes_stroke, IH.
  destruct (drawn_on_pdf s); reflexivity.
Qed.

(** X21.  On a page, [export_annotated_pdf] makes the calls of the strokes of
    the document one stroke after the other, layer by layer and in the order
    of the file, whether or not the layer is visible, and it counts every
    stroke: the number it reports is that of all the strokes of the page, the
    erasers and the strokes of fewer than two points included, whereas the
    paths on the page, one for each [finish], are those of the other strokes
    only. *)
Theorem pdf_page_counts_every_stroke doc page_width shape annotations_added :
  draw_layers doc page_width shape annotations_added
    = (shape ++ flat_map (fun s => draw_stroke_on_page [] s page_width)
                         (all_strokes doc),
       annotations_added + Z.of_nat (length (all_strokes doc))) /\
  finishes (fst (draw_layers doc page_width [] 0))
    = length (filter drawn_on_pdf (all_strokes doc)) /\
  Z.of_nat (finishes (fst (draw_layers doc page_width [] 0)))
    <= snd (draw_layers doc page_width [] 0).
Proof.
  unfold draw_layers, all_strokes. rewrite !draw_layers_run. cbn [fst snd app].
  split; [reflexivity |]. rewrite finishes_strokes.
  split; [reflexivity |].
  pose proof (filter_length_le drawn_on_pdf (flat_map strokes (layers doc))).
  lia.
Qed.

(** * Properties of the folders *)

(** ** Slugs *)

Definition hyphen : ascii := "-"%char.

Lemma lstrip_head c s r : folders.lstrip c s <> c :: r.
Proof.
  induction s as [| a s IH]; cbn [folders.lstrip]; [discriminate |].
  destruct (Ascii.eqb_spec a c) as [E | NE]; [exact IH |].
  intros H. inversion H. contradiction.
Qed.

Lemma lstrip_suffix c s : exists pre, s = pre ++ folders.lstrip c s.
Proof.
  induction s as [| a s [pre IH]]; cbn [folders.lstrip]; [exists []; reflexivity |].
  destruct (a =? c)%char.
  - exists (a :: pre). simpl. rewrite <- IH. reflexivity.
  - exists []. reflexivity.
Qed.

Lemma strip_infix c s : exists pre post, s = pre ++ folders.strip c s ++ post.
Proof.
  unfold folders.strip, folders.rstrip.
  destruct (lstrip_suffix c s) as [pre E].
  destruct (lstrip_suffix c (rev (folders.lstrip c s))) as [post' E'].
  exists pre, (rev post').
  rewrite <- rev_app_distr, <- E', rev_involutive. exact E.
Qed.

Lemma strip_head c s r : folders.strip c s <> c :: r.
Proof.
  unfold folders.strip, folders.rstrip. intros H.
  destruct (lstrip_suffix c (rev (folders.lstrip c s))) as [post' E'].
  apply (f_equal (@rev ascii)) in E'.
  rewrite rev_involutive, rev_app_distr, H in E'.
  exact (lstrip_head c s _ E').
Qed.

Lemma strip_last c s r : folders.strip c s <> r ++ [c].
Proof.
  unfold folders.strip, folders.rstrip. intros H.
  apply (f_equal (@rev ascii)) in H.
  rewrite rev_involutive, rev_app_distr in H.
  exact (lstrip_head c _ _ H).
Qed.

(** Two hyphens side by side somewhere in a string. *)
Fixpoint double_hyphen (s : list ascii) : bool :=
  match s with
  | a :: (b :: _) as rest =>
      ((a =? hyphen)%char && (b =? hyphen)%char) || double_hyphen rest
  | _ => false
  end.

Lemma double_hyphen_cons a s :
  double_hyphen s = true -> double_hyphen (a :: s) = true.
Proof.
  destruct s as [| b s]; [discriminate |]. intros H.
  change (((a =? hyphen)%char && (b =? hyphen)%char)
          || double_hyphen (b :: s) = true).
  rewrite H. apply orb_true_r.
Qed.

Lemma double_hyphen_found l r :
  double_hyphen (l ++ hyphen :: hyphen :: r) = true.
Proof.
  induction l as [| a l IH]; [reflexivity |].
  apply double_hyphen_cons. exact IH.
Qed.

Lemma sub_runs_hyphen_single s : forall in_run,
  double_hyphen (folders.sub_runs (fun c => (c =? hyphen)%char) in_run s) = false /\
  (in_run = true ->
   forall r, folders.sub_runs (fun c => (c =? hyphen)%char) in_run s <> hyphen :: r).
Proof.
  induction s as [| c s IH]; intros in_run; cbn [folders.sub_runs].
  - split; [reflexivity | discriminate].
  - destruct (Ascii.eqb_spec c hyphen) as [E | NE].
    + destruct (IH true) as [D H]. destruct in_run.
      * split; [exact D | intros _; exact (H eq_refl)].
      * split; [| discriminate].
        destruct (folders.sub_runs (fun c0 => (c0 =? hyphen)%char) true s)
          as [| b rest] eqn:Es; [reflexivity |].
        cbn [double_hyphen]. cbn [double_hyphen] in D.
        destruct (Ascii.eqb_spec b hyphen) as [Eb | _].
        -- subst b. exfalso. exact (H eq_refl rest eq_refl).
        -- rewrite andb_false_r. exact D.
    + destruct (IH false) as [D _]. split.
      * destruct (folders.sub_runs (fun c0 => (c0 =? hyphen)%char) false s)
          as [| b rest] eqn:Es; [reflexivity |].
        cbn [double_hyphen]. cbn [double_hyphen] in D.
        destruct (Ascii.eqb_spec c hyphen); [contradiction |]. exact D.
      * intros _ r H. inversion H. contradiction.
Qed.

Lemma sub_runs_chars (P : ascii -> Prop) cls s : forall in_run,
  Forall P s ->
  Forall (fun c => c = hyphen \/ (P c /\ cls c = false))
         (folders.sub_runs cls in_run s).
Proof.
  induction s as [| c s IH]; intros in_run H; cbn [folders.sub_runs];
    [constructor |].
  inversion H as [| ? ? Pc Ps]; subst.
  destruct (cls c) eqn:Ec.
  - destruct in_run; [apply IH; exact Ps |].
    constructor; [left; reflexivity | apply IH; exact Ps].
  - constructor; [right; split; assumption | apply IH; exact Ps].
Qed.

(** The characters of the slug of a name. *)
Definition slug (U : folders.Unicode) (name : string) : list ascii :=
  list_ascii_of_string (folders.slugify U name).

(** X22.  Whatever the name and whatever Unicode says of its characters, the
    slug that [slugify] returns is made of hyphens and of word characters
    that are neither white space nor the underscore; no two hyphens stand
    side by side, and the slug neither begins nor ends with a hyphen. *)
Theorem slug_is_word_characters_and_single_hyphens U name :
  Forall (fun c => c = hyphen \/
                   (folders.is_word U c = true /\ folders.is_space U c = false /\
                    c <> "_"%char))
         (slug U name) /\
  (forall l r, slug U name <> l ++ hyphen :: hyphen :: r) /\
  (forall r, slug U name <> hyphen :: r) /\
  (forall l, slug U name <> l ++ [hyphen]).
Proof.
  unfold slug, folders.slugify. rewrite list_ascii_of_string_of_list_ascii.
  set (s1 := filter _ _).
  set (s2 := folders.sub_runs _ false s1).
  set (s3 := folders.sub_runs _ false s2).
  destruct (strip_infix "-" s3) as (pre & post & E).
  assert (C1 : Forall (fun c => folders.is_word U c || folders.is_space U c
                                || (c =? "-")%char = true) s1).
  { apply Forall_forall. intros c Hc. apply filter_In in Hc. exact (proj2 Hc). }
  assert (C2 : Forall (fun c => c = hyphen \/
                 (folders.is_word U c = true /\ folders.is_space U c = false /\
                  c <> "_"%char)) s2).
  { pose proof (sub_runs_chars _
                  (fun c => folders.is_space U c || (c =? "_")%char) s1 false C1)
      as H.
    revert H. apply Forall_impl.
    intros c [Hh | [Hc Hn]]; [left; exact Hh |].
    apply orb_false_iff in Hn. destruct Hn as [Hs Hu].
    rewrite Hs, orb_false_r in Hc.
    apply orb_true_iff in Hc. destruct Hc as [Hw | Hh].
    - right. split; [exact Hw | split; [exact Hs |]].
      intros ->. discriminate.
    - left. apply Ascii.eqb_eq. exact Hh. }
  assert (C3 : Forall (fun c => c = hyphen \/
                 (folders.is_word U c = true /\ folders.is_space U c = false /\
                  c <> "_"%char)) s3).
  { pose proof (sub_runs_chars _ (fun c => (c =? "-")%char) s2 false C2) as H.
    revert H. apply Forall_impl.
    intros c [Hh | [Hc _]]; [left |]; assumption. }
  split; [| split; [| split]].
  - rewrite E in C3. apply Forall_app in C3. destruct C3 as [_ C3].
    apply Forall_app in C3. exact (proj1 C3).
  - intros l r H.
    assert (D : double_hyphen s3 = false)
      by exact (proj1 (sub_runs_hyphen_single s2 false)).
    rewrite E, H in D.
    replace (pre ++ (l ++ hyphen :: hyphen :: r) ++ post)
      with ((pre ++ l) ++ hyphen :: hyphen :: (r ++ post)) in D
      by (repeat rewrite <- app_assoc; reflexivity).
    rewrite double_hyphen_found in D. discriminate.
  - intros r. apply strip_head.
  - intros l. apply strip_last.
Qed.

(** ** Folder paths *)

(** Unicode for the characters of ASCII: the letters [A] to [Z] have a lower
    case, the word characters are the letters, the digits and the underscore,
    and white space is the characters 9 to 13 and 28 to 32. *)
Definition ascii_tables : folders.Unicode :=
  {| folders.lower := fun s =>
       string_of_list_ascii
         (map (fun c => let n := nat_of_ascii c in
                        if ((65 <=? n) && (n <=? 90))%nat
                        then ascii_of_nat (n + 32) else c)
              (list_ascii_of_string s));
     folders.is_word := fun c =>
       let n := nat_of_ascii c in
       (((48 <=? n) && (n <=? 57)) || ((65 <=? n) && (n <=? 90))
        || ((97 <=? n) && (n <=? 122)) || (n =? 95))%nat;
     folders.is_space := fun c =>
       let n := nat_of_ascii c in
       (((9 <=? n) && (n <=? 13)) || ((28 <=? n) && (n <=? 32)))%nat |}.

Section FolderPaths.

Variable U : folders.Unicode.
Variable _items : list (string * folders.DocumentInfo).

(** [ancestors p ds]: following the parents from the uuid [p] the loop of
    [get_folder_path] meets the items [ds], nearest first, and then stops: at
    the root, at the trash, or at a uuid that has no metadata. *)
Inductive ancestors : string -> list folders.DocumentInfo -> Prop :=
| ancestors_stop p :
    p = ""%string \/ p = "trash"%string \/ folders.items_get _items p = None ->
    ancestors p []
| ancestors_step p d ds :
    p <> ""%string -> p <> "trash"%string ->
    folders.items_get _items p = Some d ->
    ancestors (folders.parent d) ds ->
    ancestors p (d :: ds).

Lemma loop_guard p :
  negb (p =? "")%string && negb (p =? "trash")%string = true
  <-> p <> ""%string /\ p <> "trash"%string.
Proof.
  destruct (String.eqb_spec p "") as [E | NE];
    destruct (String.eqb_spec p "trash") as [E' | NE']; simpl;
    split; try discriminate; try tauto.
Qed.

Lemma loop_of_ancestors p ds :
  ancestors p ds -> forall fuel parts, (length ds < fuel)%nat ->
  folders.get_folder_path_loop U fuel _items p parts
    = Ok (parts ++ map (fun d => folders.slugify U (folders.name d)) ds).
Proof.
  induction 1 as [p Hstop | p d ds Hne Hnt Hget Hanc IH];
    intros fuel parts Hfuel;
    (destruct fuel as [| fuel]; [simpl in Hfuel; lia |]);
    cbn [folders.get_folder_path_loop map].
  - rewrite app_nil_r.
    destruct (negb (p =? "")%string && negb (p =? "trash")%string) eqn:G;
      [| reflexivity].
    apply loop_guard in G. destruct G as [G1 G2].
    destruct Hstop as [E | [E | E]]; [contradiction | contradiction |].
    rewrite E. reflexivity.
  - rewrite (proj2 (loop_guard p) (conj Hne Hnt)), Hget.
    rewrite IH by (simpl in Hfuel; lia).
    rewrite <- app_assoc. reflexivity.
Qed.

Lemma loop_returns fuel : forall p parts r,
  folders.get_folder_path_loop U fuel _items p parts = Ok r ->
  exists ds, ancestors p ds.
Proof.
  induction fuel as [| fuel IH]; intros p parts r; [discriminate |].
  cbn [folders.get_folder_path_loop].
  destruct (negb (p =? "")%string && negb (p =? "trash")%string) eqn:G.
  - apply loop_guard in G. destruct G as [G1 G2].
    destruct (folders.items_get _items p) as [d |] eqn:Hget.
    + intros H. destruct (IH _ _ _ H) as [ds Hds].
      exists (d :: ds). apply ancestors_step; assumption.
    + intros _. exists []. apply ancestors_stop. right. right. exact Hget.
  - intros _. exists []. apply ancestors_stop.
    destruct (String.eqb_spec p "") as [E | NE]; [left; exact E |].
    destruct (String.eqb_spec p "trash") as [E' | NE'];
      [right; left; exact E' |].
    discriminate.
Qed.

Lemma loop_never_raises fuel : forall p parts e,
  folders.get_folder_path_loop U fuel _items p parts <> Raise e.
Proof.
  induction fuel as [| fuel IH]; intros p parts e; [discriminate |].
  cbn [folders.get_folder_path_loop].
  destruct (negb (p =? "")%string && negb (p =? "trash")%string);
    [| discriminate].
  destruct (folders.items_get _items p); [apply IH | discriminate].
Qed.

Lemma ancestors_functional p ds :
  ancestors p ds -> forall ds', ancestors p ds' -> ds = ds'.
Proof.
  induction 1 as [p Hstop | p d ds Hne Hnt Hget Hanc IH]; intros ds' H'.
  - inversion H' as [| ? d' ds'' Hne Hnt Hget Hanc]; subst; [reflexivity |].
    destruct Hstop as [E | [E | E]]; congruence.
  - inversion H' as [? Hstop | ? d' ds'' Hne' Hnt' Hget' Hanc']; subst.
    + destruct Hstop as [E | [E | E]]; congruence.
    + assert (d' = d) by congruence. subst d'.
      f_equal. apply IH. exact Hanc'.
Qed.

(** The uuids that the loop looks up on the way. *)
Fixpoint visited (p : string) (ds : list folders.DocumentInfo) : list string :=
  match ds with
  | [] => []
  | d :: rest => p :: visited (folders.parent d) rest
  end.

Lemma visited_length ds : forall p, length (visited p ds) = length ds.
Proof.
  induction ds as [| d ds IH]; intros p; simpl; [| rewrite IH]; reflexivity.
Qed.

Lemma items_get_In l : forall p d,
  folders.items_get l p = Some d -> In p (map fst l).
Proof.
  induction l as [| [k v] l IH]; intros p d; simpl; [discriminate |].
  destruct (String.eqb_spec k p) as [E | NE]; [left; exact E |].
  intros H. right. exact (IH _ _ H).
Qed.

Lemma visited_restart p ds :
  ancestors p ds -> forall q, In q (visited p ds) ->
  exists ds', ancestors q ds' /\ (length ds' <= length ds)%nat.
Proof.
  induction 1 as [p Hstop | p d ds Hne Hnt Hget Hanc IH]; intros q Hq;
    [contradiction |].
  destruct Hq as [E | Hq].
  - subst q. exists (d :: ds). split; [apply ancestors_step; assumption | lia].
  - destruct (IH q Hq) as (ds' & A & L). exists ds'. split; [exact A |].
    simpl. lia.
Qed.

(** No uuid is looked up twice on a way that stops. *)
Lemma visited_NoDup p ds : ancestors p ds -> NoDup (visited p ds).
Proof.
  induction 1 as [p Hstop | p d ds Hne Hnt Hget Hanc IH]; simpl;
    constructor; [| exact IH].
  intros Hin.
  destruct (visited_restart _ _ Hanc p Hin) as (ds' & A & L).
  assert (E : d :: ds = ds')
    by (apply (ancestors_functional p); [apply ancestors_step |]; assumption).
  subst ds'. simpl in L. lia.
Qed.

Lemma visited_known p ds :
  ancestors p ds -> incl (visited p ds) (map fst _items).
Proof.
  induction 1 as [p Hstop | p d ds Hne Hnt Hget Hanc IH]; simpl;
    intros q Hq; [contradiction |].
  destruct Hq as [E | Hq]; [subst q; exact (items_get_In _ _ _ Hget) |].
  apply IH. exact Hq.
Qed.

Lemma ancestors_bound p ds :
  ancestors p ds -> (length ds <= length _items)%nat.
Proof.
  intros H. rewrite <- (visited_length ds p), <- (length_map fst _items).
  apply NoDup_incl_length; [apply visited_NoDup | apply visited_known]; exact H.
Qed.

(** A set of uuids that the loop cannot leave: each of them has metadata, is
    neither the root nor the trash, and has its parent in the set.  A folder
    that is its own parent is one, and so are two folders that are each
    other's parent. *)
Definition parent_cycle (C : string -> Prop) : Prop :=
  forall p, C p ->
    p <> ""%string /\ p <> "trash"%string /\
    exists d, folders.items_get _items p = Some d /\ C (folders.parent d).

Lemma loop_in_cycle C : parent_cycle C -> forall fuel p parts,
  C p -> folders.get_folder_path_loop U fuel _items p parts = OutOfFuel.
Proof.
  intros HC. induction fuel as [| fuel IH]; intros p parts Hp; [reflexivity |].
  cbn [folders.get_folder_path_loop].
  destruct (HC p Hp) as (Hne & Hnt & d & Hget & Hd).
  rewrite (proj2 (loop_guard p) (conj Hne Hnt)), Hget.
  apply IH. exact Hd.
Qed.

(** X23.  When the parents of a document lead, through folders that have
    metadata, to the root, to the trash or to a uuid without metadata,
    [get_folder_path] returns the slugs of these folders, the outermost
    first, joined by a slash; its loop ends within as many iterations as
    there are items, plus the one that stops. *)
Theorem folder_path_is_the_slugs_of_the_ancestors uuid doc ds fuel :
  folders.items_get _items uuid = Some doc ->
  ancestors (folders.parent doc) ds ->
  (length _items < fuel)%nat ->
  folders.get_folder_path U fuel _items uuid
    = Ok (String.concat "/"
            (rev (map (fun d => folders.slugify U (folders.name d)) ds))).
Proof.
  intros Hget Hanc Hfuel. unfold folders.get_folder_path. rewrite Hget.
  rewrite (loop_of_ancestors _ _ Hanc)
    by (pose proof (ancestors_bound _ _ Hanc); lia).
  reflexivity.
Qed.

(** X24.  [get_folder_path] does not return for a document whose parents run
    into a cycle: however many iterations its loop is given, it has not
    ended. *)
Theorem folder_path_of_a_parent_cycle_never_returns C uuid doc fuel :
  parent_cycle C ->
  folders.items_get _items uuid = Some doc -> C (folders.parent doc) ->
  folders.get_folder_path U fuel _items uuid = OutOfFuel.
Proof.
  intros HC Hget Hp. unfold folders.get_folder_path. rewrite Hget.
  rewrite (loop_in_cycle C HC fuel _ [] Hp). reflexivity.
Qed.

(** X25.  There is nothing in between: on every dictionary and for every
    uuid, [get_folder_path] either returns, and then within as many
    iterations of its loop as there are items, plus the one that stops, or
    never returns.  It raises no exception, and for a uuid without metadata
    it returns the empty path at once. *)
Theorem folder_path_returns_early_or_never uuid :
  ((exists path, forall fuel, (length _items < fuel)%nat ->
      folders.get_folder_path U fuel _items uuid = Ok path) \/
   (forall fuel, folders.get_folder_path U fuel _items uuid = OutOfFuel)) /\
  (forall fuel,
     exists o, folders.get_folder_path U fuel _items uuid = o /\
               (o = OutOfFuel \/ exists path, o = Ok path)) /\
  (folders.items_get _items uuid = None ->
   forall fuel, folders.get_folder_path U fuel _items uuid = Ok ""%string).
Proof.
  unfold folders.get_folder_path.
  destruct (folders.items_get _items uuid) as [doc |] eqn:Hget.
  2: { split; [left; exists ""%string; reflexivity |].
       split; [| reflexivity].
       intros fuel. eexists. split; [reflexivity |]. right. eexists. reflexivity. }
  split; [| split; [| discriminate]].
  - destruct (folders.get_folder_path_loop U (S (length _items)) _items
                (folders.parent doc) []) as [parts | e |] eqn:E.
    + left. destruct (loop_returns _ _ _ _ E) as [ds Hanc].
      exists (String.concat "/"
                (rev (map (fun d => folders.slugify U (folders.name d)) ds))).
      intros fuel Hfuel.
      rewrite (loop_of_ancestors _ _ Hanc)
        by (pose proof (ancestors_bound _ _ Hanc); lia).
      reflexivity.
    + exfalso. exact (loop_never_raises _ _ _ _ E).
    + right. intros fuel.
      destruct (folders.get_folder_path_loop U fuel _items (folders.parent doc) [])
        as [parts | e |] eqn:E';
        [| exfalso; exact (loop_never_raises _ _ _ _ E') | reflexivity].
      exfalso. destruct (loop_returns _ _ _ _ E') as [ds Hanc].
      rewrite (loop_of_ancestors _ _ Hanc) in E
        by (pose proof (ancestors_bound _ _ Hanc); lia).
      discriminate.
  - intros fuel. eexists. split; [reflexivity |].
    destruct (folders.get_folder_path_loop U fuel _items (folders.parent doc) [])
      as [parts | e |] eqn:E';
      [right; eexists; reflexivity
      | exfalso; exact (loop_never_raises _ _ _ _ E')
      | left; reflexivity].
Qed.

End FolderPaths.

Local Open Scope string_scope.

(** A notebook in the folder [2024 Notes] of the folder [Work_Archive]. *)
Definition meeting : folders.DocumentInfo :=
  {| folders.uuid := "n"; folders.name := "Meeting"; folders.parent := "f2";
     folders.doc_type := "DocumentType"; folders.last_modified := 0 |}.

Definition notes_2024 : folders.DocumentInfo :=
  {| folders.uuid := "f2"; folders.name := "2024 Notes"; folders.parent := "f1";
     folders.doc_type := "CollectionType"; folders.last_modified := 0 |}.

Definition work_archive : folders.DocumentInfo :=
  {| folders.uuid := "f1"; folders.name := "Work_Archive"; folders.parent := "";
     folders.doc_type := "CollectionType"; folders.last_modified := 0 |}.

Definition nested_items : list (string * folders.DocumentInfo) :=
  [ ("n", meeting); ("f2", notes_2024); ("f1", work_archive) ]%list.

Lemma folder_path_is_the_slugs_of_the_ancestors_witness :
  folders.get_folder_path ascii_tables 4 nested_items "n"
    = Ok "work-archive/2024-notes".
Proof.
  apply (folder_path_is_the_slugs_of_the_ancestors ascii_tables nested_items
           "n" meeting [notes_2024; work_archive]%list 4 eq_refl).
  - apply ancestors_step; [discriminate | discriminate | reflexivity |].
    apply ancestors_step; [discriminate | discriminate | reflexivity |].
    apply ancestors_stop. left. reflexivity.
  - simpl. lia.
Defined.

(** A notebook in a folder that was moved into its own subfolder. *)
Definition cyclic_items : list (string * folders.DocumentInfo) :=
  [ ("n", {| folders.uuid := "n"; folders.name := "Meeting";
             folders.parent := "a"; folders.doc_type := "DocumentType";
             folders.last_modified := 0 |});
    ("a", {| folders.uuid := "a"; folders.name := "A";
             folders.parent := "b"; folders.doc_type := "CollectionType";
             folders.last_modified := 0 |});
    ("b", {| folders.uuid := "b"; folders.name := "B";
             folders.parent := "a"; folders.doc_type := "CollectionType";
             folders.last_modified := 0 |}) ]%list.

Lemma folder_path_of_a_parent_cycle_never_returns_witness :
  folders.get_folder_path ascii_tables 1000 cyclic_items "n" = OutOfFuel.
Proof.
  refine (folder_path_of_a_parent_cycle_never_returns ascii_tables cyclic_items
            (fun p => p = "a" \/ p = "b") "n" _ 1000 _ eq_refl _).
  - intros p [-> | ->]; (split; [discriminate |]);
      (split; [discriminate |]); eexists; (split; [reflexivity |]).
    + right. reflexivity.
    + left. reflexivity.
  - left. reflexivity.
Defined.

Local Close Scope string_scope.
